(** * ZiCount receipt scanner: token-to-item extraction (scanner.py)

    A shallow embedding of the extraction core of [scanner.py] and the
    properties of its specification.

    Modelling conventions
    - A Python [str] is a list of Unicode code points ([N]).  A missing or
      [None] text is the empty string, because every use in the source is
      [t.get("text") or ""].
    - Python floats are exact rationals ([Q]): comparisons and the ratio
      [inter / union] are computed without rounding.  The one place where a
      string of unbounded length becomes a float, [float(nums[0])] in
      [parse_price_value], keeps the overflow to infinity of a binary64
      ([pyfloat]).
    - A token is a Python dict object; [tid] is its object identity, so
      [t is not pt] is [tid t <> tid pt].
    - The Unicode database and the case tables of the [re] module are an
      interface ([UnicodeData]); general theorems hold for every
      implementation of it, test vectors are evaluated on [py_unicode].
    - An OCR result is a dynamically typed value ([pyval]); a call on it
      returns, raises, or lies outside of what is described here
      ([outcome]). *)

From Stdlib Require Import String Ascii.
From Stdlib Require Import List Bool Arith ZArith NArith QArith Qminmax Qabs.
From Stdlib Require Import Lia Lqa Permutation Sorted.
Import ListNotations.
Close Scope Q_scope.
Close Scope string_scope.

Set Implicit Arguments.

(* ================================================================== *)
(** * Text *)
(* ================================================================== *)

Definition char := N.
Definition str := list char.

(** An ASCII literal as a list of code points. *)
Fixpoint lit (s : String.string) : str :=
  match s with
  | EmptyString => []
  | String a r => N_of_ascii a :: lit r
  end.

Definition ch (s : String.string) : char :=
  match s with
  | String a _ => N_of_ascii a
  | EmptyString => 0%N
  end.

Fixpoint str_eqb (a b : str) : bool :=
  match a, b with
  | [], [] => true
  | x :: a', y :: b' => N.eqb x y && str_eqb a' b'
  | _, _ => false
  end.

Definition in_range (lo hi c : char) : bool := (N.leb lo c && N.leb c hi)%bool.

Definition mem_char (c : char) (l : list char) : bool := existsb (N.eqb c) l.

Definition mem_str (s : str) (l : list str) : bool := existsb (str_eqb s) l.

(** [a in b] for strings: [a] occurs as a contiguous substring of [b]. *)
Fixpoint prefixb (a b : str) : bool :=
  match a, b with
  | [], _ => true
  | x :: a', y :: b' => N.eqb x y && prefixb a' b'
  | _ :: _, [] => false
  end.

Fixpoint substringb (a b : str) : bool :=
  prefixb a b ||
  match b with
  | [] => false
  | _ :: b' => substringb a b'
  end.

(** [s.replace(c, d)] for one-character [c]; [d] may be empty. *)
Definition replace_char (c : char) (d : str) (s : str) : str :=
  flat_map (fun x => if N.eqb x c then d else [x]) s.

(** [s.rfind(c)]: the highest index of [c] in [s], [-1] when absent. *)
Fixpoint rfind_from (c : char) (s : str) (i : Z) (found : Z) : Z :=
  match s with
  | [] => found
  | x :: s' => rfind_from c s' (i + 1) (if N.eqb x c then i else found)
  end.

Definition rfind (c : char) (s : str) : Z := rfind_from c s 0 (-1).

(** [sep.join(parts)]. *)
Fixpoint join (sep : str) (parts : list str) : str :=
  match parts with
  | [] => []
  | [p] => p
  | p :: ps => p ++ sep ++ join sep ps
  end.

(* ================================================================== *)
(** * The Unicode interface *)
(* ================================================================== *)

(** What the source takes from [str], [unicodedata] and the character
    tables of [re]. *)
Class UnicodeData := {
  (** [str.isspace] on one character; also [\s] and what [strip] and
      [split] remove. *)
  isspace : char -> bool;
  (** [\d] of [re] (category Nd) and the digit's value, as [float] reads
      it. *)
  isdecimal : char -> bool;
  decimal_value : char -> Z;
  (** [str.isdigit]. *)
  isdigit : char -> bool;
  (** [str.isalnum]: with the underscore, the word characters of [\b]. *)
  isalnum : char -> bool;
  (** Simple lower-case mapping of [re.IGNORECASE], and the extra case
      equivalents that [re] adds to a lowered character. *)
  tolower : char -> char;
  case_fixes : char -> list char;
  (** [str.upper] of one character: a string, as for U+00DF. *)
  upper : char -> str;
  (** [unicodedata.normalize('NFKD', s)]. *)
  nfkd : str -> str;
  (** [unicodedata.category(c)[0] == 'M']. *)
  is_mark : char -> bool;
  (** [unicodedata.name(c)]; [None] where Python raises [ValueError]. *)
  uname : char -> option str
}.

Section Text.
Context {U : UnicodeData}.

(** [s.strip()]. *)
Fixpoint lstrip (s : str) : str :=
  match s with
  | c :: s' => if isspace c then lstrip s' else s
  | [] => []
  end.

Definition rstrip (s : str) : str := rev (lstrip (rev s)).

Definition strip (s : str) : str := rstrip (lstrip s).

(** [s.upper()]. *)
Definition upper_str (s : str) : str := flat_map upper s.

(** [s.isdigit()]: non-empty and all characters digits. *)
Definition str_isdigit (s : str) : bool :=
  match s with
  | [] => false
  | _ => forallb isdigit s
  end.

(** [len(s.split())]: the number of maximal runs of non-space
    characters. *)
Fixpoint count_words (in_word : bool) (s : str) : nat :=
  match s with
  | [] => 0
  | c :: s' =>
      if isspace c then count_words false s'
      else if in_word then count_words true s'
      else S (count_words true s')
  end.

End Text.

(* ================================================================== *)
(** * Geometry *)
(* ================================================================== *)

(** A box [(x1, y1, x2, y2)]. *)
Record box := Box { bx1 : Q; by1 : Q; bx2 : Q; by2 : Q }.

Definition Qltb (x y : Q) : bool := negb (Qle_bool y x).

(** [vertical_overlap_ratio], lines 73-79. *)
Definition vertical_overlap_ratio (a b : box) : Q :=
  let ay1 := by1 a in
  let ay2 := by2 a in
  let by1' := by1 b in
  let by2' := by2 b in
  let inter := Qmax 0 (Qmin ay2 by2' - Qmax ay1 by1') in
  let union := ((ay2 - ay1) + (by2' - by1') - inter)%Q in
  if Qltb 0 union then (inter / union)%Q else 0%Q.

(** [min(...)] and [max(...)] over a non-empty sequence [x, xs...]. *)
Definition py_min (x : Q) (xs : list Q) : Q := fold_left Qmin xs x.
Definition py_max (x : Q) (xs : list Q) : Q := fold_left Qmax xs x.

(* ================================================================== *)
(** * Regular expressions of Python's [re] *)
(* ================================================================== *)

(** The part of the pattern language that the source uses, with the
    backtracking semantics of [re]: alternatives are tried left to right,
    repetitions are greedy, and the first complete match wins.  A matcher
    returns every way to match in that order of preference. *)
Module Re.

(** One item of a character set [[...]]. *)
Inductive citem :=
| CChar (c : char)
| CDigit                       (* \d *)
| CSpace.                      (* \s *)

Inductive regex :=
| Eps
| Lit (c : char)
| Digit                        (* \d *)
| Space                        (* \s *)
| CSet (items : list citem)    (* [...] *)
| Cat (a b : regex)
| Alt (a b : regex)
| Star (a : regex)             (* a*, greedy *)
| Group (n : nat) (a : regex)  (* capturing group number n *)
| NotAfterDigit                (* (?<!\d) *)
| WordB                        (* \b *)
| Bol                          (* ^ *)
| Eol.                         (* $ *)

(** Derived forms, with the preference order of the originals. *)
Definition Opt (a : regex) : regex := Alt a Eps.            (* a? *)
Definition Plus (a : regex) : regex := Cat a (Star a).      (* a+ *)

Fixpoint Rep (n : nat) (a : regex) : regex :=               (* a{n} *)
  match n with
  | 0 => Eps
  | S n' => Cat a (Rep n' a)
  end.

Fixpoint UpTo (n : nat) (a : regex) : regex :=              (* a{0,n} *)
  match n with
  | 0 => Eps
  | S n' => Opt (Cat a (UpTo n' a))
  end.

Definition Range (lo hi : nat) (a : regex) : regex :=       (* a{lo,hi} *)
  Cat (Rep lo a) (UpTo (hi - lo) a).

Fixpoint Word (s : str) : regex :=                          (* literal text *)
  match s with
  | [] => Eps
  | [c] => Lit c
  | c :: s' => Cat (Lit c) (Word s')
  end.

Fixpoint Alts (l : list regex) : regex :=                   (* a|b|... *)
  match l with
  | [] => Eps
  | [a] => a
  | a :: l' => Alt a (Alts l')
  end.

(** A position in the subject: the text before it (reversed), the text
    after it, and the groups captured so far (latest first). *)
Record mstate := MState {
  before : str;
  after : str;
  caps : list (nat * str)
}.

Section Matcher.
Context {U : UnicodeData}.

(** The flag [re.IGNORECASE]. *)
Variable icase : bool.

(** A pattern character [l] against a subject character [c]. *)
Definition lit_match (l c : char) : bool :=
  if icase
  then mem_char (tolower c) (tolower l :: case_fixes (tolower l))
  else N.eqb c l.

Definition citem_match (i : citem) (c : char) : bool :=
  match i with
  | CChar l => lit_match l c
  | CDigit => isdecimal c
  | CSpace => isspace c
  end.

Definition is_word (c : char) : bool := isalnum c || N.eqb c 95.

Definition word_before (s : mstate) : bool :=
  match before s with
  | c :: _ => is_word c
  | [] => false
  end.

Definition word_after (s : mstate) : bool :=
  match after s with
  | c :: _ => is_word c
  | [] => false
  end.

(** Consume one character accepted by [p]. *)
Definition step1 (p : char -> bool) (s : mstate) : list mstate :=
  match after s with
  | c :: rest =>
      if p c then [MState (c :: before s) rest (caps s)] else []
  | [] => []
  end.

Definition guard (b : bool) (s : mstate) : list mstate :=
  if b then [s] else [].

Definition advanced (s s' : mstate) : bool :=
  Nat.ltb (length (after s')) (length (after s)).

(** Greedy repetition: another round of the body first, stopping last. A
    round that consumes nothing is not repeated. *)
Fixpoint star_loop (body : mstate -> list mstate) (fuel : nat) (s : mstate)
  : list mstate :=
  match fuel with
  | 0 => [s]
  | S f =>
      flat_map (star_loop body f) (filter (advanced s) (body s)) ++ [s]
  end.

(** The text consumed between two positions. *)
Definition consumed (s s' : mstate) : str :=
  firstn (length (after s) - length (after s')) (after s).

Definition set_group (n : nat) (s s' : mstate) : mstate :=
  MState (before s') (after s') ((n, consumed s s') :: caps s').

Fixpoint run (r : regex) (s : mstate) : list mstate :=
  match r with
  | Eps => [s]
  | Lit l => step1 (lit_match l) s
  | Digit => step1 isdecimal s
  | Space => step1 isspace s
  | CSet items => step1 (fun c => existsb (fun i => citem_match i c) items) s
  | Cat a b => flat_map (run b) (run a s)
  | Alt a b => run a s ++ run b s
  | Star a => star_loop (run a) (length (after s)) s
  | Group n a => map (set_group n s) (run a s)
  | NotAfterDigit =>
      guard (match before s with
             | c :: _ => negb (isdecimal c)
             | [] => true
             end) s
  | WordB => guard (xorb (word_before s) (word_after s)) s
  | Bol => guard (match before s with [] => true | _ => false end) s
  | Eol =>
      guard (match after s with
             | [] => true
             | [c] => N.eqb c 10
             | _ => false
             end) s
  end.

(** A match object: the span [m_start, m_end), [group(0)] and the
    numbered groups. *)
Record rmatch := RMatch {
  m_start : nat;
  m_end : nat;
  group0 : str;
  groups : list (nat * str)
}.

Definition mk_match (s s' : mstate) : rmatch :=
  RMatch (length (before s)) (length (before s')) (consumed s s') (caps s').

(** [m.group(n)] for [n >= 1]; [None] when the group took no part. *)
Fixpoint group (n : nat) (gs : list (nat * str)) : option str :=
  match gs with
  | [] => None
  | (k, v) :: gs' => if Nat.eqb k n then Some v else group n gs'
  end.

(** The truth value of a match result. *)
Definition found (m : option rmatch) : bool :=
  match m with
  | Some _ => true
  | None => false
  end.

(** The match that starts exactly at position [s], if any. *)
Definition match_here (r : regex) (s : mstate) : option rmatch :=
  match run r s with
  | s' :: _ => Some (mk_match s s')
  | [] => None
  end.

(** [pattern.search]: scan the start positions from left to right. *)
Fixpoint search_from (r : regex) (bef : str) (aft : str) : option rmatch :=
  match match_here r (MState bef aft []) with
  | Some m => Some m
  | None =>
      match aft with
      | [] => None
      | c :: aft' => search_from r (c :: bef) aft'
      end
  end.

Definition search (r : regex) (text : str) : option rmatch :=
  search_from r [] text.

(** [pattern.match]: only at the start of the text. *)
Definition match_ (r : regex) (text : str) : option rmatch :=
  match_here r (MState [] text []).

(** [pattern.fullmatch]: the first way to match that ends at the end of
    the text. *)
Definition fullmatch (r : regex) (text : str) : option rmatch :=
  let s := MState [] text [] in
  match filter (fun s' => match after s' with [] => true | _ => false end)
               (run r s) with
  | s' :: _ => Some (mk_match s s')
  | [] => None
  end.

(** [pattern.findall] for a pattern without groups: the texts of the
    successive matches; the scan resumes at the end of a match, one
    character further after an empty one. *)
Fixpoint findall_from (r : regex) (fuel : nat) (bef aft : str) : list str :=
  match fuel with
  | 0 => []
  | S f =>
      match search_from r bef aft with
      | None => []
      | Some m =>
          let skip := m_end m - length bef in
          let bef' := rev (firstn skip aft) ++ bef in
          let aft' := skipn skip aft in
          group0 m ::
          (if Nat.eqb (m_end m) (m_start m)
           then match aft' with
                | [] => []
                | c :: aft'' => findall_from r f (c :: bef') aft''
                end
           else findall_from r f bef' aft')
      end
  end.

Definition findall (r : regex) (text : str) : list str :=
  findall_from r (S (length text)) [] text.

End Matcher.
End Re.

Import Re.

(** Facts of the Unicode database that the general theorems rely on: the
    case tables agree with ASCII on the letters A, B, C and on the minus
    sign, and a decimal digit has a value from 0 to 9. *)
Record UnicodeLaws (U : UnicodeData) : Prop := {
  (** under [re.IGNORECASE] the pattern letters A, B, C match their two
      cases only, and both upper-case to the capital *)
  icase_abc : forall l c, In l (lit "ABC") ->
    lit_match true l c = true -> c = l \/ c = (l + 32)%N;
  upper_abc : forall l, In l (lit "ABC") ->
    upper l = [l] /\ upper (l + 32)%N = [l];
  (** the minus sign is no space and no digit, and no other pattern
      character matches it under [re.IGNORECASE] *)
  minus_plain : isspace (ch "-") = false /\ isdecimal (ch "-") = false;
  icase_minus : forall l, lit_match true l (ch "-") = true -> l = ch "-";
  decimal_range : forall c, isdecimal c = true ->
    (0 <= decimal_value c <= 9)%Z
}.

(* ================================================================== *)
(** * Patterns, lines 31-65 *)
(* ================================================================== *)

Definition euro : char := 8364%N.           (* U+20AC *)
Definition u_umlaut : char := 252%N.        (* U+00FC *)

Fixpoint Seq (l : list regex) : regex :=
  match l with
  | [] => Eps
  | [a] => a
  | a :: l' => Cat a (Seq l')
  end.

Definition W (s : String.string) : regex := Word (lit s).

Definition sep : regex := CSet [CChar (ch "."); CChar (ch ",")].

(** [(?:\d{1,3}(?:[.,]\d{3})*(?:[.,]\d{2})|\d+[.,]\d{2})] *)
Definition PRICE_CORE : regex :=
  Alt (Seq [Range 1 3 Digit; Star (Cat sep (Rep 3 Digit)); Cat sep (Rep 2 Digit)])
      (Seq [Plus Digit; sep; Rep 2 Digit]).

(** [(?:\u20ac|\bEUR\b)] *)
Definition CURRENCY : regex := Alt (Lit euro) (Seq [WordB; W "EUR"; WordB]).

Definition ABC : regex := CSet [CChar (ch "A"); CChar (ch "B"); CChar (ch "C")].

(** [PRICE_RE], flags [x] and [i]. *)
Definition PRICE_RE : regex :=
  Seq [NotAfterDigit; Star Space;
       Opt CURRENCY; Star Space;
       Group 1 PRICE_CORE;
       Star Space; Opt CURRENCY;
       Opt (Cat (Star Space) ABC)].

(** [PRICE_WITH_VAT_RE], flags [x] and [i]. *)
Definition PRICE_WITH_VAT_RE : regex :=
  Seq [NotAfterDigit; Star Space; Opt CURRENCY; Star Space;
       Group 1 PRICE_CORE; Star Space; Opt CURRENCY; Star Space;
       Group 2 ABC; WordB].

(** [BAD_NAME_KEYWORDS_RE], flag [i]. *)
Definition BAD_NAME_KEYWORDS_RE : regex :=
  Seq [WordB;
       Group 1 (Alts [
         W "summe"; W "zwischensumme"; W "gesamt"; W "total";
         Seq [W "zu"; Star Space; W "zahlen"];
         W "rundung"; W "rabatt"; W "pfand";
         Seq [W "ec"; Star (CSet [CChar (ch "-"); CSpace]); W "cash"];
         W "kundenbeleg"; W "kassenbon"; W "kassenbeleg"; W "uid";
         Seq [W "steuer"; Opt (Lit (ch "n"))];
         W "mwst"; W "ust";
         Seq [W "eur"; Eol]]);
       WordB].

Definition stueck : regex :=
  Word (lit "st" ++ [u_umlaut] ++ lit "ck").

(** [QTY_ONLY_RE], flag [i]. *)
Definition QTY_ONLY_RE : regex :=
  Seq [Bol; Star Space; Plus Digit; Star Space;
       Group 1 (Alts [W "stk"; stueck; W "x"]);
       WordB].

Definition units_long : regex :=
  Alts [W "kg"; W "g"; W "100g"; W "l"; W "ml"; W "stk"; stueck].

Definition units_short : regex :=
  Alts [W "kg"; W "g"; W "100g"; W "l"; W "ml"].

(** [UNIT_PRICE_RE], flags [x] and [i]. *)
Definition UNIT_PRICE_RE : regex :=
  Alts [Seq [Lit euro; Star Space; Lit (ch "/"); Star Space;
             Group 1 units_long];
        Seq [Group 2 (Alt (W "pro") (W "per")); Star Space;
             Group 3 units_long];
        Seq [Lit (ch "/"); Group 4 units_short]].

(** [IGNORE_NAME_TOKENS_RE]: the circled digits are U+2460 to U+2468. *)
Definition IGNORE_NAME_TOKENS_RE : regex :=
  Seq [Bol;
       Alts [Lit euro; W "EUR"; ABC;
             CSet (map CChar [9312; 9313; 9314; 9315; 9316;
                              9317; 9318; 9319; 9320]%N)];
       Eol].

(** [\d{1,3}\,\d{3}], line 93. *)
Definition THOUSANDS_RE : regex :=
  Seq [Range 1 3 Digit; Lit (ch ","); Rep 3 Digit].

(** [[-+]?\d*\.?\d+|\d+], line 97. *)
Definition NUMBER_RE : regex :=
  Alt (Seq [Opt (CSet [CChar (ch "-"); CChar (ch "+")]); Star Digit;
            Opt (Lit (ch ".")); Plus Digit])
      (Plus Digit).

(* ================================================================== *)
(** * Price parsing, lines 82-103 *)
(* ================================================================== *)

(** A Python float as far as the extraction sees it: a rational, or an
    infinity when the literal is beyond the binary64 range. *)
Inductive pyfloat :=
| Fin (q : Q)
| Inf (negative : bool).

(** Literals at or above [2^1024 - 2^970], halfway between the largest
    binary64 and [2^1024], round to infinity. *)
Definition float_overflow : Q := inject_Z (2 ^ 1024 - 2 ^ 970).

Section Price.
Context {U : UnicodeData}.

(** The value of a run of decimal digits; [None] on another character. *)
Fixpoint digits_value (acc : Z) (s : str) : option Z :=
  match s with
  | [] => Some acc
  | c :: s' =>
      if isdecimal c then digits_value (10 * acc + decimal_value c) s'
      else None
  end.

Fixpoint split_dot (s : str) : str * option str :=
  match s with
  | [] => ([], None)
  | c :: s' =>
      if N.eqb c (ch ".") then ([], Some s')
      else let (a, b) := split_dot s' in (c :: a, b)
  end.

(** [float(s)] on a plain decimal numeral: an optional sign, digits, an
    optional point and digits.  [None] is [ValueError].  The other
    literals of [float] (exponents, [inf], [nan], underscores, blanks
    around) cannot come out of [NUMBER_RE]. *)
Definition unsigned_value (s : str) : option Q :=
  let (ip, fp) := split_dot s in
  match fp with
  | None =>
      match ip with
      | [] => None
      | _ => option_map inject_Z (digits_value 0 ip)
      end
  | Some fp =>
      match ip, fp with
      | [], [] => None
      | _, _ =>
          match digits_value 0 ip, digits_value 0 fp with
          | Some i, Some f =>
              Some (inject_Z i + inject_Z f / inject_Z (10 ^ Z.of_nat (length fp)))%Q
          | _, _ => None
          end
      end
  end.

Definition round_float (negative : bool) (q : Q) : pyfloat :=
  if Qle_bool float_overflow q then Inf negative
  else Fin (Qred (if negative then - q else q)).

Definition py_float (s : str) : option pyfloat :=
  match s with
  | c :: s' =>
      if N.eqb c (ch "-") then option_map (round_float true) (unsigned_value s')
      else if N.eqb c (ch "+") then option_map (round_float false) (unsigned_value s')
      else option_map (round_float false) (unsigned_value s)
  | [] => None
  end.

Definition parse_price_value (raw : str) : option pyfloat * str :=
  let cur := lit "EUR" in
  let s := strip raw in
  let last_comma := rfind (ch ",") s in
  let last_dot := rfind (ch ".") s in
  let s :=
    if Z.ltb last_dot last_comma
    then replace_char (ch ",") [ch "."] (replace_char (ch ".") [] s)
    else if mem_char (ch ",") s && found (search false THOUSANDS_RE s)
         then replace_char (ch ",") [] s
         else replace_char (ch ",") [ch "."] s in
  let nums := findall false NUMBER_RE s in
  match nums with
  | [] => (None, cur)
  | n :: _ => (py_float n, cur)
  end.

End Price.

(* ================================================================== *)
(** * Tax-tag normalization, lines 194-271 *)
(* ================================================================== *)

(** [_VISUAL_MAP], by code point.  The key U+00DF is written twice in the
    source, with the same value. *)
Definition _VISUAL_MAP : list (char * str) :=
  [ (914%N, lit "B");     (* U+0392 Greek capital beta *)
    (1042%N, lit "B");    (* U+0412 Cyrillic capital ve *)
    (1040%N, lit "A");    (* U+0410 Cyrillic capital a *)
    (913%N, lit "A");     (* U+0391 Greek capital alpha *)
    (1057%N, lit "C");    (* U+0421 Cyrillic capital es *)
    (1017%N, lit "C");    (* U+03F9 Greek capital lunate sigma *)
    (3647%N, lit "B");    (* U+0E3F baht sign *)
    (579%N, lit "B");     (* U+0243 B with stroke *)
    (ch "8", lit "B");
    (ch "3", lit "B");
    (223%N, lit "B");     (* U+00DF sharp s *)
    (ch "0", lit "O");
    (ch "1", lit "I");
    (ch "l", lit "I");
    (945%N, lit "A");     (* U+03B1 Greek small alpha *)
    (1089%N, lit "C") ].  (* U+0441 Cyrillic small es *)

Fixpoint dict_get (c : char) (d : list (char * str)) : option str :=
  match d with
  | [] => None
  | (k, v) :: d' => if N.eqb c k then Some v else dict_get c d'
  end.

Definition abc : list str := [lit "A"; lit "B"; lit "C"].

(** Truth value of an optional string: [None] and [""] are false. *)
Definition truthy (o : option str) : bool :=
  match o with
  | Some (_ :: _) => true
  | _ => false
  end.

Section VatTag.
Context {U : UnicodeData}.

Definition _map_char_to_abc (c : char) : option str :=
  let up := upper c in
  if mem_str up abc then Some up
  else
    match dict_get c _VISUAL_MAP with
    | Some v => Some v
    | None =>
        match uname c with
        | Some name =>
            if substringb (lit "GREEK") name && substringb (lit "BETA") name
            then Some (lit "B")
            else if substringb (lit "CYRILLIC") name
            then
              if substringb (lit "VE") name
                 || substringb (lit "VE") (upper_str name)
              then Some (lit "B")
              else if substringb (lit "A") name then Some (lit "A")
              else None
            else None
        | None => None
        end
    end.

(** The characters kept by the [re.sub] of line 237: ASCII letters and
    digits, U+0370 to U+03FF and U+0400 to U+04FF. *)
Definition keep_alnum (c : char) : bool :=
  in_range (ch "0") (ch "9") c || in_range (ch "A") (ch "Z") c
  || in_range (ch "a") (ch "z") c
  || in_range 880%N 1023%N c || in_range 1024%N 1279%N c.

(** The first of [mapped] that is one of A, B, C (lines 248-252). *)
Fixpoint first_abc (mapped : list str) : option str :=
  match mapped with
  | [] => None
  | c :: rest => if mem_str c abc then Some c else first_abc rest
  end.

(** The characters that [_map_char_to_abc] maps to a non-empty string
    (lines 243-247). *)
Fixpoint mapped_chars (s : str) : list str :=
  match s with
  | [] => []
  | c :: s' =>
      let m := _map_char_to_abc c in
      if truthy m
      then match m with
           | Some v => v :: mapped_chars s'
           | None => mapped_chars s'
           end
      else mapped_chars s'
  end.

Definition _normalize_vat_token (txt : str) : option str :=
  match txt with
  | [] => None
  | _ =>
      let s := strip txt in
      match s with
      | [] => None
      | _ =>
          let s := nfkd s in
          let s := filter (fun c => negb (is_mark c)) s in
          let s_alnum := filter keep_alnum s in
          match s_alnum with
          | [] =>
              if existsb (fun c => negb (isdigit c)) s
              then Some (lit "B")
              else None
          | _ =>
              match first_abc (mapped_chars s_alnum) with
              | Some c => Some c
              | None =>
                  if Nat.eqb (length s_alnum) 1 && negb (str_isdigit s_alnum)
                  then Some (lit "B")
                  else
                    let letters := filter (fun c => negb (isdecimal c)) s_alnum in
                    match letters with
                    | [] => None
                    | l0 :: _ =>
                        let candidate := upper l0 in
                        if mem_str candidate abc then Some candidate
                        else if Nat.leb (length letters) 2 then Some (lit "B")
                        else None
                    end
              end
          end
      end
  end.

Definition _has_inline_vat_tag (text : str) : option str :=
  match search true PRICE_WITH_VAT_RE text with
  | Some m =>
      match group 2 (groups m) with
      | Some g => Some (upper_str g)
      | None => None
      end
  | None => _normalize_vat_token text
  end.

End VatTag.

(* ================================================================== *)
(** * Tokens and rows, lines 172-191 *)
(* ================================================================== *)

(** A token dict [{"text", "score", "box"}]; [tid] is the identity of the
    Python object. *)
Record token := Token {
  tid : nat;
  text : str;
  score : option Q;
  tbox : box
}.

Definition same_object (t u : token) : bool := Nat.eqb (tid t) (tid u).

Definition x1 (t : token) : Q := bx1 (tbox t).
Definition y1 (t : token) : Q := by1 (tbox t).
Definition x2 (t : token) : Q := bx2 (tbox t).
Definition y2 (t : token) : Q := by2 (tbox t).

(** Python's stable sort by a key, given the strict order of the keys:
    an element goes before the first one that is not smaller than it, and
    an input is sorted from its end so that equal keys keep their order. *)
Section Sort.
Variable A : Type.
Variable lt : A -> A -> bool.

Fixpoint insert_sorted (x : A) (l : list A) : list A :=
  match l with
  | [] => [x]
  | y :: l' => if lt y x then y :: insert_sorted x l' else x :: l
  end.

Fixpoint sorted (l : list A) : list A :=
  match l with
  | [] => []
  | x :: l' => insert_sorted x (sorted l')
  end.

End Sort.

(** The key [(box[1], box[0])], compared as a tuple. *)
Definition key_yx_lt (a b : token) : bool :=
  Qltb (y1 a) (y1 b) || (Qeq_bool (y1 a) (y1 b) && Qltb (x1 a) (x1 b)).

(** The key [box[0]]. *)
Definition key_x_lt (a b : token) : bool := Qltb (x1 a) (x1 b).

(** The box around a row (lines 178-182); [None] is the [ValueError] of
    [min] over an empty row. *)
Definition row_bbox (row : list token) : option box :=
  match row with
  | [] => None
  | t :: ts =>
      Some (Box (py_min (x1 t) (map x1 ts)) (py_min (y1 t) (map y1 ts))
                (py_max (x2 t) (map x2 ts)) (py_max (y2 t) (map y2 ts)))
  end.

(** One round of the placement loop (lines 176-188): the token joins the
    first row it overlaps enough, or opens a new row. *)
Fixpoint place (overlap_thresh : Q) (tok : token) (rows : list (list token))
  : option (list (list token)) :=
  match rows with
  | [] => Some [[tok]]
  | row :: rest =>
      match row_bbox row with
      | None => None
      | Some b =>
          if Qle_bool overlap_thresh (vertical_overlap_ratio (tbox tok) b)
          then Some ((row ++ [tok]) :: rest)
          else option_map (cons row) (place overlap_thresh tok rest)
      end
  end.

Definition group_rows_with (overlap_thresh : Q) (tokens : list token)
  : option (list (list token)) :=
  let tokens := sorted key_yx_lt tokens in
  let rows :=
    fold_left (fun rows tok =>
                 match rows with
                 | Some rs => place overlap_thresh tok rs
                 | None => None
                 end) tokens (Some []) in
  option_map (map (sorted key_x_lt)) rows.

(** [group_rows] with its default threshold 0.45. *)
Definition group_rows (tokens : list token) : option (list (list token)) :=
  group_rows_with (45 # 100) tokens.

(* ================================================================== *)
(** * Deduplication, lines 532-548 of [process_image] *)
(* ================================================================== *)

Section Dedupe.
Context {U : UnicodeData}.

(** The inner loop: does an accepted token make [t] a duplicate? *)
Fixpoint dedupe_skip (t : token) (deduped : list token) : bool :=
  match deduped with
  | [] => false
  | u :: rest =>
      if Qltb (6 # 10) (vertical_overlap_ratio (tbox t) (tbox u))
      then
        if str_eqb (strip (text t)) (strip (text u)) then true
        else if substringb (strip (text t)) (text u)
                && Nat.ltb (length (text t)) (length (text u))
        then true
        else dedupe_skip t rest
      else dedupe_skip t rest
  end.

Definition dedupe (all_tokens : list token) : list token :=
  fold_left (fun deduped t =>
               if dedupe_skip t deduped then deduped else deduped ++ [t])
            all_tokens [].

End Dedupe.

(* ================================================================== *)
(** * Nearby tax tag, lines 273-313 *)
(* ================================================================== *)

Section Items.
Context {U : UnicodeData}.

Definition center_x (t : token) : Q := ((x1 t + x2 t) / 2)%Q.

(** The key of line 283: distance of a token's centre from the price's. *)
Definition proximity_lt (price_tok a b : token) : bool :=
  Qltb (Qabs (center_x a - center_x price_tok))
       (Qabs (center_x b - center_x price_tok)).

(** The common shape of the three searches: the first token whose text
    normalizes to a tag and that passes the geometric test. *)
Fixpoint first_tag (accept : token -> bool) (l : list token) : option str :=
  match l with
  | [] => None
  | t :: l' =>
      let vat := _normalize_vat_token (text t) in
      if truthy vat && accept t then vat else first_tag accept l'
  end.

(** Same row (lines 282-289). *)
Definition same_row_accept (price_tok t : token) : bool :=
  Qle_bool (x1 t) (x2 price_tok + 40)
  && Qle_bool (15 # 100) (vertical_overlap_ratio (tbox price_tok) (tbox t)).

Definition same_row_neighbors (price_tok : token) (row : list token)
  : list token :=
  sorted (proximity_lt price_tok)
         (filter (fun t => negb (same_object t price_tok)) row).

Definition same_row_vat (price_tok : token) (row : list token) : option str :=
  first_tag (same_row_accept price_tok) (same_row_neighbors price_tok row).

Definition price_height (price_tok : token) : Q :=
  Qmax 1 (y2 price_tok - y1 price_tok).

(** Rows below (lines 291-300). *)
Definition below_accept (price_tok t : token) : bool :=
  let cx := center_x t in
  Qle_bool (x1 price_tok - 40) cx && Qle_bool cx (x2 price_tok + 40)
  && Qle_bool 0 (y1 t - y2 price_tok)
  && Qle_bool (y1 t - y2 price_tok)
              (Qmax 8 ((15 # 10) * price_height price_tok)).

Fixpoint below_rows_vat (price_tok : token) (rows : list (list token))
  (ridx : nat) (ds : list nat) : option str :=
  match ds with
  | [] => None
  | d :: ds' =>
      match nth_error rows (ridx + d) with
      | None => None
      | Some r =>
          match first_tag (below_accept price_tok) r with
          | Some vat => Some vat
          | None => below_rows_vat price_tok rows ridx ds'
          end
      end
  end.

(** Rows above (lines 302-312). *)
Definition above_accept (price_tok : token) (u : nat) (t : token) : bool :=
  let cx := center_x t in
  Qle_bool (x1 price_tok - 50) cx && Qle_bool cx (x2 price_tok + 50)
  && Qle_bool 0 (y1 price_tok - y2 t)
  && Qle_bool (y1 price_tok - y2 t)
              (Qmax 12 ((18 # 10) * price_height price_tok
                        * inject_Z (Z.of_nat u))).

Fixpoint above_rows_vat (price_tok : token) (rows : list (list token))
  (ridx : nat) (us : list nat) : option str :=
  match us with
  | [] => None
  | u :: us' =>
      if Nat.ltb ridx u then None
      else
        match first_tag (above_accept price_tok u) (nth (ridx - u) rows []) with
        | Some vat => Some vat
        | None => above_rows_vat price_tok rows ridx us'
        end
  end.

(** [_nearby_vat_tag_for_price_rows] with its default search depths, 3
    rows above and 1 below.  [rows[ridx]] is read with an empty default:
    the caller enumerates [rows], so the index is valid. *)
Definition _nearby_vat_tag_for_price_rows (price_tok : token)
  (rows : list (list token)) (ridx : nat) : option str :=
  let row := nth ridx rows [] in
  match same_row_vat price_tok row with
  | Some vat => Some vat
  | None =>
      match below_rows_vat price_tok rows ridx (seq 1 1) with
      | Some vat => Some vat
      | None => above_rows_vat price_tok rows ridx (seq 1 3)
      end
  end.

(* ================================================================== *)
(** * Names, lines 316-370 *)
(* ================================================================== *)

Definition _is_unit_price_context (row : list token) : bool :=
  let txt := join (lit " ") (map text row) in
  found (search true UNIT_PRICE_RE txt).

Definition _is_bad_name (name : str) : bool :=
  let n := strip name in
  match n with
  | [] => true
  | _ =>
      if mem_str (upper_str n) [lit "EUR"; [euro]] then true
      else if found (search true BAD_NAME_KEYWORDS_RE n) then true
      else false
  end.

Fixpoint name_parts (tokens : list token) : list str :=
  match tokens with
  | [] => []
  | t :: rest =>
      let txt := strip (text t) in
      match txt with
      | [] => name_parts rest
      | _ =>
          if found (fullmatch false IGNORE_NAME_TOKENS_RE txt)
          then name_parts rest
          else txt :: name_parts rest
      end
  end.

Definition _build_name_from_left_tokens (tokens : list token) : str :=
  strip (join (lit " ") (name_parts tokens)).

Definition is_price_text (t : token) : bool :=
  found (search true PRICE_RE (text t)).

Definition is_unit_text (t : token) : bool :=
  found (search true UNIT_PRICE_RE (text t)).

(** The rows above, nearest first (lines 351-361). *)
Fixpoint name_from_above (px_center : Q) (rows : list (list token))
  (ridx : nat) (offsets : list nat) : list token :=
  match offsets with
  | [] => []
  | i :: offsets' =>
      if Nat.ltb ridx i then []
      else
        let prev := nth (ridx - i) rows [] in
        let cand :=
          filter (fun t => negb (is_price_text t) && negb (is_unit_text t))
                 prev in
        let cand :=
          filter (fun t => Qltb (center_x t) (px_center + 35)) cand in
        match cand with
        | [] => name_from_above px_center rows ridx offsets'
        | _ => cand
        end
  end.

Definition _find_name_tokens_for_price (pt : token)
  (rows : list (list token)) (ridx : nat) : list token :=
  let row := nth ridx rows [] in
  let left_same_row :=
    filter (fun t => negb (same_object t pt)
                     && Qle_bool (x2 t) (x1 pt - 2)
                     && negb (is_price_text t)
                     && negb (is_unit_text t)) row in
  match left_same_row with
  | _ :: _ => left_same_row
  | [] =>
      let px_center := center_x pt in
      match name_from_above px_center rows ridx (seq 1 3) with
      | (_ :: _) as cand => cand
      | [] =>
          if Nat.leb 1 ridx
          then
            filter (fun t =>
                      negb (is_price_text t)
                      && Qle_bool (5 # 100)
                           (vertical_overlap_ratio (tbox t) (tbox pt)))
                   (nth (ridx - 1) rows [])
          else []
      end
  end.

(* ================================================================== *)
(** * Item building, lines 373-420 *)
(* ================================================================== *)

Record price := Price {
  raw : str;
  value : pyfloat;
  currency : str;
  vatTag : str
}.

Record item := Item {
  rowIndex : nat;
  name : str;
  nameBox : box;
  price_of : price;
  priceBox : box;
  confidence : option Q
}.

(** Lines 380-382: the inline tag, and the nearby search when there is
    none. *)
Definition resolve_vat (pt : token) (rows : list (list token)) (ridx : nat)
  : option str :=
  let vat := _has_inline_vat_tag (text pt) in
  if truthy vat then vat
  else _nearby_vat_tag_for_price_rows pt rows ridx.

(** The body of the loop over price tokens (lines 379-419): [None] is a
    [continue], [Some it] the item appended. *)
Definition candidate_item (rows : list (list token)) (ridx : nat)
  (row_has_unit_ctx : bool) (pt : token) : option item :=
  let raw_text := text pt in
  let vat := resolve_vat pt rows ridx in
  if negb (truthy vat) then None
  else if row_has_unit_ctx || found (search true UNIT_PRICE_RE raw_text)
  then None
  else
    let name_tokens := _find_name_tokens_for_price pt rows ridx in
    match name_tokens with
    | [] => None
    | nt :: nts =>
        let name := _build_name_from_left_tokens name_tokens in
        if _is_bad_name name then None
        else if found (match_ true QTY_ONLY_RE name)
                && Nat.leb (count_words false name) 3
        then None
        else
          match search true PRICE_RE raw_text with
          | None => None
          | Some m =>
              let raw_price := group0 m in
              let (value, currency) := parse_price_value raw_price in
              match value, vat with
              | Some v, Some tag =>
                  Some (Item ridx name
                          (Box (py_min (x1 nt) (map x1 nts))
                               (py_min (y1 nt) (map y1 nts))
                               (py_max (x2 nt) (map x2 nts))
                               (py_max (y2 nt) (map y2 nts)))
                          (Price raw_price v (lit "EUR") tag)
                          (tbox pt)
                          (score pt))
              | _, _ => None
              end
          end
    end.

(** The loop over the price tokens of one row (lines 377-419). *)
Definition row_items (rows : list (list token)) (ridx : nat)
  (row : list token) (items : list item) : list item :=
  let row_has_unit_ctx := _is_unit_price_context row in
  let price_tokens := filter is_price_text row in
  fold_left (fun items pt =>
               match candidate_item rows ridx row_has_unit_ctx pt with
               | Some it => items ++ [it]
               | None => items
               end) price_tokens items.

(** The loop over [enumerate(rows)]. *)
Fixpoint rows_loop (rows : list (list token)) (ridx : nat)
  (todo : list (list token)) (items : list item) : list item :=
  match todo with
  | [] => items
  | row :: todo' =>
      rows_loop rows (S ridx) todo' (row_items rows ridx row items)
  end.

Definition build_items_from_rows (rows : list (list token)) : list item :=
  rows_loop rows 0 rows [].

(** Row grouping followed by item assembly, lines 550-551. *)
Definition pipeline (tokens : list token) : option (list item) :=
  option_map build_items_from_rows (group_rows tokens).

End Items.

(* ================================================================== *)
(** * A Unicode table for the test vectors *)
(* ================================================================== *)

(** [py_unicode] follows the tables of CPython 3.11 on U+0000 to U+00FF,
    on the combining marks U+0300 to U+036F, on the Greek and Cyrillic
    alphabets (U+0391 to U+03A9, U+03B1 to U+03C9, U+0410 to U+044F) and
    on U+0130, U+0131, U+017F, U+20AC, U+212A and U+2460 to U+2468, which
    cover every character of the vectors below; names are given for the
    ASCII letters and digits and for the two alphabets, the only
    characters whose names the source reads.  Other characters are
    caseless symbols without name or decomposition. *)
Module PyUnicode.
Local Open Scope N_scope.

Definition py_isspace (c : char) : bool :=
  in_range 9 13 c || in_range 28 32 c || N.eqb c 133 || N.eqb c 160
  || N.eqb c 5760 || in_range 8192 8202 c || N.eqb c 8232 || N.eqb c 8233
  || N.eqb c 8239 || N.eqb c 8287 || N.eqb c 12288.

Definition py_isdecimal (c : char) : bool := in_range 48 57 c.

Definition py_decimal_value (c : char) : Z := (Z.of_N c - 48)%Z.

(** Superscript one, two, three and the circled digits are digits but not
    decimals. *)
Definition py_isdigit (c : char) : bool :=
  py_isdecimal c || N.eqb c 178 || N.eqb c 179 || N.eqb c 185
  || in_range 9312 9320 c.

Definition latin1_letter (c : char) : bool :=
  N.eqb c 170 || N.eqb c 181 || N.eqb c 186
  || in_range 192 214 c || in_range 216 246 c || in_range 248 255 c.

Definition greek_letter (c : char) : bool :=
  in_range 913 929 c || in_range 931 937 c || in_range 945 969 c.

Definition cyrillic_letter (c : char) : bool := in_range 1040 1103 c.

Definition py_isalnum (c : char) : bool :=
  in_range 48 57 c || in_range 65 90 c || in_range 97 122 c
  || latin1_letter c || in_range 188 190 c || py_isdigit c
  || greek_letter c || cyrillic_letter c
  || N.eqb c 304 || N.eqb c 305 || N.eqb c 383 || N.eqb c 8490.

Definition py_tolower (c : char) : char :=
  if in_range 65 90 c then c + 32
  else if (in_range 192 214 c || in_range 216 222 c) then c + 32
  else if (in_range 913 929 c || in_range 931 937 c) then c + 32
  else if in_range 1040 1071 c then c + 32
  else if N.eqb c 304 then 105          (* U+0130 *)
  else if N.eqb c 8490 then 107         (* U+212A Kelvin sign *)
  else c.

(** The rows of [re._casefix._EXTRA_CASES] for the covered characters. *)
Definition extra_cases : list (char * list char) :=
  [ (105, [305]); (305, [105]);           (* i, dotless i *)
    (115, [383]); (383, [115]);           (* s, long s *)
    (181, [956]); (956, [181]);           (* micro sign, mu *)
    (837, [953; 8126]); (953, [837; 8126]);
    (946, [976]); (949, [1013]); (952, [977]); (954, [1008]);
    (960, [982]); (961, [1009]);
    (962, [963]); (963, [962]);           (* final sigma, sigma *)
    (966, [981]);
    (1074, [7296]); (1076, [7297]); (1086, [7298]); (1089, [7299]);
    (1090, [7300; 7301]); (1098, [7302]) ].

Fixpoint lookup_cases (c : char) (d : list (char * list char)) : list char :=
  match d with
  | [] => []
  | (k, v) :: d' => if N.eqb c k then v else lookup_cases c d'
  end.

Definition py_case_fixes (c : char) : list char := lookup_cases c extra_cases.

Definition py_upper (c : char) : str :=
  if in_range 97 122 c then [c - 32]
  else if N.eqb c 223 then [83; 83]     (* sharp s *)
  else if N.eqb c 181 then [924]
  else if N.eqb c 255 then [376]
  else if N.eqb c 305 then [73]         (* dotless i *)
  else if N.eqb c 383 then [83]         (* long s *)
  else if N.eqb c 837 then [921]        (* combining iota below *)
  else if (in_range 224 246 c || in_range 248 254 c) then [c - 32]
  else if N.eqb c 962 then [931]
  else if (in_range 945 961 c || in_range 963 969 c) then [c - 32]
  else if in_range 1072 1103 c then [c - 32]
  else [c].

(** Compatibility decompositions: a base letter and a combining mark for
    the accented letters. *)
Definition accents (base : char) (first : char) (marks : list char)
  : list (char * str) :=
  map (fun p => (first + N.of_nat (fst p), [base; snd p]))
      (combine (List.seq 0%nat (length marks)) marks).

Definition decompositions : list (char * str) :=
  [ (1049, [1048; 774]); (1081, [1080; 774]);
    (304, [73; 775]); (383, [115]); (8490, [75]);
    (832, [768]); (833, [769]); (835, [787]); (836, [776; 769]);
    (9312, [49]); (9313, [50]); (9314, [51]); (9315, [52]); (9316, [53]);
    (9317, [54]); (9318, [55]); (9319, [56]); (9320, [57]);
    (160, [32]); (168, [32; 776]); (170, [97]); (175, [32; 772]);
    (178, [50]); (179, [51]); (180, [32; 769]); (181, [956]);
    (184, [32; 807]); (185, [49]); (186, [111]);
    (188, [49; 8260; 52]); (189, [49; 8260; 50]); (190, [51; 8260; 52]);
    (199, [67; 807]); (209, [78; 771]); (221, [89; 769]);
    (231, [99; 807]); (241, [110; 771]); (253, [121; 769]);
    (255, [121; 776]) ]%N
  ++ accents 65 192 [768; 769; 770; 771; 776; 778]%N
  ++ accents 69 200 [768; 769; 770; 776]%N
  ++ accents 73 204 [768; 769; 770; 776]%N
  ++ accents 79 210 [768; 769; 770; 771; 776]%N
  ++ accents 85 217 [768; 769; 770; 776]%N
  ++ accents 97 224 [768; 769; 770; 771; 776; 778]%N
  ++ accents 101 232 [768; 769; 770; 776]%N
  ++ accents 105 236 [768; 769; 770; 776]%N
  ++ accents 111 242 [768; 769; 770; 771; 776]%N
  ++ accents 117 249 [768; 769; 770; 776]%N.

(** NFKD character by character.  The canonical reordering of NFKD only
    moves combining marks, which the source removes in its next step. *)
Definition py_nfkd (s : str) : str :=
  flat_map (fun c => match dict_get c decompositions with
                     | Some d => d
                     | None => [c]
                     end) s.

Definition py_is_mark (c : char) : bool := in_range 768 879 c.

Definition digit_names : list String.string :=
  ["ZERO"; "ONE"; "TWO"; "THREE"; "FOUR"; "FIVE"; "SIX"; "SEVEN"; "EIGHT";
   "NINE"]%string.

Definition greek_names : list String.string :=
  ["ALPHA"; "BETA"; "GAMMA"; "DELTA"; "EPSILON"; "ZETA"; "ETA"; "THETA";
   "IOTA"; "KAPPA"; "LAMDA"; "MU"; "NU"; "XI"; "OMICRON"; "PI"; "RHO";
   "FINAL SIGMA"; "SIGMA"; "TAU"; "UPSILON"; "PHI"; "CHI"; "PSI";
   "OMEGA"]%string.

Definition cyrillic_names : list String.string :=
  ["A"; "BE"; "VE"; "GHE"; "DE"; "IE"; "ZHE"; "ZE"; "I"; "SHORT I"; "KA";
   "EL"; "EM"; "EN"; "O"; "PE"; "ER"; "ES"; "TE"; "U"; "EF"; "HA"; "TSE";
   "CHE"; "SHA"; "SHCHA"; "HARD SIGN"; "YERU"; "SOFT SIGN"; "E"; "YU";
   "YA"]%string.

Definition named (prefix : String.string) (names : list String.string)
  (i : N) : option str :=
  option_map (fun n => lit prefix ++ lit n) (nth_error names (N.to_nat i)).

Definition py_uname (c : char) : option str :=
  if in_range 48 57 c then named "DIGIT " digit_names (c - 48)
  else if in_range 65 90 c then Some (lit "LATIN CAPITAL LETTER " ++ [c])
  else if in_range 97 122 c then Some (lit "LATIN SMALL LETTER " ++ [(c - 32)%N])
  else if (in_range 913 929 c || in_range 931 937 c)
  then named "GREEK CAPITAL LETTER " greek_names (c - 913)
  else if in_range 945 969 c
  then named "GREEK SMALL LETTER " greek_names (c - 945)
  else if in_range 1040 1071 c
  then named "CYRILLIC CAPITAL LETTER " cyrillic_names (c - 1040)
  else if in_range 1072 1103 c
  then named "CYRILLIC SMALL LETTER " cyrillic_names (c - 1072)
  else None.

End PyUnicode.

#[export] Instance py_unicode : UnicodeData := {
  isspace := PyUnicode.py_isspace;
  isdecimal := PyUnicode.py_isdecimal;
  decimal_value := PyUnicode.py_decimal_value;
  isdigit := PyUnicode.py_isdigit;
  isalnum := PyUnicode.py_isalnum;
  tolower := PyUnicode.py_tolower;
  case_fixes := PyUnicode.py_case_fixes;
  upper := PyUnicode.py_upper;
  nfkd := PyUnicode.py_nfkd;
  is_mark := PyUnicode.py_is_mark;
  uname := PyUnicode.py_uname
}.

(* ================================================================== *)
(** * Polygons, lines 68-71 *)
(* ================================================================== *)

(** [[p[k] for p in poly]]; [None] is the [IndexError] of a point with
    too few coordinates. *)
Fixpoint column (k : nat) (poly : list (list Q)) : option (list Q) :=
  match poly with
  | [] => Some []
  | p :: rest =>
      match nth_error p k, column k rest with
      | Some c, Some cs => Some (c :: cs)
      | _, _ => None
      end
  end.

(** [poly_to_bbox] on a polygon of the annotated type
    [List[List[float]]]; [None] is an exception: the [IndexError] of a
    short point, or the [ValueError] of [min] over no point at all. *)
Definition poly_to_bbox (poly : list (list Q)) : option box :=
  match column 0 poly with
  | None => None
  | Some xs =>
      match column 1 poly with
      | None => None
      | Some ys =>
          match xs, ys with
          | x :: xs', y :: ys' =>
              Some (Box (py_min x xs') (py_min y ys')
                        (py_max x xs') (py_max y ys'))
          | _, _ => None
          end
      end
  end.

(* ================================================================== *)
(** * OCR results, lines 106-169 *)
(* ================================================================== *)

(** A Python value as far as token extraction looks into it.  A number
    is a finite float, or an int that a float holds exactly; a dict has
    strings as keys, each once, in insertion order; an array is a
    [numpy.ndarray], given by what its [tolist()] returns. *)
#[warnings="-register-all"] Inductive pyval :=
| PNone
| PNum (q : Q)
| PStr (s : str)
| PList (l : list pyval)
| PTuple (l : list pyval)
| PDict (d : list (str * pyval))
| PArray (tolist : pyval).

(** What a call does: it returns, it raises, or it is outside of what
    this development describes (the comparison of values that are not
    numbers, the parsing of a string by [float], indexing into an array);
    nothing is stated about a call of the third kind. *)
Inductive outcome (A : Type) :=
| Returns (a : A)
| Raises
| Outside.

Arguments Raises {A}.
Arguments Outside {A}.

Definition bind (A B : Type) (o : outcome A) (f : A -> outcome B)
  : outcome B :=
  match o with
  | Returns a => f a
  | Raises => Raises
  | Outside => Outside
  end.

Notation "x <- o ;; k" := (bind o (fun x => k))
  (at level 61, o at next level, right associativity).

(** [float(v)] of lines 134 and 163. *)
Definition to_float (v : pyval) : outcome Q :=
  match v with
  | PNum q => Returns q
  | PStr _ | PArray _ => Outside
  | PNone | PList _ | PTuple _ | PDict _ => Raises
  end.

(** [p[0]] and [p[1]] of a point [p], as numbers: a sequence of less
    than two entries has no [p[1]], [None], a number and a dict with
    string keys have no [p[0]]. *)
Definition point_of (p : pyval) : outcome (list Q) :=
  match p with
  | PList (PNum x :: PNum y :: _) | PTuple (PNum x :: PNum y :: _) =>
      Returns [x; y]
  | PList (_ :: _ :: _) | PTuple (_ :: _ :: _) => Outside
  | PList _ | PTuple _ => Raises
  | PNone | PNum _ | PDict _ => Raises
  | PStr _ | PArray _ => Outside
  end.

(** The points of a polygon; a point outside of the description puts the
    whole polygon there, whatever the other points are. *)
Fixpoint points_of (poly : list pyval) : outcome (list (list Q)) :=
  match poly with
  | [] => Returns []
  | p :: rest =>
      match point_of p, points_of rest with
      | Outside, _ | _, Outside => Outside
      | Raises, _ | _, Raises => Raises
      | Returns c, Returns cs => Returns (c :: cs)
      end
  end.

(** [poly_to_bbox(poly)] on a list or tuple of values. *)
Definition bbox_of_points (poly : list pyval) : outcome box :=
  pts <- points_of poly ;;
  match poly_to_bbox pts with
  | Some b => Returns b
  | None => Raises
  end.

(** [poly_to_bbox(poly)] on any value (line 165): [None] and numbers are
    not iterable, the characters of a string have no [p[1]] and the empty
    string no minimum. *)
Definition bbox_of_value (poly : pyval) : outcome box :=
  match poly with
  | PList l | PTuple l => bbox_of_points l
  | PNone | PNum _ | PStr _ => Raises
  | PDict _ | PArray _ => Outside
  end.

(** Lines 136-137 and 158-159. *)
Definition tolist_if_array (poly : pyval) : pyval :=
  match poly with
  | PArray v => v
  | _ => poly
  end.

(** A token as extraction builds it: the text is whatever the OCR result
    holds at that place. *)
Record raw_token := RawToken {
  rtext : pyval;
  rscore : option Q;
  rbox : box
}.

(** [d[k]] when [k in d]. *)
Fixpoint dict_lookup (k : str) (d : list (str * pyval)) : option pyval :=
  match d with
  | [] => None
  | (k', v) :: rest => if str_eqb k k' then Some v else dict_lookup k rest
  end.

(** Lines 114-116 and 119-121: the first key that holds a list. *)
Fixpoint first_list (keys : list str) (d : list (str * pyval))
  : option (list pyval) :=
  match keys with
  | [] => None
  | k :: keys' =>
      match dict_lookup k d with
      | Some (PList l) => Some l
      | _ => first_list keys' d
      end
  end.

(** Lines 117-121: the values of [d] that are dicts, in order. *)
Fixpoint first_nested (keys : list str) (values : list pyval)
  : option (list pyval) :=
  match values with
  | [] => None
  | PDict v :: rest =>
      match first_list keys v with
      | Some l => Some l
      | None => first_nested keys rest
      end
  | _ :: rest => first_nested keys rest
  end.

Definition find_first (d : list (str * pyval)) (keys : list str)
  : option (list pyval) :=
  match first_list keys d with
  | Some l => Some l
  | None => first_nested keys (map snd d)
  end.

(** Lines 132-141.  An entry is [(texts[i], polys[i])] with [scores[i]]
    when there are scores. *)
Fixpoint resjson_loop (entries : list (pyval * pyval * option pyval))
  : outcome (list raw_token) :=
  match entries with
  | [] => Returns []
  | (t, poly, sv) :: rest =>
      s <- match sv with
           | Some v => (q <- to_float v ;; Returns (Some q))
           | None => Returns None
           end ;;
      match tolist_if_array poly with
      | PList pts =>
          if Nat.ltb (length pts) 4 then resjson_loop rest
          else
            b <- bbox_of_points pts ;;
            out <- resjson_loop rest ;;
            Returns (RawToken t s b :: out)
      | _ => resjson_loop rest
      end
  end.

(** The indices [range(n)] of line 130 with what is read at each: [n] is
    the shortest of the lengths, the one of [scores] counting only when
    [scores] is a non-empty list.  (The bound [10**9] is beyond the length
    of a list.) *)
Definition resjson_entries (texts polys : list pyval)
  (scores : option (list pyval)) : list (pyval * pyval * option pyval) :=
  match scores with
  | Some ((_ :: _) as sc) =>
      map (fun e => (fst e, Some (snd e))) (combine (combine texts polys) sc)
  | _ => map (fun e => (e, None)) (combine texts polys)
  end.

Definition extract_tokens_from_resjson (d : list (str * pyval))
  : outcome (list raw_token) :=
  let texts := find_first d [lit "rec_texts"; lit "texts"] in
  let scores := find_first d [lit "rec_scores"; lit "scores"] in
  let polys := find_first d [lit "rec_polys"; lit "polys"; lit "dt_polys"] in
  match texts, polys with
  | Some ((_ :: _) as texts), Some ((_ :: _) as polys) =>
      resjson_loop (resjson_entries texts polys scores)
  | _, _ => Returns []
  end.

(** [isinstance(v, (list, tuple))], with the entries. *)
Definition sequence (v : pyval) : option (list pyval) :=
  match v with
  | PList l | PTuple l => Some l
  | _ => None
  end.

(** Lines 154-168. *)
Fixpoint generic_loop (entries : list pyval) : outcome (list raw_token) :=
  match entries with
  | [] => Returns []
  | entry :: rest =>
      match sequence entry with
      | Some [poly; txt_score] =>
          let poly := tolist_if_array poly in
          match sequence txt_score with
          | Some (txt :: more) =>
              s <- match more with
                   | v :: _ => (q <- to_float v ;; Returns (Some q))
                   | [] => Returns None
                   end ;;
              match bbox_of_value poly with
              | Returns b =>
                  out <- generic_loop rest ;;
                  Returns (RawToken txt s b :: out)
              | Raises => generic_loop rest
              | Outside => Outside
              end
          | _ => generic_loop rest
          end
      | _ => generic_loop rest
      end
  end.

Definition extract_tokens_from_generic (result : pyval)
  : outcome (list raw_token) :=
  match result with
  | PDict d => extract_tokens_from_resjson d
  | PList entries | PTuple entries => generic_loop entries
  | _ => Returns []
  end.

(* ================================================================== *)
(** * One image, lines 504-563 of [process_image] *)
(* ================================================================== *)

(** Lines 516-524: the tokens of all results, in order. *)
Fixpoint collect_tokens (results : list pyval) : outcome (list raw_token) :=
  match results with
  | [] => Returns []
  | res :: rest =>
      toks <- match res with
              | PDict d => extract_tokens_from_resjson d
              | _ => extract_tokens_from_generic res
              end ;;
      more <- collect_tokens rest ;;
      Returns (toks ++ more)
  end.

(** The text of a token as the later stages read it, [t["text"] or ""]:
    a string, or nothing.  A text of another type is outside of the
    description. *)
Definition token_text (v : pyval) : outcome str :=
  match v with
  | PStr s => Returns s
  | PNone => Returns []
  | _ => Outside
  end.

(** The token objects, each with an identity of its own: its place in
    [all_tokens]. *)
Fixpoint tokens_from (i : nat) (raws : list raw_token) : outcome (list token) :=
  match raws with
  | [] => Returns []
  | r :: rest =>
      s <- token_text (rtext r) ;;
      more <- tokens_from (S i) rest ;;
      Returns (Token i s (rscore r) (rbox r) :: more)
  end.

(** Lines 527-529. *)
Definition confidence_filter (min_confidence : Q) (all_tokens : list token)
  : list token :=
  if Qltb 0 min_confidence
  then filter (fun t => match score t with
                        | None => true
                        | Some s => Qle_bool min_confidence s
                        end) all_tokens
  else all_tokens.

(** The JSON document that is written: [meta] is absent from the one of
    line 510. *)
Record payload := Payload {
  items_of : list item;
  itemCount : nat;
  full_text : str;
  meta : option (str * nat)      (* source, tokenCount *)
}.

Section Process.
Context {U : UnicodeData}.

(** Lines 520 and 524: the texts that are truthy. *)
Definition all_texts (tokens : list token) : list str :=
  filter (fun s => negb (Nat.eqb (length s) 0)) (map text tokens).

(** [process_image] from the OCR results, what [ocr.predict] returned, to
    the payload that is written to the JSON file; [source] is
    [str(image_path)].  Logging, the files and the debug image are left
    out. *)
Definition process_image (source : str) (min_confidence : Q)
  (results : list pyval) : outcome payload :=
  match results with
  | [] => Returns (Payload [] 0 [] None)
  | _ =>
      raws <- collect_tokens results ;;
      all_tokens <- tokens_from 0 raws ;;
      let texts := all_texts all_tokens in
      let all_tokens := confidence_filter min_confidence all_tokens in
      let all_tokens := dedupe all_tokens in
      match group_rows all_tokens with
      | None => Raises
      | Some rows =>
          let items := build_items_from_rows rows in
          Returns (Payload items (length items)
                          (join [10%N] texts)
                          (Some (source, length all_tokens)))
      end
  end.

End Process.

(* ================================================================== *)
(** * Vocabulary of the specification *)
(* ================================================================== *)

(** The glossary's vertical overlap ratio: the intersection of the two
    y-intervals over their union. *)
Definition y_inter (a b : box) : Q :=
  Qmax 0 (Qmin (by2 a) (by2 b) - Qmax (by1 a) (by1 b)).

Definition y_union (a b : box) : Q :=
  ((by2 a - by1 a) + (by2 b - by1 b) - y_inter a b)%Q.

(** Left-to-right order of a row. *)
Definition x1_le (a b : token) : Prop := (x1 a <= x1 b)%Q.

(** The union of two boxes, coordinate by coordinate, and of a non-empty
    sequence of boxes. *)
Definition box_union (a b : box) : box :=
  Box (Qmin (bx1 a) (bx1 b)) (Qmin (by1 a) (by1 b))
      (Qmax (bx2 a) (bx2 b)) (Qmax (by2 a) (by2 b)).

Definition union_box (b : box) (bs : list box) : box :=
  fold_left box_union bs b.

Definition pyfloat_nonneg (v : pyfloat) : Prop :=
  match v with
  | Fin q => (0 <= q)%Q
  | Inf negative => negative = false
  end.

Definition option_list (A : Type) (o : option A) : list A :=
  match o with
  | Some x => [x]
  | None => []
  end.

Section Vocabulary.
Context {U : UnicodeData}.

(** [s'] is reached from [s] by consuming [w]. *)
Definition extends (s s' : mstate) (w : str) : Prop :=
  after s = w ++ after s' /\ before s' = rev w ++ before s.

(** A character that some character-consuming part of [r] accepts. *)
Fixpoint accepts (icase : bool) (r : regex) (c : char) : bool :=
  match r with
  | Lit l => lit_match icase l c
  | Digit => isdecimal c
  | Space => isspace c
  | CSet items => existsb (fun i => citem_match icase i c) items
  | Cat a b | Alt a b => accepts icase a c || accepts icase b c
  | Star a | Group _ a => accepts icase a c
  | _ => false
  end.

(** No literal of [r] is the character [x]. *)
Fixpoint no_literal (x : char) (r : regex) : bool :=
  match r with
  | Lit l => negb (N.eqb l x)
  | CSet items =>
      forallb (fun i => match i with
                        | CChar l => negb (N.eqb l x)
                        | _ => true
                        end) items
  | Cat a b | Alt a b => no_literal x a && no_literal x b
  | Star a | Group _ a => no_literal x a
  | _ => true
  end.

(** The text after the last dot of [s]; all of [s] when it has no dot. *)
Fixpoint after_last_dot (s : str) : str :=
  match s with
  | [] => []
  | c :: s' =>
      if mem_char (ch ".") s' then after_last_dot s'
      else if N.eqb c (ch ".") then s' else s
  end.

(** "A comma occurs after the last dot." *)
Definition comma_after_last_dot (s : str) : bool :=
  mem_char (ch ",") (after_last_dot s).

(** "A comma is followed by a 3-digit group consistent with thousands
    grouping": a digit, a comma and three digits. *)
Definition thousands_here (s : str) : bool :=
  match s with
  | d :: c :: d1 :: d2 :: d3 :: _ =>
      isdecimal d && N.eqb c (ch ",")
      && isdecimal d1 && isdecimal d2 && isdecimal d3
  | _ => false
  end.

Fixpoint thousands_comma (s : str) : bool :=
  thousands_here s ||
  match s with
  | [] => false
  | _ :: s' => thousands_comma s'
  end.

(** The locale decision in the words of the specification. *)
Definition locale_rule (s : str) : str :=
  if comma_after_last_dot s
  then replace_char (ch ",") [ch "."] (replace_char (ch ".") [] s)
  else if thousands_comma s
  then replace_char (ch ",") [] s
  else replace_char (ch ",") [ch "."] s.

(** "Extract the first numeric substring and parse it." *)
Definition first_number (s : str) : option pyfloat :=
  match search false NUMBER_RE s with
  | Some m => py_float (group0 m)
  | None => None
  end.

(** The condition of the specification under which an accepted token [u]
    makes the new token [t] a duplicate: the vertical overlap exceeds 0.6
    and either the trimmed texts are equal, or the trimmed text of [t] is
    a substring of the trimmed text of [u] and that one is strictly
    longer. *)
Definition duplicate_of (t u : token) : Prop :=
  (6 # 10 < vertical_overlap_ratio (tbox t) (tbox u))%Q /\
  (strip (text t) = strip (text u) \/
   ((exists pre post, strip (text u) = pre ++ strip (text t) ++ post) /\
    length (strip (text t)) < length (strip (text u)))).

(** The condition of the source, lines 538 to 545, under which the
    accepted token [u] makes the loop skip the new token [t]: the trimmed
    text of [t] is looked for in the text of [u] as it is, and the
    lengths are those of the two texts as they are. *)
Definition skipped_for (t u : token) : Prop :=
  (6 # 10 < vertical_overlap_ratio (tbox t) (tbox u))%Q /\
  (strip (text t) = strip (text u) \/
   ((exists pre post, text u = pre ++ strip (text t) ++ post) /\
    length (text t) < length (text u))).

(** What the price candidates of one row contribute, each on its own. *)
Definition row_candidates (rows : list (list token)) (ridx : nat)
  (row : list token) : list item :=
  flat_map (fun pt =>
              option_list
                (candidate_item rows ridx (_is_unit_price_context row) pt))
           (filter is_price_text row).

End Vocabulary.

(* ================================================================== *)
(** * Inputs of the test vectors *)
(* ================================================================== *)

Definition tok (i : nat) (s : String.string) (b : box) : token :=
  Token i (lit s) None b.

Definition tokc (i : nat) (s : String.string) (c : Q) (b : box) : token :=
  Token i (lit s) (Some c) b.

(** The end-to-end vector of the specification. *)
Definition milch_tokens : list token :=
  [tokc 0 "Milch" (9 # 10) (Box 0 0 80 20);
   tokc 1 "2,49" (95 # 100) (Box 200 0 240 20);
   tokc 2 "A" (9 # 10) (Box 245 0 255 20)].

Definition milch_item : item :=
  Item 0 (lit "Milch") (Box 0 0 80 20)
       (Price (lit "2,49") (Fin (249 # 100)) (lit "EUR") (lit "A"))
       (Box 200 0 240 20) (Some (95 # 100)%Q).

(** The same row with the price 3,99. *)
Definition price_399_tokens : list token :=
  [tokc 0 "Milch" (9 # 10) (Box 0 0 80 20);
   tokc 1 "3,99" (95 # 100) (Box 200 0 240 20);
   tokc 2 "A" (9 # 10) (Box 245 0 255 20)].

(** A tag letter at the left end of a row, 240px from the right edge of
    the price. *)
Definition tag_left_price : token :=
  tokc 1 "2,49" (95 # 100) (Box 200 0 240 20).

Definition tag_left_row : list token :=
  [tokc 0 "B" (9 # 10) (Box 0 0 10 20); tag_left_price].

(** A price of 309 digits. *)
Definition huge_price_row : list token :=
  [tokc 0 "Milch" (9 # 10) (Box 0 0 80 20);
   Token 1 (repeat (ch "9") 309 ++ lit ",00") (Some (95 # 100)%Q)
         (Box 200 0 240 20);
   tokc 2 "A" (9 # 10) (Box 245 0 255 20)].

(** A price alone in the first row, with no tag in reach, above the row
    of the end-to-end vector. *)
Definition lone_price : token := tokc 0 "1,00" (9 # 10) (Box 200 0 240 20).

Definition two_price_rows : list (list token) :=
  [[lone_price];
   [tokc 1 "Milch" (9 # 10) (Box 0 200 80 220);
    tokc 2 "2,49" (95 # 100) (Box 200 200 240 220);
    tokc 3 "A" (9 # 10) (Box 245 200 255 220)]].



(* ================================================================== *)
(** * Vocabulary of the further properties *)
(* ================================================================== *)

(** The point [(x, y)] lies in the box. *)
Definition inside (b : box) (x y : Q) : Prop :=
  (bx1 b <= x <= bx2 b /\ by1 b <= y <= by2 b)%Q.

(** A box with its corners in order. *)
Definition ordered (b : box) : Prop :=
  (bx1 b <= bx2 b /\ by1 b <= by2 b)%Q.

(** The y-intervals of two boxes do not meet, or in one point only. *)
Definition y_apart (a b : box) : Prop :=
  (by2 a <= by1 b \/ by2 b <= by1 a)%Q.

(** [l] is [m] with some elements left out, in the same order. *)
Inductive subseq (A : Type) : list A -> list A -> Prop :=
| subseq_nil : subseq [] []
| subseq_keep x l m : subseq l m -> subseq (x :: l) (x :: m)
| subseq_drop x l m : subseq l m -> subseq l (x :: m).

(** A polygon of at least four points, each a list or tuple that starts
    with two numbers: what an OCR result holds per text line. *)
Definition numeric_point (p : pyval) : bool :=
  match p with
  | PList (PNum _ :: PNum _ :: _) | PTuple (PNum _ :: PNum _ :: _) => true
  | _ => false
  end.

Definition quad (poly : pyval) : bool :=
  match tolist_if_array poly with
  | PList pts => Nat.leb 4 (length pts) && forallb numeric_point pts
  | _ => false
  end.

(** Example inputs. *)
Definition square (a b c d : Q) : pyval :=
  PList [PList [PNum a; PNum b]; PList [PNum c; PNum b];
         PList [PNum c; PNum d]; PList [PNum a; PNum d]].

Definition milch_result : list (str * pyval) :=
  [ (lit "rec_texts",
     PList [PStr (lit "Milch"); PStr (lit "2,49"); PStr (lit "A")]);
    (lit "rec_scores",
     PList [PNum (9 # 10); PNum (95 # 100); PNum (9 # 10)]);
    (lit "rec_polys",
     PList [square 0 0 80 20; PArray (square 200 0 240 20);
            square 245 0 255 20]) ].

(** The tokens and the payload of [milch_result]. *)
Definition milch_raws : list raw_token :=
  [RawToken (PStr (lit "Milch")) (Some (9 # 10)%Q) (Box 0 0 80 20);
   RawToken (PStr (lit "2,49")) (Some (95 # 100)%Q) (Box 200 0 240 20);
   RawToken (PStr (lit "A")) (Some (9 # 10)%Q) (Box 245 0 255 20)].

Definition milch_payload : payload :=
  Payload [milch_item] 1
          (lit "Milch" ++ [10%N] ++ lit "2,49" ++ [10%N] ++ lit "A")
          (Some (lit "a.jpg", 3)).

(** Pairs with polygons that have no box: [None], a string, a polygon
    with a point of one coordinate; and one with a box. *)
Definition bad_polygon_entries : list pyval :=
  [PList [PNone; PList [PStr (lit "x"); PNum (1 # 2)]];
   PList [PStr (lit "poly"); PList [PStr (lit "y"); PNum (1 # 2)]];
   PList [PList [PList [PNum 1]]; PTuple [PStr (lit "z"); PNum (1 # 2)]];
   PTuple [square 0 0 80 20; PTuple [PStr (lit "Milch"); PNum (9 # 10)]]].

Definition name_above_rows : list (list token) :=
  [ [tok 0 "Milch" (Box 0 0 80 20)];
    [tok 1 "1,99 A" (Box 0 30 80 50)] ].

(** What the loop of [extract_tokens_from_resjson] makes of an entry
    [(texts[i], polys[i], scores[i])]: the token [t] has the text as it
    is, the box of the polygon, and the score as a float. *)
Definition entry_token (e : pyval * pyval * option pyval) (t : raw_token)
  : Prop :=
  rtext t = fst (fst e)
  /\ (exists pts, tolist_if_array (snd (fst e)) = PList pts
                  /\ bbox_of_points pts = Returns (rbox t))
  /\ match snd e with
     | Some v => exists q, v = PNum q /\ rscore t = Some q
     | None => rscore t = None
     end.

(** The polygon of the entry is a list of at least four points. *)
Definition four_points (e : pyval * pyval * option pyval) : bool :=
  match tolist_if_array (snd (fst e)) with
  | PList pts => Nat.leb 4 (length pts)
  | _ => false
  end.

Definition is_number (v : pyval) : bool :=
  match v with
  | PNum _ => true
  | _ => false
  end.

(** The keys that [extract_tokens_from_resjson] looks for. *)
Definition text_keys : list str := [lit "rec_texts"; lit "texts"].
Definition score_keys : list str := [lit "rec_scores"; lit "scores"].
Definition poly_keys : list str :=
  [lit "rec_polys"; lit "polys"; lit "dt_polys"].

(** [d] holds a list under the key [k], at the top or in a value that is
    a dict. *)
Definition holds_list (d : list (str * pyval)) (k : str) (l : list pyval)
  : Prop :=
  dict_lookup k d = Some (PList l)
  \/ exists k' v, In (k', PDict v) d /\ dict_lookup k v = Some (PList l).

(** An entry with a polygon of at least four numeric points and, when
    there are scores, a number as score. *)
Definition clean_entry (e : pyval * pyval * option pyval) : Prop :=
  quad (snd (fst e)) = true
  /\ match snd e with
     | Some v => is_number v = true
     | None => True
     end.

(** A text that the later stages can read: a string, or [None]. *)
Definition plain_text (v : pyval) : bool :=
  match v with
  | PStr _ | PNone => true
  | _ => false
  end.

Section VocabularyMore.
Context {U : UnicodeData}.

(** A text that begins and ends with a character that is no space. *)
Definition trimmed (s : str) : Prop :=
  exists a rest init b,
    s = a :: rest /\ isspace a = false /\ s = init ++ [b] /\ isspace b = false.

(** The keywords of [BAD_NAME_KEYWORDS_RE] that are plain words. *)
Definition plain_keywords : list str :=
  map lit ["summe"; "zwischensumme"; "gesamt"; "total"; "rundung"; "rabatt";
           "pfand"; "kundenbeleg"; "kassenbon"; "kassenbeleg"; "uid";
           "steuer"; "mwst"; "ust"]%string.

(** No word character stands at the end of [pre], or at the start of
    [post]. *)
Definition ends_word_free (pre : str) : Prop :=
  match rev pre with
  | c :: _ => is_word c = false
  | [] => True
  end.

Definition starts_word_free (post : str) : Prop :=
  match post with
  | c :: _ => is_word c = false
  | [] => True
  end.

(** What makes a token of the row of the price [pt] a name token, and
    what makes a token of a row above one. *)
Definition left_of_price (pt t : token) : Prop :=
  tid t <> tid pt /\ (x2 t <= x1 pt - 2)%Q
  /\ is_price_text t = false /\ is_unit_text t = false.

Definition above_price (pt t : token) : Prop :=
  is_price_text t = false /\ is_unit_text t = false
  /\ (center_x t < center_x pt + 35)%Q.

End VocabularyMore.

(** A token of the line with the y-interval [ya, yb]. *)
Definition in_band (ya yb : Q) (t : token) : Prop :=
  (y1 t == ya /\ y2 t == yb)%Q.

(* ================================================================== *)
(** * Properties: geometry *)
(* ================================================================== *)

Section Overlap.
Open Scope Q_scope.

Lemma Qltb_true x y : Qltb x y = true <-> x < y.
Proof.
  unfold Qltb. rewrite negb_true_iff. split.
  - intros H. apply Qnot_le_lt. intros Hle.
    apply Qle_bool_iff in Hle. congruence.
  - intros H. destruct (Qle_bool y x) eqn:E; [|reflexivity].
    apply Qle_bool_iff in E. exfalso. apply (Qlt_not_le _ _ H E).
Qed.

Lemma Qltb_false x y : Qltb x y = false <-> y <= x.
Proof. unfold Qltb. rewrite negb_false_iff. apply Qle_bool_iff. Qed.

Lemma vertical_overlap_ratio_unfold a b :
  vertical_overlap_ratio a b =
  if Qltb 0 (y_union a b) then y_inter a b / y_union a b else 0.
Proof. reflexivity. Qed.

Lemma y_inter_sym a b : y_inter a b == y_inter b a.
Proof.
  unfold y_inter.
  rewrite (Q.min_comm (by2 a) (by2 b)), (Q.max_comm (by1 a) (by1 b)).
  reflexivity.
Qed.

Lemma y_union_sym a b : y_union a b == y_union b a.
Proof. unfold y_union. rewrite (y_inter_sym a b). ring. Qed.

Lemma y_inter_bounds a b :
  by1 a <= by2 a -> by1 b <= by2 b ->
  0 <= y_inter a b /\
  y_inter a b <= by2 a - by1 a /\ y_inter a b <= by2 b - by1 b.
Proof.
  intros Ha Hb. unfold y_inter.
  destruct (Q.max_spec 0 (Qmin (by2 a) (by2 b) - Qmax (by1 a) (by1 b)))
    as [[H1 H2]|[H1 H2]];
  destruct (Q.min_spec (by2 a) (by2 b)) as [[H3 H4]|[H3 H4]];
  destruct (Q.max_spec (by1 a) (by1 b)) as [[H5 H6]|[H5 H6]];
  rewrite H2; rewrite ?H4, ?H6 in *; repeat split; lra.
Qed.

(** C10. For boxes with [y1 <= y2], [vertical_overlap_ratio] lies in
    [0, 1], is symmetric, and is 0 where the union of the y-intervals is
    empty instead of dividing by it.  The function is total by
    construction; numbers are exact rationals. *)
Theorem vertical_overlap_ratio_bounded_symmetric a b :
  by1 a <= by2 a -> by1 b <= by2 b ->
  0 <= vertical_overlap_ratio a b <= 1 /\
  vertical_overlap_ratio a b == vertical_overlap_ratio b a /\
  (y_union a b <= 0 -> vertical_overlap_ratio a b = 0).
Proof.
  intros Ha Hb.
  destruct (y_inter_bounds a b Ha Hb) as (I0 & Ia & Ib).
  rewrite !vertical_overlap_ratio_unfold.
  split; [|split].
  - destruct (Qltb 0 (y_union a b)) eqn:E.
    + apply Qltb_true in E. split.
      * apply Qle_shift_div_l; [exact E|]. lra.
      * apply Qle_shift_div_r; [exact E|]. unfold y_union in *. lra.
    + split; lra.
  - destruct (Qltb 0 (y_union a b)) eqn:E;
      destruct (Qltb 0 (y_union b a)) eqn:E'.
    + rewrite (y_inter_sym a b), (y_union_sym a b). reflexivity.
    + apply Qltb_true in E. apply Qltb_false in E'.
      rewrite y_union_sym in E. lra.
    + apply Qltb_true in E'. apply Qltb_false in E.
      rewrite y_union_sym in E. lra.
    + reflexivity.
  - intros H. destruct (Qltb 0 (y_union a b)) eqn:E; [|reflexivity].
    apply Qltb_true in E. lra.
Qed.

(** Two boxes that overlap by half of their union, and a degenerate pair
    with no height. *)
Lemma vertical_overlap_ratio_bounded_symmetric_witness :
  (0 <= vertical_overlap_ratio (Box 0 0 10 20) (Box 5 10 15 25) <= 1 /\
   vertical_overlap_ratio (Box 0 0 10 20) (Box 5 10 15 25)
   == vertical_overlap_ratio (Box 5 10 15 25) (Box 0 0 10 20) /\
   (y_union (Box 0 0 10 20) (Box 5 10 15 25) <= 0 ->
    vertical_overlap_ratio (Box 0 0 10 20) (Box 5 10 15 25) = 0)).
Proof.
  apply (vertical_overlap_ratio_bounded_symmetric
           (Box 0 0 10 20) (Box 5 10 15 25)).
  - vm_compute. discriminate.
  - vm_compute. discriminate.
Defined.

End Overlap.

(* ================================================================== *)
(** * Properties: sorting and row grouping *)
(* ================================================================== *)

Section SortFacts.
Variable A : Type.
Variable lt : A -> A -> bool.

Lemma insert_sorted_perm x l : Permutation (insert_sorted lt x l) (x :: l).
Proof.
  induction l as [|y l IH]; simpl.
  - reflexivity.
  - destruct (lt y x).
    + rewrite IH. apply perm_swap.
    + reflexivity.
Qed.

Lemma sorted_perm l : Permutation (sorted lt l) l.
Proof.
  induction l as [|x l IH]; simpl.
  - constructor.
  - rewrite insert_sorted_perm. now constructor.
Qed.

Lemma sorted_nonempty l : l <> [] -> sorted lt l <> [].
Proof.
  intros H E. apply H.
  apply Permutation_nil. rewrite <- E. apply sorted_perm.
Qed.

Lemma sorted_in x l : In x (sorted lt l) <-> In x l.
Proof.
  split; apply Permutation_in; [|symmetry]; apply sorted_perm.
Qed.

(** Ascending order, for a key order [le] of which [lt] is the strict
    part. *)
Variable le : A -> A -> Prop.
Hypothesis le_trans : forall a b c, le a b -> le b c -> le a c.
Hypothesis lt_le : forall a b, lt a b = true -> le a b.
Hypothesis nlt_le : forall a b, lt a b = false -> le b a.

Lemma insert_sorted_ascending x l :
  StronglySorted le l -> StronglySorted le (insert_sorted lt x l).
Proof.
  induction 1 as [|y l Hs IH Hy]; simpl.
  - repeat constructor.
  - destruct (lt y x) eqn:E.
    + constructor; [exact IH|].
      rewrite Forall_forall in *. intros z Hz.
      apply (Permutation_in _ (insert_sorted_perm x l)) in Hz.
      destruct Hz as [<-|Hz]; auto.
    + constructor; [constructor; assumption|].
      constructor; [auto|].
      rewrite Forall_forall in *. intros z Hz. eapply le_trans; eauto.
Qed.

Lemma sorted_ascending l : StronglySorted le (sorted lt l).
Proof.
  induction l; simpl; [constructor | now apply insert_sorted_ascending].
Qed.

End SortFacts.

Section Rows.
Open Scope Q_scope.

Lemma sorted_by_x1 l : StronglySorted x1_le (sorted key_x_lt l).
Proof.
  apply sorted_ascending; unfold x1_le, key_x_lt.
  - intros a b c. apply Qle_trans.
  - intros a b H. apply Qltb_true in H. now apply Qlt_le_weak.
  - intros a b H. now apply Qltb_false in H.
Qed.

(** Over non-empty rows a placement never fails; it adds the token and
    keeps the rows non-empty. *)
Lemma place_total thresh tok rows :
  Forall (fun r => r <> []) rows ->
  exists rows', place thresh tok rows = Some rows' /\
    Permutation (concat rows') (tok :: concat rows) /\
    Forall (fun r => r <> []) rows'.
Proof.
  induction 1 as [|row rest Hrow Hrest IH]; simpl.
  - eexists; split; [reflexivity|]. split; [reflexivity|].
    repeat constructor. discriminate.
  - destruct row as [|t ts]; [contradiction|]. cbn [row_bbox].
    match goal with |- context [if ?c then _ else _] => destruct c end.
    + eexists; split; [reflexivity|]. split.
      * cbn [concat]. rewrite <- !app_assoc.
        change (tok :: (t :: ts) ++ concat rest)
          with ([tok] ++ (t :: ts) ++ concat rest).
        rewrite (app_assoc [tok]).
        rewrite (Permutation_app_comm [tok] (t :: ts)).
        now rewrite <- app_assoc.
      * constructor; [|assumption]. destruct ts; discriminate.
    + destruct IH as (rows' & -> & Hp & Hne). cbn [option_map].
      eexists; split; [reflexivity|]. split.
      * cbn [concat]. rewrite Hp.
        change (tok :: (t :: ts) ++ concat rest)
          with ([tok] ++ (t :: ts) ++ concat rest).
        change ((t :: ts) ++ tok :: concat rest)
          with ((t :: ts) ++ [tok] ++ concat rest).
        rewrite !app_assoc. apply Permutation_app_tail.
        apply Permutation_app_comm.
      * constructor; [discriminate|assumption].
Qed.

Lemma place_loop_total thresh toks : forall rows,
  Forall (fun r => r <> []) rows ->
  exists rows',
    fold_left (fun rows tok =>
                 match rows with
                 | Some rs => place thresh tok rs
                 | None => None
                 end) toks (Some rows) = Some rows' /\
    Permutation (concat rows') (toks ++ concat rows) /\
    Forall (fun r => r <> []) rows'.
Proof.
  induction toks as [|tok toks IH]; intros rows Hne; cbn [fold_left].
  - eexists; split; [reflexivity|]. split; [reflexivity|assumption].
  - destruct (place_total thresh tok Hne) as (r1 & -> & Hp1 & Hne1).
    destruct (IH r1 Hne1) as (r2 & -> & Hp2 & Hne2).
    eexists; split; [reflexivity|]. split; [|assumption].
    rewrite Hp2, Hp1. cbn. symmetry. apply Permutation_middle.
Qed.

Lemma concat_map_perm (f : list token -> list token) rows :
  (forall r, Permutation (f r) r) ->
  Permutation (concat (map f rows)) (concat rows).
Proof.
  intros Hf. induction rows; cbn; [constructor|].
  now apply Permutation_app.
Qed.

(** C9. For every token list [group_rows] returns rows (the [min] over a
    row never meets an empty row); the rows are a partition of the input:
    put end to end they are a permutation of it, and none is empty; and
    each row is in ascending order of [x1]. *)
Theorem group_rows_partition_sorted tokens :
  exists rows,
    group_rows tokens = Some rows /\
    Permutation (concat rows) tokens /\
    Forall (fun r => r <> []) rows /\
    Forall (StronglySorted x1_le) rows.
Proof.
  unfold group_rows, group_rows_with.
  destruct (place_loop_total (45 # 100) (sorted key_yx_lt tokens) (rows := []))
    as (rows & -> & Hp & Hne); [constructor|].
  cbn [option_map]. eexists; split; [reflexivity|]. split; [|split].
  - rewrite concat_map_perm by apply sorted_perm.
    rewrite Hp. cbn [concat]. rewrite app_nil_r. apply sorted_perm.
  - rewrite Forall_map. eapply Forall_impl; [|exact Hne].
    intros r. apply sorted_nonempty.
  - rewrite Forall_map. rewrite Forall_forall. intros r _.
    apply sorted_by_x1.
Qed.

End Rows.

(* ================================================================== *)
(** * Properties: strings *)
(* ================================================================== *)

Lemma mem_char_In c l : mem_char c l = true <-> In c l.
Proof.
  unfold mem_char. rewrite existsb_exists. split.
  - intros (x & Hx & E). apply N.eqb_eq in E. now subst.
  - intros H. exists c. split; [assumption|apply N.eqb_refl].
Qed.

Lemma mem_char_false c l : mem_char c l = false <-> ~ In c l.
Proof.
  rewrite <- mem_char_In. destruct (mem_char c l); split; congruence.
Qed.

Lemma str_eqb_eq a : forall b, str_eqb a b = true <-> a = b.
Proof.
  induction a as [|x a IH]; intros [|y b]; cbn; try (split; congruence).
  rewrite andb_true_iff, N.eqb_eq, IH. split.
  - intros [-> ->]. reflexivity.
  - intros [= -> ->]. auto.
Qed.

Lemma mem_str_In s l : mem_str s l = true <-> In s l.
Proof.
  unfold mem_str. rewrite existsb_exists. split.
  - intros (x & Hx & E). apply str_eqb_eq in E. now subst.
  - intros H. exists s. split; [assumption|now apply str_eqb_eq].
Qed.

Lemma prefixb_iff a : forall b,
  prefixb a b = true <-> exists post, b = a ++ post.
Proof.
  induction a as [|x a IH]; intros b; cbn.
  - split; [intros _; now exists b|reflexivity].
  - destruct b as [|y b].
    + split; [discriminate|]. intros (post & H). discriminate.
    + rewrite andb_true_iff, N.eqb_eq, IH. split.
      * intros [-> (post & ->)]. now exists post.
      * intros (post & [= -> ->]). eauto.
Qed.

Lemma substringb_iff a b :
  substringb a b = true <-> exists pre post, b = pre ++ a ++ post.
Proof.
  induction b as [|y b IH]; cbn [substringb];
    rewrite orb_true_iff, prefixb_iff.
  - split.
    + intros [(post & H)|H]; [|discriminate]. now exists [], post.
    + intros (pre & post & H). left. destruct pre; [|discriminate].
      now exists post.
  - rewrite IH. split.
    + intros [(post & H)|(pre & post & ->)].
      * now exists [], post.
      * now exists (y :: pre), post.
    + intros (pre & post & H). destruct pre as [|z pre].
      * left. now exists post.
      * right. injection H as -> ->. eauto.
Qed.

Lemma replace_char_incl c d s x :
  In x (replace_char c d s) -> In x s \/ In x d.
Proof.
  unfold replace_char. intros H. apply in_flat_map in H.
  destruct H as (y & Hy & Hx). destruct (N.eqb y c); [now right|].
  destruct Hx as [<-|[]]. now left.
Qed.

Section Strip.
Context {U : UnicodeData}.

Lemma lstrip_incl s c : In c (lstrip s) -> In c s.
Proof.
  induction s as [|x s IH]; cbn [lstrip]; [auto|].
  destruct (isspace x); [|auto]. intros H. right. auto.
Qed.

Lemma strip_incl s c : In c (strip s) -> In c s.
Proof.
  unfold strip, rstrip. intros H. apply in_rev in H.
  apply lstrip_incl in H. apply in_rev in H. now apply lstrip_incl.
Qed.

Lemma lstrip_app_head pre a rest :
  isspace a = false -> lstrip (pre ++ a :: rest) = lstrip pre ++ a :: rest.
Proof.
  intros Ha. induction pre as [|p pre IH]; cbn [app lstrip].
  - now rewrite Ha.
  - destruct (isspace p); [exact IH|reflexivity].
Qed.

Lemma lstrip_split s : exists ws, s = ws ++ lstrip s.
Proof.
  induction s as [|c s [ws IH]]; cbn [lstrip].
  - now exists [].
  - destruct (isspace c).
    + exists (c :: ws). cbn. now rewrite <- IH.
    + now exists [].
Qed.

Lemma lstrip_head s a rest : lstrip s = a :: rest -> isspace a = false.
Proof.
  induction s as [|c s IH]; cbn [lstrip]; [discriminate|].
  destruct (isspace c) eqn:E; [exact IH|]. now intros [= <- _].
Qed.

Lemma rstrip_app_last init b post :
  isspace b = false ->
  rstrip ((init ++ [b]) ++ post) = (init ++ [b]) ++ rstrip post.
Proof.
  intros Hb. unfold rstrip.
  rewrite rev_app_distr, rev_app_distr. cbn [rev app].
  rewrite lstrip_app_head by exact Hb.
  rewrite rev_app_distr. cbn [rev]. rewrite rev_involutive.
  reflexivity.
Qed.

Lemma rstrip_split s : exists ws, s = rstrip s ++ ws.
Proof.
  unfold rstrip. destruct (lstrip_split (rev s)) as [ws H].
  exists (rev ws). rewrite <- rev_app_distr, <- H. now rewrite rev_involutive.
Qed.

Lemma rstrip_last s init b : rstrip s = init ++ [b] -> isspace b = false.
Proof.
  unfold rstrip. intros H.
  assert (H' : lstrip (rev s) = b :: rev init).
  { rewrite <- (rev_involutive (lstrip (rev s))), H, rev_app_distr.
    reflexivity. }
  eapply lstrip_head; eauto.
Qed.

(** A trimmed text is empty, or begins and ends with a character that is
    not a space. *)
Lemma strip_ends s :
  strip s = [] \/
  exists a rest init b,
    strip s = a :: rest /\ isspace a = false /\
    strip s = init ++ [b] /\ isspace b = false.
Proof.
  unfold strip. destruct (rstrip (lstrip s)) as [|a rest] eqn:E; [now left|].
  right. destruct (rstrip_split (lstrip s)) as [ws Hws]. rewrite E in Hws.
  assert (Ha : isspace a = false) by (eapply lstrip_head; eauto).
  destruct (@exists_last _ (a :: rest)) as (init & b & Hl); [discriminate|].
  exists a, rest, init, b. repeat split; auto.
  rewrite Hl in E. eapply rstrip_last; eauto.
Qed.

(** A trimmed text occurs in a text exactly when it occurs in that text
    trimmed. *)
Lemma substring_of_stripped t u :
  (exists pre post, u = pre ++ strip t ++ post) <->
  (exists pre post, strip u = pre ++ strip t ++ post).
Proof.
  split.
  - intros (pre & post & ->).
    destruct (strip_ends t) as [->|(a & rest & init & b & Ha & Hsa & Hb & Hsb)].
    + now exists [], (strip (pre ++ [] ++ post)).
    + exists (lstrip pre), (rstrip post). unfold strip at 1.
      rewrite Ha. cbn [app]. rewrite lstrip_app_head by exact Hsa.
      change (lstrip pre ++ a :: rest ++ post)
        with (lstrip pre ++ (a :: rest) ++ post).
      rewrite <- Ha, Hb.
      replace (lstrip pre ++ (init ++ [b]) ++ post)
        with (((lstrip pre ++ init) ++ [b]) ++ post)
        by (now rewrite <- !app_assoc).
      rewrite rstrip_app_last by exact Hsb.
      change (a :: rest ++ rstrip post) with ((a :: rest) ++ rstrip post).
      rewrite <- Ha, Hb. now rewrite <- !app_assoc.
  - intros (pre & post & H).
    destruct (lstrip_split u) as [ws1 H1].
    destruct (rstrip_split (lstrip u)) as [ws2 H2].
    fold (strip u) in H2. rewrite H in H2. rewrite H2 in H1.
    exists (ws1 ++ pre), (post ++ ws2). rewrite H1.
    now rewrite <- !app_assoc.
Qed.
End Strip.

(* ================================================================== *)
(** * Properties: deduplication *)
(* ================================================================== *)

Section DedupeFacts.
Context {U : UnicodeData}.
Open Scope Q_scope.

Lemma dedupe_skip_iff t deduped :
  dedupe_skip t deduped = true <-> exists u, In u deduped /\ skipped_for t u.
Proof.
  induction deduped as [|u rest IH]; cbn [dedupe_skip].
  - split; [discriminate|]. intros (u & [] & _).
  - assert (Hu : (Qltb (6 # 10) (vertical_overlap_ratio (tbox t) (tbox u))
                  && (str_eqb (strip (text t)) (strip (text u))
                      || substringb (strip (text t)) (text u)
                         && Nat.ltb (length (text t)) (length (text u))))
                 = true
                 <-> skipped_for t u).
    { unfold skipped_for.
      rewrite andb_true_iff, orb_true_iff, andb_true_iff, Qltb_true,
        str_eqb_eq, substringb_iff, Nat.ltb_lt.
      reflexivity. }
    destruct (Qltb (6 # 10) (vertical_overlap_ratio (tbox t) (tbox u))).
    + destruct (str_eqb (strip (text t)) (strip (text u))).
      * split; [intros _|reflexivity]. exists u. split; [now left|].
        now apply Hu.
      * cbn [orb andb] in Hu.
        destruct (substringb (strip (text t)) (text u)
                  && Nat.ltb (length (text t)) (length (text u))).
        -- split; [intros _|reflexivity]. exists u. split; [now left|].
           now apply Hu.
        -- rewrite IH. split.
           ++ intros (v & Hv & Hd). exists v. split; [now right|assumption].
           ++ intros (v & [<-|Hv] & Hd); [|eauto].
              apply Hu in Hd. discriminate.
    + rewrite IH. split.
      * intros (v & Hv & Hd). exists v. split; [now right|assumption].
      * intros (v & [<-|Hv] & Hd); [|eauto].
        apply Hu in Hd. discriminate.
Qed.

Lemma strip_length s : (length (strip s) <= length s)%nat.
Proof.
  destruct (lstrip_split s) as [ws1 H1].
  destruct (rstrip_split (lstrip s)) as [ws2 H2]. fold (strip s) in H2.
  apply (f_equal (@length char)) in H1, H2.
  rewrite length_app in H1, H2. lia.
Qed.


(** For a new token whose text has no blanks around it, the two
    conditions are the same. *)
Lemma duplicate_is_skipped t u :
  strip (text t) = text t -> duplicate_of t u -> skipped_for t u.
Proof.
  intros Ht [Hv [He|[Hsub Hlen]]]; split; auto.
  right. split; [now apply substring_of_stripped|].
  pose proof (strip_length (text u)) as Hu.
  rewrite Ht in Hlen. lia.
Qed.

Lemma dedupe_snoc l t :
  dedupe (l ++ [t]) =
  if dedupe_skip t (dedupe l) then dedupe l else dedupe l ++ [t].
Proof. unfold dedupe. rewrite fold_left_app. reflexivity. Qed.


End DedupeFacts.




(* ================================================================== *)
(** * Properties: the matcher *)
(* ================================================================== *)

Section MatcherFacts.
Context {U : UnicodeData}.
Variable icase : bool.

Lemma extends_refl s : extends s s [].
Proof. split; reflexivity. Qed.

Lemma extends_trans s1 s2 s3 w1 w2 :
  extends s1 s2 w1 -> extends s2 s3 w2 -> extends s1 s3 (w1 ++ w2).
Proof.
  intros [A1 B1] [A2 B2]. split.
  - rewrite A1, A2. now rewrite app_assoc.
  - rewrite B2, B1, rev_app_distr. now rewrite app_assoc.
Qed.

Lemma extends_length s s' w :
  extends s s' w -> length (after s) = length w + length (after s').
Proof. intros [A _]. rewrite A. apply length_app. Qed.

Lemma consumed_extends s s' w : extends s s' w -> consumed s s' = w.
Proof.
  intros H. unfold consumed. rewrite (extends_length H).
  destruct H as [-> _].
  replace (length w + length (after s') - length (after s'))
    with (length w) by lia.
  rewrite firstn_app, firstn_all.
  replace (length w - length w) with 0 by lia. cbn. apply app_nil_r.
Qed.

Lemma in_step1 p s s' :
  In s' (step1 p s) <->
  exists c rest, after s = c :: rest /\ p c = true /\
                 s' = MState (c :: before s) rest (caps s).
Proof.
  unfold step1. destruct (after s) as [|c rest].
  - split; [intros []|]. intros (c & rest & H & _). discriminate.
  - destruct (p c) eqn:E; cbn.
    + split.
      * intros [<-|[]]. eauto.
      * intros (c' & rest' & H & _ & ->). injection H as <- <-. now left.
    + split; [intros []|]. intros (c' & rest' & H & Hp & _).
      injection H as <- <-. congruence.
Qed.

Lemma step1_in p s c rest :
  after s = c :: rest -> p c = true ->
  In (MState (c :: before s) rest (caps s)) (step1 p s).
Proof. intros Ha Hp. apply in_step1. eauto. Qed.

Lemma in_guard (b : bool) s s' : In s' (guard b s) <-> b = true /\ s' = s.
Proof.
  unfold guard. destruct b; cbn.
  - split; [intros [<-|[]]; auto | intros [_ ->]; auto].
  - split; [intros [] | intros [H _]; discriminate].
Qed.

Lemma step1_sound p s s' :
  In s' (step1 p s) ->
  exists c, extends s s' [c] /\ p c = true /\ caps s' = caps s.
Proof.
  intros H. apply in_step1 in H. destruct H as (c & rest & Ha & Hp & ->).
  exists c. repeat split; auto.
Qed.

Lemma in_run_cat a b s s' :
  In s' (run icase (Cat a b) s) <->
  exists s1, In s1 (run icase a s) /\ In s' (run icase b s1).
Proof. cbn [run]. apply in_flat_map. Qed.

Lemma star_loop_sound (body : mstate -> list mstate) (P : char -> Prop) :
  (forall s s', In s' (body s) -> exists w, extends s s' w /\ Forall P w) ->
  forall fuel s s', In s' (star_loop body fuel s) ->
  exists w, extends s s' w /\ Forall P w.
Proof.
  intros Hbody. induction fuel as [|f IH]; intros s s' H; cbn in H.
  - destruct H as [<-|[]]. exists []. split; [apply extends_refl|constructor].
  - apply in_app_or in H. destruct H as [H|[<-|[]]].
    + apply in_flat_map in H. destruct H as (s1 & H1 & H2).
      apply filter_In in H1. destruct H1 as [H1 _].
      destruct (Hbody _ _ H1) as (w1 & E1 & F1).
      destruct (IH _ _ H2) as (w2 & E2 & F2).
      exists (w1 ++ w2). split; [eapply extends_trans; eauto|].
      apply Forall_app; auto.
    + exists []. split; [apply extends_refl|constructor].
Qed.

(** Every way to match [r] consumes a piece of the text after the start,
    made of characters that [r] accepts. *)
Lemma run_sound r : forall s s',
  In s' (run icase r s) ->
  exists w, extends s s' w /\ Forall (fun c => accepts icase r c = true) w.
Proof.
  induction r; intros s s' H; cbn [run] in H.
  - destruct H as [<-|[]]. exists []. split; [apply extends_refl|constructor].
  - apply step1_sound in H. destruct H as (x & E & Hp & _).
    exists [x]. split; auto.
  - apply step1_sound in H. destruct H as (x & E & Hp & _).
    exists [x]. split; auto.
  - apply step1_sound in H. destruct H as (x & E & Hp & _).
    exists [x]. split; auto.
  - apply step1_sound in H. destruct H as (x & E & Hp & _).
    exists [x]. split; auto.
  - apply in_flat_map in H. destruct H as (s1 & H1 & H2).
    destruct (IHr1 _ _ H1) as (w1 & E1 & F1).
    destruct (IHr2 _ _ H2) as (w2 & E2 & F2).
    exists (w1 ++ w2). split; [eapply extends_trans; eauto|].
    apply Forall_app; split.
    + eapply Forall_impl; [|exact F1]. cbn. intros a ->. reflexivity.
    + eapply Forall_impl; [|exact F2]. cbn. intros a ->. apply orb_true_r.
  - apply in_app_or in H. destruct H as [H|H].
    + destruct (IHr1 _ _ H) as (w1 & E1 & F1). exists w1. split; auto.
      eapply Forall_impl; [|exact F1]. cbn. intros a ->. reflexivity.
    + destruct (IHr2 _ _ H) as (w1 & E1 & F1). exists w1. split; auto.
      eapply Forall_impl; [|exact F1]. cbn. intros a ->. apply orb_true_r.
  - eapply star_loop_sound; [|exact H]. exact IHr.
  - apply in_map_iff in H. destruct H as (s1 & <- & H1).
    destruct (IHr _ _ H1) as (w & E & F). exists w. split; [|exact F].
    destruct E as [E1 E2]. split; assumption.
  - apply in_guard in H. destruct H as [_ ->].
    exists []. split; [apply extends_refl|constructor].
  - apply in_guard in H. destruct H as [_ ->].
    exists []. split; [apply extends_refl|constructor].
  - apply in_guard in H. destruct H as [_ ->].
    exists []. split; [apply extends_refl|constructor].
  - apply in_guard in H. destruct H as [_ ->].
    exists []. split; [apply extends_refl|constructor].
Qed.

Lemma match_here_some r s m :
  match_here icase r s = Some m ->
  exists s', In s' (run icase r s) /\ m = mk_match s s'.
Proof.
  unfold match_here. destruct (run icase r s) as [|s' l]; [discriminate|].
  intros [= <-]. exists s'. split; [now left|reflexivity].
Qed.

Lemma match_here_none r s :
  match_here icase r s = None <-> run icase r s = [].
Proof.
  unfold match_here. destruct (run icase r s); split; congruence.
Qed.

Lemma search_from_some r aft : forall bef m,
  search_from icase r bef aft = Some m ->
  exists pre rest s',
    aft = pre ++ rest /\
    In s' (run icase r (MState (rev pre ++ bef) rest [])) /\
    m = mk_match (MState (rev pre ++ bef) rest []) s'.
Proof.
  induction aft as [|c aft IH]; intros bef m H; cbn [search_from] in H.
  - destruct (match_here icase r (MState bef [] [])) eqn:E; [|discriminate].
    injection H as ->. apply match_here_some in E.
    destruct E as (s' & Hin & ->). exists [], [], s'. auto.
  - destruct (match_here icase r (MState bef (c :: aft) [])) eqn:E.
    + injection H as ->. apply match_here_some in E.
      destruct E as (s' & Hin & ->). exists [], (c :: aft), s'. auto.
    + apply IH in H. destruct H as (pre & rest & s' & -> & Hin & ->).
      exists (c :: pre), rest, s'. cbn [rev app]. rewrite <- !app_assoc.
      cbn. auto.
Qed.

Lemma search_from_found r aft : forall bef,
  found (search_from icase r bef aft) = true <->
  exists pre rest, aft = pre ++ rest /\
                   run icase r (MState (rev pre ++ bef) rest []) <> [].
Proof.
  induction aft as [|c aft IH]; intros bef; cbn [search_from].
  - destruct (match_here icase r (MState bef [] [])) eqn:E; cbn.
    + split; [intros _|reflexivity]. exists [], []. split; [reflexivity|].
      cbn. intros H. apply match_here_none in H. congruence.
    + apply match_here_none in E. split; [discriminate|].
      intros (pre & rest & H & Hr). symmetry in H. apply app_eq_nil in H.
      destruct H as [-> ->]. contradiction.
  - destruct (match_here icase r (MState bef (c :: aft) [])) eqn:E; cbn.
    + split; [intros _|reflexivity]. exists [], (c :: aft).
      split; [reflexivity|].
      cbn. intros H. apply match_here_none in H. congruence.
    + apply match_here_none in E. rewrite IH. split.
      * intros (pre & rest & -> & Hr). exists (c :: pre), rest.
        split; [reflexivity|]. cbn [rev]. now rewrite <- app_assoc.
      * intros (pre & rest & H & Hr). destruct pre as [|c' pre].
        -- cbn in H, Hr. subst rest. contradiction.
        -- cbn in H. injection H as <- ->. exists pre, rest.
           split; [reflexivity|].
           cbn [rev] in Hr. now rewrite <- app_assoc in Hr.
Qed.

(** What a successful search returns: [group(0)] is a part of the text,
    made of characters that the pattern accepts. *)
Lemma search_group0 r text m :
  search icase r text = Some m ->
  exists pre post,
    text = pre ++ group0 m ++ post /\
    Forall (fun c => accepts icase r c = true) (group0 m).
Proof.
  intros H. apply search_from_some in H.
  destruct H as (pre & rest & s' & -> & Hin & ->).
  apply run_sound in Hin. destruct Hin as (w & E & F).
  cbn [mk_match group0]. rewrite (consumed_extends E).
  exists pre, (after s'). split; [|exact F].
  destruct E as [E _]. cbn in E. now rewrite E.
Qed.

End MatcherFacts.

(** Take a match of a given pattern apart. *)
Ltac inv_run_step :=
  match goal with
  | H : In _ (flat_map _ _) |- _ =>
      apply in_flat_map in H; destruct H as (? & H & ?)
  | H : In _ (_ ++ _) |- _ => apply in_app_or in H; destruct H as [H|H]
  | H : In _ (step1 _ _) |- _ =>
      apply in_step1 in H; destruct H as (? & ? & ? & ? & ?)
  | H : In _ (guard _ _) |- _ => apply in_guard in H; destruct H as [? ?]
  | H : In _ (map _ _) |- _ =>
      apply in_map_iff in H; destruct H as (? & ? & H)
  | H : In _ [_] |- _ => destruct H as [H|[]]
  | H : In _ (run _ _ _) |- _ =>
      progress (unfold Opt, Plus in H; cbn [run Rep UpTo Seq Alts Word] in H)
  end.

Ltac tidy_states := repeat (progress (cbn [after before caps] in *; subst)).

Ltac inv_run := tidy_states; repeat (inv_run_step; tidy_states).

Ltac rewrite_tests :=
  repeat match goal with
  | H : _ = true |- _ => rewrite H
  | H : _ = false |- _ => rewrite H
  end.

(* ================================================================== *)
(** * Properties: price parsing *)
(* ================================================================== *)

Section Locale.
Context {U : UnicodeData}.

Lemma rfind_from_absent c s : forall i f, ~ In c s -> rfind_from c s i f = f.
Proof.
  induction s as [|x s IH]; intros i f H; cbn; [reflexivity|].
  destruct (N.eqb x c) eqn:E.
  - apply N.eqb_eq in E. subst. exfalso. apply H. now left.
  - apply IH. intros Hin. apply H. now right.
Qed.

Lemma rfind_from_last c pre post : forall i f,
  ~ In c post ->
  rfind_from c (pre ++ c :: post) i f = (i + Z.of_nat (length pre))%Z.
Proof.
  induction pre as [|x pre IH]; intros i f H; cbn [app rfind_from length].
  - rewrite N.eqb_refl. rewrite rfind_from_absent by assumption. cbn. lia.
  - rewrite IH by assumption. lia.
Qed.

Lemma last_split (c : char) s :
  In c s -> exists pre post, s = pre ++ c :: post /\ ~ In c post.
Proof.
  induction s as [|x s IH]; intros H; [destruct H|].
  destruct (in_dec N.eq_dec c s) as [Hin|Hnin].
  - destruct (IH Hin) as (pre & post & -> & Hp). exists (x :: pre), post. auto.
  - destruct H as [->|H]; [|contradiction]. exists [], s. auto.
Qed.

Lemma rfind_absent c s : ~ In c s -> rfind c s = (-1)%Z.
Proof. apply rfind_from_absent. Qed.

Lemma rfind_last c pre post :
  ~ In c post -> rfind c (pre ++ c :: post) = Z.of_nat (length pre).
Proof. intros H. unfold rfind. now rewrite rfind_from_last. Qed.

Lemma after_last_dot_none s : ~ In (ch ".") s -> after_last_dot s = s.
Proof.
  destruct s as [|x s]; intros H; cbn [after_last_dot]; [reflexivity|].
  assert (H1 : mem_char (ch ".") s = false).
  { apply mem_char_false. intros Hin. apply H. now right. }
  rewrite H1. destruct (N.eqb x (ch ".")) eqn:E; [|reflexivity].
  apply N.eqb_eq in E. exfalso. apply H. now left.
Qed.

Lemma after_last_dot_split pre post :
  ~ In (ch ".") post -> after_last_dot (pre ++ ch "." :: post) = post.
Proof.
  intros H. induction pre as [|x pre IH]; cbn [app after_last_dot].
  - apply mem_char_false in H. rewrite H. reflexivity.
  - assert (H1 : mem_char (ch ".") (pre ++ ch "." :: post) = true).
    { apply mem_char_In. apply in_or_app. right. now left. }
    rewrite H1. exact IH.
Qed.

(** [last_comma > last_dot] says that a comma occurs after the last
    dot. *)
Lemma comma_after_last_dot_rfind s :
  Z.ltb (rfind (ch ".") s) (rfind (ch ",") s) = comma_after_last_dot s.
Proof.
  unfold comma_after_last_dot.
  destruct (in_dec N.eq_dec (ch ".") s) as [Hd|Hd].
  - destruct (last_split _ _ Hd) as (pre & post & -> & Hp).
    rewrite after_last_dot_split, rfind_last by assumption.
    destruct (in_dec N.eq_dec (ch ",") post) as [Hc|Hc].
    + destruct (last_split _ _ Hc) as (p1 & p2 & -> & Hp2).
      replace (pre ++ ch "." :: p1 ++ ch "," :: p2)
        with ((pre ++ ch "." :: p1) ++ ch "," :: p2)
        by (rewrite <- app_assoc; reflexivity).
      rewrite rfind_last by assumption.
      rewrite length_app. cbn [length].
      transitivity true; [apply Z.ltb_lt; lia|].
      symmetry. apply mem_char_In. apply in_or_app. right. now left.
    + transitivity false; [|symmetry; now apply mem_char_false].
      apply Z.ltb_ge.
      destruct (in_dec N.eq_dec (ch ",") pre) as [Hq|Hq].
      * destruct (last_split _ _ Hq) as (q1 & q2 & -> & Hq2).
        rewrite <- app_assoc. cbn [app].
        rewrite rfind_last.
        -- rewrite length_app. cbn [length]. lia.
        -- intros Hin. apply in_app_or in Hin.
           destruct Hin as [Hin|[Hin|Hin]];
             [contradiction|discriminate|contradiction].
      * rewrite rfind_absent; [lia|].
        intros Hin. apply in_app_or in Hin.
        destruct Hin as [Hin|[Hin|Hin]];
          [contradiction|discriminate|contradiction].
  - rewrite after_last_dot_none, rfind_absent by assumption.
    destruct (in_dec N.eq_dec (ch ",") s) as [Hc|Hc].
    + destruct (last_split _ _ Hc) as (p1 & p2 & -> & Hp2).
      rewrite rfind_last by assumption.
      transitivity true; [apply Z.ltb_lt; lia|].
      symmetry. apply mem_char_In. apply in_or_app. right. now left.
    + rewrite rfind_absent by assumption.
      symmetry. now apply mem_char_false.
Qed.

Lemma thousands_comma_iff s :
  thousands_comma s = true <->
  exists pre rest, s = pre ++ rest /\ thousands_here rest = true.
Proof.
  induction s as [|x s IH].
  - cbn. split; [discriminate|]. intros (pre & rest & H & Hr).
    symmetry in H. apply app_eq_nil in H. destruct H as [_ ->]. discriminate.
  - cbn [thousands_comma]. rewrite orb_true_iff, IH. split.
    + intros [H|(pre & rest & -> & H)].
      * exists [], (x :: s). auto.
      * exists (x :: pre), rest. auto.
    + intros (pre & rest & H & Hr). destruct pre as [|y pre].
      * cbn in H. subst rest. now left.
      * cbn in H. injection H as <- ->. right. eauto.
Qed.

Lemma thousands_match_here b rest :
  thousands_here rest = true ->
  run false THOUSANDS_RE (MState b rest []) <> [].
Proof.
  destruct rest as [|d [|c [|d1 [|d2 [|d3 tl]]]]]; try discriminate.
  cbn [thousands_here]. rewrite !andb_true_iff.
  intros ((((Hd & Hc) & H1) & H2) & H3).
  apply N.eqb_eq in Hc. subst c.
  assert (Hin : In (MState (d3 :: d2 :: d1 :: ch "," :: d :: b) tl [])
                   (run false THOUSANDS_RE
                        (MState b (d :: ch "," :: d1 :: d2 :: d3 :: tl) []))).
  { unfold THOUSANDS_RE. cbn [Seq]. apply in_run_cat.
    exists (MState (d :: b) (ch "," :: d1 :: d2 :: d3 :: tl) []). split.
    - unfold Range. cbn [Rep Nat.sub UpTo]. apply in_run_cat.
      exists (MState (d :: b) (ch "," :: d1 :: d2 :: d3 :: tl) []). split.
      + apply in_run_cat. eexists. split.
        * apply step1_in; [reflexivity|exact Hd].
        * cbn. now left.
      + unfold Opt. cbn [run]. apply in_or_app. right. now left.
    - cbn [Rep].
      apply in_run_cat. eexists. split.
      { apply step1_in; [reflexivity|]. reflexivity. }
      apply in_run_cat. eexists. split.
      { apply step1_in; [reflexivity|exact H1]. }
      apply in_run_cat. eexists. split.
      { apply step1_in; [reflexivity|exact H2]. }
      apply in_run_cat. eexists. split.
      { apply step1_in; [reflexivity|exact H3]. }
      cbn. now left. }
  intros E. rewrite E in Hin. destruct Hin.
Qed.

Lemma thousands_match_inv b rest :
  run false THOUSANDS_RE (MState b rest []) <> [] ->
  exists pre rest', rest = pre ++ rest' /\ thousands_here rest' = true.
Proof.
  intros H.
  destruct (run false THOUSANDS_RE (MState b rest [])) as [|s' l] eqn:E;
    [contradiction|].
  assert (Hin : In s' (run false THOUSANDS_RE (MState b rest [])))
    by (rewrite E; now left).
  clear E H. unfold THOUSANDS_RE, Range in Hin.
  cbn [Seq Rep UpTo Nat.sub Opt] in Hin.
  inv_run; cbn [lit_match] in *;
    repeat match goal with
    | H : N.eqb _ _ = true |- _ => apply N.eqb_eq in H; subst
    end.
  all: first [ eexists [], _; split; [reflexivity|]; cbn [thousands_here];
                rewrite_tests; reflexivity
              | eexists [_], _; split; [reflexivity|]; cbn [thousands_here];
                rewrite_tests; reflexivity
              | eexists [_; _], _; split; [reflexivity|]; cbn [thousands_here];
                rewrite_tests; reflexivity ].
Qed.

(** The search of line 93 finds a digit, a comma and three digits. *)
Lemma thousands_search s :
  found (search false THOUSANDS_RE s) = thousands_comma s.
Proof.
  apply eq_true_iff_eq. unfold search.
  rewrite search_from_found, thousands_comma_iff. split.
  - intros (pre & rest & -> & H). apply thousands_match_inv in H.
    destruct H as (p2 & rest' & -> & H). exists (pre ++ p2), rest'.
    split; [now rewrite app_assoc|assumption].
  - intros (pre & rest & -> & H). exists pre, rest. split; [reflexivity|].
    now apply thousands_match_here.
Qed.

Lemma thousands_comma_has_comma s :
  thousands_comma s = true -> mem_char (ch ",") s = true.
Proof.
  intros H. apply thousands_comma_iff in H.
  destruct H as (pre & rest & -> & H).
  apply mem_char_In. apply in_or_app. right.
  destruct rest as [|d [|c [|d1 [|d2 [|d3 tl]]]]]; try discriminate.
  cbn [thousands_here] in H. rewrite !andb_true_iff in H.
  destruct H as ((((_ & Hc) & _) & _) & _). apply N.eqb_eq in Hc. subst c.
  right. now left.
Qed.

Lemma findall_head r text n rest :
  findall false r text = n :: rest ->
  exists m, search false r text = Some m /\ n = group0 m.
Proof.
  unfold findall, search. cbn [findall_from].
  destruct (search_from false r [] text) as [m|]; [|discriminate].
  intros [= <- _]. eauto.
Qed.

Lemma findall_first r text :
  match findall false r text with
  | [] => None
  | n :: _ => py_float n
  end =
  match search false r text with
  | Some m => py_float (group0 m)
  | None => None
  end.
Proof.
  unfold findall, search. cbn [findall_from].
  destruct (search_from false r [] text); reflexivity.
Qed.

Lemma parse_price_value_locale raw :
  parse_price_value raw = (first_number (locale_rule (strip raw)), lit "EUR").
Proof.
  unfold parse_price_value, locale_rule, first_number.
  rewrite comma_after_last_dot_rfind, thousands_search.
  replace (mem_char (ch ",") (strip raw) && thousands_comma (strip raw))
    with (thousands_comma (strip raw)).
  2:{ destruct (thousands_comma (strip raw)) eqn:E.
      - now rewrite (thousands_comma_has_comma _ E).
      - now rewrite andb_false_r. }
  match goal with
  | |- match findall false NUMBER_RE ?s with _ => _ end = _ =>
      pose proof (findall_first NUMBER_RE s) as H;
      destruct (findall false NUMBER_RE s)
  end; rewrite <- H; reflexivity.
Qed.

End Locale.

(** C3. [parse_price_value] trims its argument, applies the locale rule
    of the specification (a comma after the last dot: dots are removed
    and commas become the decimal point; else, where a digit, a comma and
    three digits occur, commas are removed; otherwise commas become the
    decimal point), parses the first number of the result, and returns
    "EUR" as currency whether or not there is a value; on the four
    vectors it gives 12.99, 1234.56, 12.99 and no value. *)
Theorem parse_price_value_spec :
  (forall (U : UnicodeData) (raw : str),
     parse_price_value raw
     = (first_number (locale_rule (strip raw)), lit "EUR"))
  /\ @parse_price_value py_unicode (lit "12,99")
     = (Some (Fin (1299 # 100)), lit "EUR")
  /\ @parse_price_value py_unicode (lit "1.234,56")
     = (Some (Fin (30864 # 25)), lit "EUR")
  /\ @parse_price_value py_unicode (lit "12.99")
     = (Some (Fin (1299 # 100)), lit "EUR")
  /\ @parse_price_value py_unicode (lit "abc") = (None, lit "EUR").
Proof.
  split; [intros U raw; apply parse_price_value_locale|].
  repeat split; vm_compute; reflexivity.
Qed.

(* ================================================================== *)
(** * Properties: tax-tag normalization *)
(* ================================================================== *)

Section Normalization.
Context {U : UnicodeData}.

Lemma first_abc_in mapped v : first_abc mapped = Some v -> In v abc.
Proof.
  induction mapped as [|c rest IH]; cbn [first_abc]; [discriminate|].
  destruct (mem_str c abc) eqn:E; [|exact IH].
  intros [= <-]. now apply mem_str_In.
Qed.

(** Whatever [_normalize_vat_token] returns is one of A, B, C. *)
Lemma normalize_vat_token_abc txt v :
  _normalize_vat_token txt = Some v -> In v abc.
Proof.
  unfold _normalize_vat_token.
  destruct txt as [|x txt]; [discriminate|].
  destruct (strip (x :: txt)) as [|y st]; [discriminate|].
  set (s := filter (fun c => negb (is_mark c)) (nfkd (y :: st))).
  destruct (filter keep_alnum s) as [|a s_alnum] eqn:Ea.
  - destruct (existsb _ s); [|discriminate]. intros [= <-]. cbn. auto.
  - destruct (first_abc (mapped_chars (a :: s_alnum))) as [c|] eqn:Ef.
    + intros [= <-]. eapply first_abc_in; eauto.
    + match goal with |- context [if ?b then _ else _] => destruct b end.
      * intros [= <-]. cbn. auto.
      * destruct (filter (fun c => negb (isdecimal c)) (a :: s_alnum))
          as [|l0 letters]; [discriminate|].
        destruct (mem_str (upper l0) abc) eqn:Em.
        -- intros [= <-]. now apply mem_str_In.
        -- match goal with
           | |- context [if ?b then _ else _] => destruct b
           end; [|discriminate].
           intros [= <-]. cbn. auto.
Qed.

Lemma normalize_unreadable txt :
  let s := filter (fun c => negb (is_mark c)) (nfkd (strip txt)) in
  strip txt <> [] ->
  filter keep_alnum s = [] ->
  (exists c, In c s /\ isdigit c = false) ->
  _normalize_vat_token txt = Some (lit "B").
Proof.
  intros s Hs Hclean (c & Hc & Hd).
  unfold _normalize_vat_token.
  destruct txt as [|x txt]; [now cbn in Hs|].
  destruct (strip (x :: txt)) as [|y st] eqn:E; [contradiction|].
  fold s. rewrite Hclean.
  replace (existsb (fun c0 => negb (isdigit c0)) s) with true; [reflexivity|].
  symmetry. apply existsb_exists. exists c. split; [assumption|].
  now rewrite Hd.
Qed.

Lemma normalize_blank txt : strip txt = [] -> _normalize_vat_token txt = None.
Proof.
  intros H. unfold _normalize_vat_token. rewrite H. now destruct txt.
Qed.

Lemma normalize_marks_only txt :
  filter (fun c => negb (is_mark c)) (nfkd (strip txt)) = [] ->
  _normalize_vat_token txt = None.
Proof.
  intros H. unfold _normalize_vat_token.
  destruct txt as [|x txt]; [reflexivity|].
  destruct (strip (x :: txt)) as [|y st]; [reflexivity|].
  rewrite H. reflexivity.
Qed.

End Normalization.

(** C4 (amended). Normalization maps "A" to A, "8" to B, the Greek
    capital beta to B and the empty string to no tag; and every input
    whose trimmed text is not empty, whose cleaned string is empty and
    whose decomposed text without marks holds a character that is not a
    digit, gets B.  Input that is blank, or that is nothing but marks
    after decomposition, gets no tag. *)
Theorem normalize_vat_token_spec :
  @_normalize_vat_token py_unicode (lit "A") = Some (lit "A")
  /\ @_normalize_vat_token py_unicode (lit "8") = Some (lit "B")
  /\ @_normalize_vat_token py_unicode [914%N] = Some (lit "B")
  /\ @_normalize_vat_token py_unicode [] = None
  /\ (forall (U : UnicodeData) (txt : str),
        let s := filter (fun c => negb (is_mark c)) (nfkd (strip txt)) in
        strip txt <> [] ->
        filter keep_alnum s = [] ->
        (exists c, In c s /\ isdigit c = false) ->
        _normalize_vat_token txt = Some (lit "B"))
  /\ (forall (U : UnicodeData) (txt : str),
        strip txt = [] -> _normalize_vat_token txt = None)
  /\ (forall (U : UnicodeData) (txt : str),
        filter (fun c => negb (is_mark c)) (nfkd (strip txt)) = [] ->
        _normalize_vat_token txt = None).
Proof.
  do 4 (split; [vm_compute; reflexivity|]).
  split; [intros U txt; apply normalize_unreadable|].
  split; intros U txt; [apply normalize_blank|apply normalize_marks_only].
Qed.

(** The euro sign is neither letter nor digit. *)
Lemma normalize_vat_token_spec_witness :
  @_normalize_vat_token py_unicode [euro] = Some (lit "B").
Proof.
  apply (proj1 (proj2 (proj2 (proj2 (proj2 normalize_vat_token_spec))))
               py_unicode [euro]).
  - vm_compute. discriminate.
  - vm_compute. reflexivity.
  - exists euro. split; vm_compute; auto.
Defined.

(** C4, as stated: the text of one blank has an empty cleaned string and
    holds a character that is not a digit, and yet it gets no tag, by the
    test of line 231. *)
Lemma normalize_vat_token_blank :
  let txt := lit " " in
  filter keep_alnum (filter (fun c => negb (@is_mark py_unicode c))
                            (@nfkd py_unicode txt)) = []
  /\ (exists c, In c txt /\ @isdigit py_unicode c = false)
  /\ @_normalize_vat_token py_unicode txt = None.
Proof.
  cbv zeta. split; [vm_compute; reflexivity|]. split.
  - exists 32%N. split; vm_compute; auto.
  - vm_compute. reflexivity.
Qed.

(* ================================================================== *)
(** * Properties: the nearby tag of the same row *)
(* ================================================================== *)

Section SameRow.
Context {U : UnicodeData}.
Open Scope Q_scope.

Lemma first_tag_some accept l vat :
  first_tag accept l = Some vat ->
  exists t, In t l /\ _normalize_vat_token (text t) = Some vat /\
            accept t = true.
Proof.
  induction l as [|t l IH]; cbn [first_tag]; [discriminate|].
  destruct (truthy (_normalize_vat_token (text t)) && accept t) eqn:E.
  - intros H. apply andb_true_iff in E. destruct E as [_ Ha].
    exists t. split; [now left|]. split; assumption.
  - intros H. destruct (IH H) as (u & Hu & Hn & Ha).
    exists u. split; [now right|]. split; assumption.
Qed.

Lemma first_tag_complete accept l t :
  In t l -> truthy (_normalize_vat_token (text t)) = true ->
  accept t = true ->
  exists vat, first_tag accept l = Some vat.
Proof.
  induction l as [|u l IH]; intros Hin Ht Ha; [destruct Hin|].
  cbn [first_tag].
  destruct (truthy (_normalize_vat_token (text u)) && accept u) eqn:E.
  - apply andb_true_iff in E. destruct E as [E _].
    destruct (_normalize_vat_token (text u)) as [v|]; [|discriminate]. eauto.
  - destruct Hin as [->|Hin].
    + rewrite Ht, Ha in E. discriminate.
    + now apply IH.
Qed.

Lemma first_tag_abc accept l v : first_tag accept l = Some v -> In v abc.
Proof.
  intros H. apply first_tag_some in H. destruct H as (t & _ & Hn & _).
  eapply normalize_vat_token_abc; eauto.
Qed.

Lemma same_row_neighbors_in pt row t :
  In t (same_row_neighbors pt row) <-> In t row /\ same_object t pt = false.
Proof.
  unfold same_row_neighbors. rewrite sorted_in, filter_In, negb_true_iff.
  reflexivity.
Qed.

Lemma same_row_accept_iff pt t :
  same_row_accept pt t = true <->
  x1 t <= x2 pt + 40 /\
  15 # 100 <= vertical_overlap_ratio (tbox pt) (tbox t).
Proof.
  unfold same_row_accept. now rewrite andb_true_iff, !Qle_bool_iff.
Qed.

End SameRow.

(** C5 (amended). A tag of the same-row step comes from a token of the
    row, other than the price token, whose text normalizes to that tag,
    whose vertical overlap with the price box is at least 0.15, and
    whose left edge is at most 40px to the right of the price's right
    edge; a token with these properties makes the step return a tag.
    (Nothing bounds the left edge on the left side.) *)
Theorem same_row_vat_accepts (U : UnicodeData) pt row :
  (forall vat, same_row_vat pt row = Some vat ->
     exists t, In t row /\ same_object t pt = false /\
       _normalize_vat_token (text t) = Some vat /\
       (x1 t <= x2 pt + 40)%Q /\
       (15 # 100 <= vertical_overlap_ratio (tbox pt) (tbox t))%Q)
  /\ (forall t, In t row -> same_object t pt = false ->
        truthy (_normalize_vat_token (text t)) = true ->
        (x1 t <= x2 pt + 40)%Q ->
        (15 # 100 <= vertical_overlap_ratio (tbox pt) (tbox t))%Q ->
        exists vat, same_row_vat pt row = Some vat).
Proof.
  split.
  - intros vat H. apply first_tag_some in H.
    destruct H as (t & Hin & Hn & Ha).
    apply same_row_neighbors_in in Hin. destruct Hin as [Hin Hid].
    apply same_row_accept_iff in Ha. destruct Ha as [Hx Hv].
    exists t. auto.
  - intros t Hin Hid Ht Hx Hv. unfold same_row_vat.
    apply first_tag_complete with (t := t); auto.
    + now apply same_row_neighbors_in.
    + now apply same_row_accept_iff.
Qed.

Lemma same_row_vat_accepts_witness :
  exists vat, @same_row_vat py_unicode tag_left_price tag_left_row = Some vat.
Proof.
  apply (proj2 (same_row_vat_accepts py_unicode tag_left_price tag_left_row)
               (tokc 0 "B" (9 # 10) (Box 0 0 10 20))).
  - now left.
  - reflexivity.
  - vm_compute. reflexivity.
  - vm_compute. discriminate.
  - vm_compute. discriminate.
Defined.

(** C5, as stated: the letter B at the left end of the row gives the
    same-row tag although its left edge is 240px away from the right
    edge of the price, and it is the only other token of the row. *)
Lemma same_row_vat_far_left :
  @same_row_vat py_unicode tag_left_price tag_left_row = Some (lit "B")
  /\ @_nearby_vat_tag_for_price_rows py_unicode tag_left_price
       [tag_left_row] 0 = Some (lit "B")
  /\ (forall t, In t tag_left_row -> same_object t tag_left_price = false ->
        (40 < Qabs (x1 t - x2 tag_left_price))%Q).
Proof.
  split; [vm_compute; reflexivity|]. split; [vm_compute; reflexivity|].
  intros t [<-|[<-|[]]] H.
  - vm_compute. reflexivity.
  - discriminate.
Qed.

(* ================================================================== *)
(** * Properties: the end-to-end vector *)
(* ================================================================== *)

(** C1. On the row "Milch", "2,49", "A" of the specification, row
    grouping followed by item assembly gives exactly one item, named
    "Milch", with value 2.49 and tag A. *)
Theorem pipeline_milch :
  exists it,
    @pipeline py_unicode milch_tokens = Some [it]
    /\ name it = lit "Milch"
    /\ value (price_of it) = Fin (249 # 100)
    /\ vatTag (price_of it) = lit "A".
Proof.
  eexists. split; [vm_compute; reflexivity|].
  repeat split.
Qed.

(* ================================================================== *)
(** * Properties: the Unicode table *)
(* ================================================================== *)

Module PyUnicodeFacts.
Import PyUnicode.
Local Open Scope N_scope.

Lemma in_range_iff lo hi c : in_range lo hi c = true <-> lo <= c <= hi.
Proof. unfold in_range. rewrite andb_true_iff, !N.leb_le. reflexivity. Qed.

Lemma in_range_false lo hi c : in_range lo hi c = false <-> c < lo \/ hi < c.
Proof.
  unfold in_range. rewrite andb_false_iff, !N.leb_gt. reflexivity.
Qed.

Ltac split_ranges :=
  repeat match goal with
  | |- context [if ?b then _ else _] => destruct b eqn:?
  | H : context [if ?b then _ else _] |- _ => destruct b eqn:?
  end;
  repeat match goal with
  | H : (_ || _)%bool = true |- _ => apply orb_true_iff in H; destruct H
  | H : (_ || _)%bool = false |- _ => apply orb_false_iff in H; destruct H
  | H : in_range _ _ _ = true |- _ => apply in_range_iff in H
  | H : in_range _ _ _ = false |- _ => apply in_range_false in H
  | H : N.eqb _ _ = true |- _ => apply N.eqb_eq in H
  | H : N.eqb _ _ = false |- _ => apply N.eqb_neq in H
  end.

Lemma py_tolower_small c l :
  l < 105 -> py_tolower c = l -> c = l \/ (65 <= c <= 90 /\ l = c + 32).
Proof.
  unfold py_tolower. intros Hl H. split_ranges; subst; lia.
Qed.

Lemma lookup_cases_in c d x :
  In x (lookup_cases c d) -> exists k v, In (k, v) d /\ In x v.
Proof.
  induction d as [|[k v] d IH]; cbn [lookup_cases]; [intros []|].
  destruct (N.eqb c k).
  - intros H. exists k, v. split; [now left|assumption].
  - intros H. destruct (IH H) as (k' & v' & Hin & Hx).
    exists k', v'. split; [now right|assumption].
Qed.

Lemma py_case_fixes_large c x : In x (py_case_fixes c) -> 105 <= x.
Proof.
  intros H. apply lookup_cases_in in H. destruct H as (k & v & Hin & Hx).
  assert (Hall : Forall (fun kv => forallb (N.leb 105) (snd kv) = true)
                        extra_cases)
    by (repeat constructor).
  rewrite Forall_forall in Hall. specialize (Hall _ Hin). cbn [snd] in Hall.
  rewrite forallb_forall in Hall. apply N.leb_le. now apply Hall.
Qed.

Lemma py_unicode_laws : UnicodeLaws py_unicode.
Proof.
  constructor.
  - intros l c Hl H. cbn [lit_match] in H. apply mem_char_In in H.
    assert (Hlow : py_tolower l = l + 32 /\ l + 32 < 105 /\ 65 <= l <= 90).
    { cbn in Hl. destruct Hl as [<-|[<-|[<-|[]]]]; vm_compute;
        repeat split; congruence. }
    destruct Hlow as (Hlow & Hlt & Hr).
    change (@tolower py_unicode) with py_tolower in H.
    change (@case_fixes py_unicode) with py_case_fixes in H.
    rewrite Hlow in H. destruct H as [H|H].
    + symmetry in H. apply py_tolower_small in H; [|exact Hlt]. lia.
    + exfalso. revert H. cbn in Hl.
      destruct Hl as [<-|[<-|[<-|[]]]]; vm_compute; tauto.
  - intros l Hl. cbn in Hl.
    destruct Hl as [<-|[<-|[<-|[]]]]; vm_compute; auto.
  - split; reflexivity.
  - intros l H. cbn [lit_match] in H. apply mem_char_In in H.
    change (@tolower py_unicode) with py_tolower in H.
    change (@case_fixes py_unicode) with py_case_fixes in H.
    change (py_tolower (ch "-")) with 45 in H.
    destruct H as [H|H].
    + apply py_tolower_small in H; [|lia]. change (ch "-") with 45. lia.
    + apply py_case_fixes_large in H. lia.
  - intros c H. change (@isdecimal py_unicode c) with (py_isdecimal c) in H.
    unfold py_isdecimal in H. apply in_range_iff in H.
    change (@decimal_value py_unicode c) with (py_decimal_value c).
    unfold py_decimal_value. lia.
Qed.

End PyUnicodeFacts.

(* ================================================================== *)
(** * Properties: the inline tag *)
(* ================================================================== *)

Section Inline.
Context {U : UnicodeData}.
Hypothesis laws : UnicodeLaws U.

Lemma abc_match c :
  existsb (fun i => citem_match true i c)
          [CChar (ch "A"); CChar (ch "B"); CChar (ch "C")] = true ->
  exists l, In l (lit "ABC") /\ (c = l \/ c = (l + 32)%N) /\ upper c = [l].
Proof.
  intros H. apply existsb_exists in H. destruct H as (i & Hi & Hm).
  assert (Hl : exists l, In l (lit "ABC") /\ i = CChar l).
  { cbn in Hi. destruct Hi as [<-|[<-|[<-|[]]]]; eexists; split;
      try reflexivity; cbn; auto. }
  destruct Hl as (l & Hl & ->). cbn [citem_match] in Hm.
  exists l. split; [assumption|].
  destruct (@icase_abc U laws l c Hl Hm) as [->| ->];
    destruct (@upper_abc U laws l Hl) as [H1 H2]; auto.
Qed.

(** Where [PRICE_WITH_VAT_RE] matches, group 2 is one letter of A, B, C
    in either case. *)
Lemma price_with_vat_group2 s s' :
  In s' (run true PRICE_WITH_VAT_RE s) ->
  exists c, group 2 (caps s') = Some [c] /\
    existsb (fun i => citem_match true i c)
            [CChar (ch "A"); CChar (ch "B"); CChar (ch "C")] = true.
Proof.
  unfold PRICE_WITH_VAT_RE. cbn [Seq]. intros H.
  do 8 (apply in_run_cat in H; destruct H as (? & _ & H)).
  apply in_run_cat in H. destruct H as (s9 & H9 & H).
  unfold ABC in H9. cbn [run] in H9, H.
  apply in_guard in H. destruct H as [_ ->].
  apply in_map_iff in H9. destruct H9 as (s1 & <- & H1).
  destruct (step1_sound _ _ _ H1) as (c & E & Hc & _).
  exists c. split; [|exact Hc].
  cbn [set_group caps group Nat.eqb]. now rewrite (consumed_extends E).
Qed.

Lemma has_inline_vat_tag_match txt m :
  search true PRICE_WITH_VAT_RE txt = Some m ->
  exists c l, group 2 (groups m) = Some [c] /\ In l (lit "ABC") /\
    (c = l \/ c = (l + 32)%N) /\ _has_inline_vat_tag txt = Some [l].
Proof.
  intros H. unfold _has_inline_vat_tag. rewrite H.
  apply search_from_some in H. destruct H as (pre & rest & s' & _ & Hin & ->).
  apply price_with_vat_group2 in Hin. destruct Hin as (c & Hg & Hc).
  apply abc_match in Hc. destruct Hc as (l & Hl & Hcl & Hu).
  exists c, l. cbn [mk_match groups]. rewrite Hg.
  repeat split; auto.
  unfold upper_str. cbn [flat_map]. now rewrite Hu.
Qed.

Lemma has_inline_vat_tag_abc txt v :
  _has_inline_vat_tag txt = Some v -> In v abc.
Proof.
  destruct (search true PRICE_WITH_VAT_RE txt) as [m|] eqn:E.
  - destruct (has_inline_vat_tag_match _ E) as (c & l & _ & Hl & _ & ->).
    intros [= <-]. cbn in Hl. cbn.
    destruct Hl as [<-|[<-|[<-|[]]]]; auto.
  - unfold _has_inline_vat_tag. rewrite E. apply normalize_vat_token_abc.
Qed.

End Inline.

(** C2 (amended). Where the price pattern with a trailing letter matches
    the candidate's text, the inline step returns that letter of A, B, C
    in upper case.  Where it does not match, the inline step returns
    what tax-tag normalization makes of the whole text, which can be a
    tag; resolution proceeds to the nearby-token search exactly when the
    inline step yields no tag. *)
Theorem inline_vat_tag_spec (U : UnicodeData) (laws : UnicodeLaws U) txt :
  (forall m, search true PRICE_WITH_VAT_RE txt = Some m ->
     exists c l, group 2 (groups m) = Some [c] /\ In l (lit "ABC") /\
       (c = l \/ c = (l + 32)%N) /\ _has_inline_vat_tag txt = Some [l])
  /\ (search true PRICE_WITH_VAT_RE txt = None ->
        _has_inline_vat_tag txt = _normalize_vat_token txt)
  /\ (forall pt rows ridx, txt = text pt ->
        (truthy (_has_inline_vat_tag txt) = true ->
           resolve_vat pt rows ridx = _has_inline_vat_tag txt)
        /\ (truthy (_has_inline_vat_tag txt) = false ->
              resolve_vat pt rows ridx =
              _nearby_vat_tag_for_price_rows pt rows ridx)).
Proof.
  split; [intros m; now apply has_inline_vat_tag_match|]. split.
  - intros H. unfold _has_inline_vat_tag. now rewrite H.
  - intros pt rows ridx ->. unfold resolve_vat. split; intros ->; reflexivity.
Qed.

Lemma inline_vat_tag_spec_witness :
  exists c l,
    group 2 [(2, lit "a"); (1, lit "2,49")] = Some [c] /\ In l (lit "ABC") /\
    (c = l \/ c = (l + 32)%N) /\
    @_has_inline_vat_tag py_unicode (lit "2,49 a") = Some [l].
Proof.
  apply (proj1 (@inline_vat_tag_spec py_unicode PyUnicodeFacts.py_unicode_laws
                  (lit "2,49 a"))
               (RMatch 0 6 (lit "2,49 a") [(2, lit "a"); (1, lit "2,49")])).
  vm_compute. reflexivity.
Defined.

(** C2, as stated: "3,99" is a price, its match is the whole text and
    has no trailing letter, the pattern with a trailing letter does not
    match, and yet the inline step returns B, because normalization of
    the whole text reads the digit 3 as B; with the tag A printed next to
    the price the item gets B. *)
Lemma inline_tag_from_price_digit :
  (exists m, @search py_unicode true PRICE_RE (lit "3,99") = Some m
             /\ group0 m = lit "3,99")
  /\ @search py_unicode true PRICE_WITH_VAT_RE (lit "3,99") = None
  /\ @_has_inline_vat_tag py_unicode (lit "3,99") = Some (lit "B")
  /\ exists it, @pipeline py_unicode price_399_tokens = Some [it]
                /\ vatTag (price_of it) = lit "B".
Proof.
  split; [eexists; split; vm_compute; reflexivity|].
  split; [vm_compute; reflexivity|].
  split; [vm_compute; reflexivity|].
  eexists. split; vm_compute; reflexivity.
Qed.

(* ================================================================== *)
(** * Properties: item assembly *)
(* ================================================================== *)

Section Assembly.
Context {U : UnicodeData}.

Lemma row_items_spec rows ridx row items :
  row_items rows ridx row items = items ++ row_candidates rows ridx row.
Proof.
  unfold row_items, row_candidates.
  generalize (filter is_price_text row) as pts. intros pts. revert items.
  induction pts as [|pt pts IH]; intros items; cbn [fold_left flat_map].
  - now rewrite app_nil_r.
  - rewrite IH.
    destruct (candidate_item rows ridx (_is_unit_price_context row) pt);
      cbn [option_list]; [now rewrite <- app_assoc|reflexivity].
Qed.

Lemma rows_loop_spec rows todo : forall ridx items,
  rows_loop rows ridx todo items =
  items ++ flat_map (fun p => row_candidates rows (fst p) (snd p))
                    (combine (seq ridx (length todo)) todo).
Proof.
  induction todo as [|row todo IH]; intros ridx items;
    cbn [rows_loop length seq combine flat_map].
  - now rewrite app_nil_r.
  - rewrite IH, row_items_spec. cbn [fst snd]. now rewrite <- app_assoc.
Qed.

(** The item list is the concatenation, over the rows and their price
    tokens in order, of what each candidate yields by itself. *)
Lemma build_items_spec rows :
  build_items_from_rows rows =
  flat_map (fun p => row_candidates rows (fst p) (snd p))
           (combine (seq 0 (length rows)) rows).
Proof. unfold build_items_from_rows. now rewrite rows_loop_spec. Qed.

(** What it takes for a candidate to yield an item. *)
Lemma candidate_item_some rows ridx ctx pt it :
  candidate_item rows ridx ctx pt = Some it ->
  exists tag nt nts m v,
    resolve_vat pt rows ridx = Some tag /\ truthy (Some tag) = true /\
    _find_name_tokens_for_price pt rows ridx = nt :: nts /\
    _is_bad_name (_build_name_from_left_tokens (nt :: nts)) = false /\
    found (match_ true QTY_ONLY_RE (_build_name_from_left_tokens (nt :: nts)))
    && Nat.leb (count_words false (_build_name_from_left_tokens (nt :: nts))) 3
    = false /\
    search true PRICE_RE (text pt) = Some m /\
    fst (parse_price_value (group0 m)) = Some v /\
    it = Item ridx (_build_name_from_left_tokens (nt :: nts))
              (Box (py_min (x1 nt) (map x1 nts)) (py_min (y1 nt) (map y1 nts))
                   (py_max (x2 nt) (map x2 nts)) (py_max (y2 nt) (map y2 nts)))
              (Price (group0 m) v (lit "EUR") tag) (tbox pt) (score pt).
Proof.
  unfold candidate_item.
  destruct (truthy (resolve_vat pt rows ridx)) eqn:Ht; cbn [negb];
    [|discriminate].
  destruct (ctx || found (search true UNIT_PRICE_RE (text pt)));
    [discriminate|].
  destruct (_find_name_tokens_for_price pt rows ridx) as [|nt nts] eqn:En;
    [discriminate|].
  destruct (_is_bad_name (_build_name_from_left_tokens (nt :: nts))) eqn:Eb;
    [discriminate|].
  match goal with
  | |- context [if ?b then _ else _] => destruct b eqn:Eq
  end; [discriminate|].
  destruct (search true PRICE_RE (text pt)) as [m|] eqn:Em; [|discriminate].
  destruct (parse_price_value (group0 m)) as [value currency] eqn:Ep.
  destruct value as [v|]; [|discriminate].
  destruct (resolve_vat pt rows ridx) as [tag|] eqn:Er; [|discriminate].
  intros [= <-]. exists tag, nt, nts, m, v. rewrite Ep. repeat split; auto.
Qed.

Lemma in_enumerate (A : Type) (l : list A) : forall k i x,
  In (i, x) (combine (seq k (length l)) l) ->
  nth_error l (i - k) = Some x /\ k <= i.
Proof.
  induction l as [|y l IH]; intros k i x H; cbn [length seq combine] in H.
  - destruct H.
  - destruct H as [[= <- <-]|H].
    + rewrite Nat.sub_diag. auto.
    + apply IH in H. destruct H as [H Hk].
      replace (i - k) with (S (i - S k)) by lia. split; [exact H|lia].
Qed.

Lemma build_items_in rows it :
  In it (build_items_from_rows rows) ->
  exists ridx row pt,
    nth_error rows ridx = Some row /\ In pt row /\ is_price_text pt = true /\
    candidate_item rows ridx (_is_unit_price_context row) pt = Some it.
Proof.
  rewrite build_items_spec. intros H. apply in_flat_map in H.
  destruct H as ([ridx row] & Hin & H). cbn [fst snd] in H.
  apply in_enumerate in Hin. destruct Hin as [Hn _].
  rewrite Nat.sub_0_r in Hn.
  unfold row_candidates in H. apply in_flat_map in H.
  destruct H as (pt & Hpt & H). apply filter_In in Hpt.
  destruct Hpt as [Hpt Hp].
  destruct (candidate_item rows ridx (_is_unit_price_context row) pt)
    as [it'|] eqn:E; [|destruct H].
  destruct H as [<-|[]]. exists ridx, row, pt. auto.
Qed.

End Assembly.

(** C7. The item list is the concatenation of what each price candidate
    yields by itself, in the order of the rows and of their tokens, so a
    candidate that yields nothing takes no other candidate with it.  A
    candidate yields nothing when no tax tag is resolved, when the price
    substring has no value, or when the name is rejected (blacklist or
    empty, a quantity of at most three words, no name token); an item always
    carries the tag that was resolved.  In [two_price_rows] the price of
    the first row finds no tag and is dropped, and the price of the
    second row still gives its item. *)
Theorem candidate_failures_are_local :
  (forall (U : UnicodeData) rows,
     build_items_from_rows rows =
     flat_map (fun p => row_candidates rows (fst p) (snd p))
              (combine (seq 0 (length rows)) rows))
  /\ (forall (U : UnicodeData) rows ridx ctx pt,
        truthy (resolve_vat pt rows ridx) = false ->
        candidate_item rows ridx ctx pt = None)
  /\ (forall (U : UnicodeData) rows ridx ctx pt,
        (forall m, search true PRICE_RE (text pt) = Some m ->
                   fst (parse_price_value (group0 m)) = None) ->
        candidate_item rows ridx ctx pt = None)
  /\ (forall (U : UnicodeData) rows ridx ctx pt,
        _is_bad_name (_build_name_from_left_tokens
                        (_find_name_tokens_for_price pt rows ridx)) = true ->
        candidate_item rows ridx ctx pt = None)
  /\ (forall (U : UnicodeData) rows ridx ctx pt,
        (let name := _build_name_from_left_tokens
                       (_find_name_tokens_for_price pt rows ridx) in
         found (match_ true QTY_ONLY_RE name)
         && Nat.leb (count_words false name) 3) = true ->
        candidate_item rows ridx ctx pt = None)
  /\ (forall (U : UnicodeData) rows ridx ctx pt,
        _find_name_tokens_for_price pt rows ridx = [] ->
        candidate_item rows ridx ctx pt = None)
  /\ (forall (U : UnicodeData) rows ridx ctx pt it,
        candidate_item rows ridx ctx pt = Some it ->
        resolve_vat pt rows ridx = Some (vatTag (price_of it))
        /\ vatTag (price_of it) <> [])
  /\ (exists it,
        @build_items_from_rows py_unicode two_price_rows = [it]
        /\ rowIndex it = 1
        /\ @candidate_item py_unicode two_price_rows 0 false lone_price
           = None).
Proof.
  split; [intros U; exact build_items_spec|].
  split; [|split; [|split; [|split; [|split; [|split]]]]].
  - intros U rows ridx ctx pt H. unfold candidate_item. now rewrite H.
  - intros U rows ridx ctx pt H.
    destruct (candidate_item rows ridx ctx pt) as [it|] eqn:E; [|reflexivity].
    apply candidate_item_some in E.
    destruct E as (tag & nt & nts & m & v & _ & _ & _ & _ & _ & Hm & Hv & _).
    rewrite (H m Hm) in Hv. discriminate.
  - intros U rows ridx ctx pt H.
    destruct (candidate_item rows ridx ctx pt) as [it|] eqn:E; [|reflexivity].
    apply candidate_item_some in E.
    destruct E as (tag & nt & nts & m & v & _ & _ & Hn & Hb & _).
    rewrite Hn, Hb in H. discriminate.
  - intros U rows ridx ctx pt H.
    destruct (candidate_item rows ridx ctx pt) as [it|] eqn:E; [|reflexivity].
    apply candidate_item_some in E.
    destruct E as (tag & nt & nts & m & v & _ & _ & Hn & _ & Hq & _).
    cbv zeta in H. rewrite Hn, Hq in H. discriminate.
  - intros U rows ridx ctx pt H. unfold candidate_item. rewrite H.
    destruct (negb _); [reflexivity|]. now destruct (_ || _).
  - intros U rows ridx ctx pt it H. apply candidate_item_some in H.
    destruct H as (tag & nt & nts & m & v & Hr & Ht & _ & _ & _ & _ & _ & ->).
    cbn [price_of vatTag]. split; [exact Hr|].
    destruct tag; discriminate.
  - eexists. split; [vm_compute; reflexivity|].
    split; vm_compute; reflexivity.
Qed.

Lemma candidate_failures_are_local_witness :
  @candidate_item py_unicode two_price_rows 0 false lone_price = None.
Proof.
  apply (proj1 (proj2 candidate_failures_are_local) py_unicode).
  vm_compute. reflexivity.
Defined.

(* ================================================================== *)
(** * Properties: the invariant of items *)
(* ================================================================== *)

Section Invariant.
Context {U : UnicodeData}.
Hypothesis laws : UnicodeLaws U.

(** *** The tag is one of A, B, C *)

Lemma below_rows_vat_abc pt rows ridx ds v :
  below_rows_vat pt rows ridx ds = Some v -> In v abc.
Proof.
  induction ds as [|d ds IH]; cbn [below_rows_vat]; [discriminate|].
  destruct (nth_error rows (ridx + d)) as [r|]; [|discriminate].
  destruct (first_tag (below_accept pt) r) as [vat|] eqn:E; [|exact IH].
  intros [= <-]. eapply first_tag_abc; eauto.
Qed.

Lemma above_rows_vat_abc pt rows ridx us v :
  above_rows_vat pt rows ridx us = Some v -> In v abc.
Proof.
  induction us as [|u us IH]; cbn [above_rows_vat]; [discriminate|].
  destruct (Nat.ltb ridx u); [discriminate|].
  destruct (first_tag (above_accept pt u) (nth (ridx - u) rows []))
    as [vat|] eqn:E; [|exact IH].
  intros [= <-]. eapply first_tag_abc; eauto.
Qed.

Lemma nearby_vat_tag_abc pt rows ridx v :
  _nearby_vat_tag_for_price_rows pt rows ridx = Some v -> In v abc.
Proof.
  unfold _nearby_vat_tag_for_price_rows.
  destruct (same_row_vat pt (nth ridx rows [])) as [vat|] eqn:E1.
  { intros [= <-]. eapply first_tag_abc; eauto. }
  destruct (below_rows_vat pt rows ridx (seq 1 1)) as [vat|] eqn:E2.
  { intros [= <-]. eapply below_rows_vat_abc; eauto. }
  apply above_rows_vat_abc.
Qed.

Lemma resolve_vat_abc pt rows ridx v :
  resolve_vat pt rows ridx = Some v -> In v abc.
Proof.
  unfold resolve_vat.
  destruct (truthy (_has_inline_vat_tag (text pt))).
  - now apply has_inline_vat_tag_abc.
  - apply nearby_vat_tag_abc.
Qed.

(** *** The boxes are unions *)

Lemma bbox_is_union (t : token) (ts : list token) :
  Box (py_min (x1 t) (map x1 ts)) (py_min (y1 t) (map y1 ts))
      (py_max (x2 t) (map x2 ts)) (py_max (y2 t) (map y2 ts))
  = union_box (tbox t) (map tbox ts).
Proof.
  unfold py_min, py_max, union_box, x1, y1, x2, y2.
  generalize (tbox t) as b.
  induction ts as [|u ts IH]; intros b; cbn [map fold_left].
  - now destruct b.
  - rewrite <- IH. reflexivity.
Qed.

(** *** The value is not negative *)

Lemma lit_match_minus l : l <> ch "-" -> lit_match true l (ch "-") = false.
Proof.
  intros H. destruct (lit_match true l (ch "-")) eqn:E; [|reflexivity].
  apply (icase_minus laws) in E. contradiction.
Qed.

Lemma no_literal_rejects_minus r :
  no_literal (ch "-") r = true -> accepts true r (ch "-") = false.
Proof.
  destruct (minus_plain laws) as [Hs Hd].
  induction r; cbn [no_literal accepts]; intros H; auto.
  - apply lit_match_minus. apply negb_true_iff, N.eqb_neq in H. exact H.
  - induction items as [|i items IH]; [reflexivity|].
    cbn [forallb existsb] in *. apply andb_true_iff in H.
    destruct H as [Hi H].
    rewrite (IH H), orb_false_r.
    destruct i; cbn [citem_match]; auto.
    apply lit_match_minus. apply negb_true_iff, N.eqb_neq in Hi. exact Hi.
  - apply andb_true_iff in H. destruct H as [H1 H2].
    now rewrite IHr1, IHr2.
  - apply andb_true_iff in H. destruct H as [H1 H2].
    now rewrite IHr1, IHr2.
Qed.

Lemma price_match_no_minus txt m :
  search true PRICE_RE txt = Some m -> ~ In (ch "-") (group0 m).
Proof.
  intros H Hin. apply search_group0 in H. destruct H as (_ & _ & _ & F).
  rewrite Forall_forall in F. specialize (F _ Hin).
  rewrite no_literal_rejects_minus in F; [discriminate|].
  vm_compute. reflexivity.
Qed.

Lemma digits_value_nonneg s : forall acc z,
  (0 <= acc)%Z -> digits_value acc s = Some z -> (0 <= z)%Z.
Proof.
  induction s as [|c s IH]; intros acc z Hacc; cbn [digits_value].
  - now intros [= <-].
  - destruct (isdecimal c) eqn:E; [|discriminate].
    apply IH. pose proof (decimal_range laws c E). lia.
Qed.

Lemma unsigned_value_nonneg s q : unsigned_value s = Some q -> (0 <= q)%Q.
Proof.
  unfold unsigned_value. destruct (split_dot s) as [ip [fp|]].
  - assert (Hgo : match digits_value 0 ip, digits_value 0 fp with
                  | Some i, Some f =>
                      Some (inject_Z i
                            + inject_Z f
                              / inject_Z (10 ^ Z.of_nat (length fp)))%Q
                  | _, _ => None
                  end = Some q -> (0 <= q)%Q).
    { destruct (digits_value 0 ip) as [i|] eqn:Ei; [|discriminate].
      destruct (digits_value 0 fp) as [f|] eqn:Ef; [|discriminate].
      intros [= <-].
      apply digits_value_nonneg in Ei; [|lia].
      apply digits_value_nonneg in Ef; [|lia].
      assert (H10 : (0 < 10 ^ Z.of_nat (length fp))%Z)
        by (apply Z.pow_pos_nonneg; lia).
      assert (0 <= inject_Z i)%Q by (rewrite Zle_Qle in Ei; exact Ei).
      assert (0 <= inject_Z f / inject_Z (10 ^ Z.of_nat (length fp)))%Q.
      { apply Qle_shift_div_l.
        - rewrite Zlt_Qlt in H10. exact H10.
        - rewrite Qmult_0_l. rewrite Zle_Qle in Ef. exact Ef. }
      lra. }
    destruct ip, fp; auto; discriminate.
  - destruct ip as [|c ip]; [discriminate|].
    destruct (digits_value 0 (c :: ip)) as [i|] eqn:Ei; [|discriminate].
    intros [= <-]. apply digits_value_nonneg in Ei; [|lia].
    rewrite Zle_Qle in Ei. exact Ei.
Qed.

Lemma round_float_nonneg q :
  (0 <= q)%Q -> pyfloat_nonneg (round_float false q).
Proof.
  intros H. unfold round_float. destruct (Qle_bool float_overflow q); cbn.
  - reflexivity.
  - now rewrite Qred_correct.
Qed.

Lemma py_float_nonneg n v :
  ~ In (ch "-") n -> py_float n = Some v -> pyfloat_nonneg v.
Proof.
  intros Hm. unfold py_float. destruct n as [|c n]; [discriminate|].
  assert (Hc : N.eqb c (ch "-") = false).
  { apply N.eqb_neq. intros ->. apply Hm. now left. }
  rewrite Hc.
  assert (Hgo : forall s,
             option_map (round_float false) (unsigned_value s) = Some v ->
             pyfloat_nonneg v).
  { intros s. destruct (unsigned_value s) as [q|] eqn:E; [|discriminate].
    intros [= <-]. apply round_float_nonneg.
    eapply unsigned_value_nonneg; eauto. }
  destruct (N.eqb c (ch "+")); apply Hgo.
Qed.

Lemma parse_price_value_nonneg raw v :
  ~ In (ch "-") raw ->
  fst (parse_price_value raw) = Some v -> pyfloat_nonneg v.
Proof.
  intros Hm. unfold parse_price_value.
  set (s := strip raw).
  assert (Hs : ~ In (ch "-") s).
  { intros H. apply Hm. now apply strip_incl. }
  match goal with
  | |- context [findall false NUMBER_RE ?x] => set (s' := x)
  end.
  assert (Hs' : ~ In (ch "-") s').
  { subst s'. intros H.
    destruct (Z.ltb _ _); [|destruct (_ && _)].
    - apply replace_char_incl in H. destruct H as [H|[H|[]]]; [|discriminate].
      apply replace_char_incl in H. destruct H as [H|[]]. contradiction.
    - apply replace_char_incl in H. destruct H as [H|[]]. contradiction.
    - apply replace_char_incl in H. destruct H as [H|[H|[]]]; [|discriminate].
      contradiction. }
  destruct (findall false NUMBER_RE s') as [|n rest] eqn:E; cbn [fst];
    [discriminate|].
  apply findall_head in E. destruct E as (m & Hm' & ->).
  apply search_group0 in Hm'. destruct Hm' as (pre & post & Ht & _).
  apply py_float_nonneg. intros H. apply Hs'. rewrite Ht.
  apply in_or_app. right. apply in_or_app. now left.
Qed.

End Invariant.

(** C6 (amended). Every item that the assembler emits has a value that
    is not negative (a rational, or plus infinity when the digits are
    beyond the binary64 range), a tag that is one of A, B, C, a name box
    that is the union of the boxes of its name tokens and a price box
    that is the union of the box of its price token.  The Unicode tables
    are assumed to agree with ASCII on A, B, C and on the minus sign. *)
Theorem items_invariant (U : UnicodeData) (laws : UnicodeLaws U) rows it :
  In it (build_items_from_rows rows) ->
  pyfloat_nonneg (value (price_of it))
  /\ In (vatTag (price_of it)) abc
  /\ exists ridx row pt nt nts,
       nth_error rows ridx = Some row /\ In pt row /\
       rowIndex it = ridx /\
       _find_name_tokens_for_price pt rows ridx = nt :: nts /\
       nameBox it = union_box (tbox nt) (map tbox nts) /\
       priceBox it = union_box (tbox pt) [].
Proof.
  intros H. apply build_items_in in H.
  destruct H as (ridx & row & pt & Hrow & Hpt & _ & H).
  apply candidate_item_some in H.
  destruct H as (tag & nt & nts & m & v & Hr & _ & Hn & _ & _ & Hm & Hv & ->).
  cbn [price_of value vatTag rowIndex nameBox priceBox]. split; [|split].
  - eapply parse_price_value_nonneg; [exact laws| |exact Hv].
    eapply price_match_no_minus; eauto.
  - eapply resolve_vat_abc; eauto.
  - exists ridx, row, pt, nt, nts. rewrite bbox_is_union.
    repeat split; auto.
Qed.

Lemma items_invariant_witness :
  pyfloat_nonneg (value (price_of milch_item))
  /\ In (vatTag (price_of milch_item)) abc
  /\ exists ridx row pt nt nts,
       nth_error [milch_tokens] ridx = Some row /\ In pt row /\
       rowIndex milch_item = ridx /\
       @_find_name_tokens_for_price py_unicode pt [milch_tokens] ridx
       = nt :: nts /\
       nameBox milch_item = union_box (tbox nt) (map tbox nts) /\
       priceBox milch_item = union_box (tbox pt) [].
Proof.
  apply (@items_invariant py_unicode PyUnicodeFacts.py_unicode_laws
           [milch_tokens] milch_item).
  vm_compute. left. reflexivity.
Defined.

(** C6, as stated: a price token of 309 nines and two decimals gives an
    item whose value is infinite. *)
Lemma huge_price_is_infinite :
  exists it,
    @build_items_from_rows py_unicode [huge_price_row] = [it]
    /\ value (price_of it) = Inf false.
Proof.
  eexists. split; [vm_compute; reflexivity|]. reflexivity.
Qed.

(* ================================================================== *)
(** * Further properties: polygons and overlap *)
(* ================================================================== *)

Section Polygons.
Open Scope Q_scope.

Lemma Qmin_cases x y : Qmin x y = x \/ Qmin x y = y.
Proof.
  unfold Qmin, GenericMinMax.gmin. destruct (x ?= y); auto.
Qed.

Lemma Qmax_cases x y : Qmax x y = x \/ Qmax x y = y.
Proof.
  unfold Qmax, GenericMinMax.gmax. destruct (x ?= y); auto.
Qed.

Lemma py_min_le xs : forall x,
  py_min x xs <= x /\ Forall (fun y => py_min x xs <= y) xs.
Proof.
  unfold py_min. induction xs as [|y xs IH]; intros x; cbn [fold_left].
  - split; [apply Qle_refl|constructor].
  - destruct (IH (Qmin x y)) as [H1 H2]. split; [|constructor].
    + eapply Qle_trans; [exact H1|apply Q.le_min_l].
    + eapply Qle_trans; [exact H1|apply Q.le_min_r].
    + exact H2.
Qed.

Lemma py_max_ge xs : forall x,
  x <= py_max x xs /\ Forall (fun y => y <= py_max x xs) xs.
Proof.
  unfold py_max. induction xs as [|y xs IH]; intros x; cbn [fold_left].
  - split; [apply Qle_refl|constructor].
  - destruct (IH (Qmax x y)) as [H1 H2]. split; [|constructor].
    + eapply Qle_trans; [apply Q.le_max_l|exact H1].
    + eapply Qle_trans; [apply Q.le_max_r|exact H1].
    + exact H2.
Qed.

Lemma py_min_in xs : forall x, In (py_min x xs) (x :: xs).
Proof.
  unfold py_min. induction xs as [|y xs IH]; intros x; cbn [fold_left].
  - now left.
  - destruct (IH (Qmin x y)) as [H|H].
    + rewrite <- H. destruct (Qmin_cases x y) as [-> | ->].
      * now left.
      * right. now left.
    + right. now right.
Qed.

Lemma py_max_in xs : forall x, In (py_max x xs) (x :: xs).
Proof.
  unfold py_max. induction xs as [|y xs IH]; intros x; cbn [fold_left].
  - now left.
  - destruct (IH (Qmax x y)) as [H|H].
    + rewrite <- H. destruct (Qmax_cases x y) as [-> | ->].
      * now left.
      * right. now left.
    + right. now right.
Qed.

Lemma column_some k poly : forall cs,
  column k poly = Some cs ->
  Forall2 (fun p c => nth_error p k = Some c) poly cs.
Proof.
  induction poly as [|p poly IH]; intros cs; cbn [column].
  - intros [= <-]. constructor.
  - destruct (nth_error p k) as [c|] eqn:E; [|discriminate].
    destruct (column k poly) as [cs'|]; [|discriminate].
    intros [= <-]. constructor; auto.
Qed.

Lemma column_none k poly :
  column k poly = None <-> Exists (fun p => (length p <= k)%nat) poly.
Proof.
  induction poly as [|p poly IH]; cbn [column].
  - split; [discriminate|]. intros H. inversion H.
  - destruct (nth_error p k) as [c|] eqn:E.
    + assert (Hk : (k < length p)%nat).
      { apply nth_error_Some. congruence. }
      destruct (column k poly) as [cs|].
      * split; [discriminate|]. intros H. exfalso.
        apply Exists_cons in H. destruct H as [H|H]; [lia|].
        apply IH in H. discriminate.
      * split; [|reflexivity]. intros _. right. now apply IH.
    + split; [|reflexivity]. intros _. left. now apply nth_error_None.
Qed.

Lemma Forall2_in_left (A B : Type) (R : A -> B -> Prop) l m a :
  Forall2 R l m -> In a l -> exists b, In b m /\ R a b.
Proof.
  induction 1 as [|x y l m Hxy _ IH]; intros Hin; [destruct Hin|].
  destruct Hin as [<-|Hin].
  - exists y. split; [now left|assumption].
  - destruct (IH Hin) as (b & Hb & Hr). exists b. split; [now right|assumption].
Qed.

Lemma Forall2_in_right (A B : Type) (R : A -> B -> Prop) l m b :
  Forall2 R l m -> In b m -> exists a, In a l /\ R a b.
Proof.
  induction 1 as [|x y l m Hxy _ IH]; intros Hin; [destruct Hin|].
  destruct Hin as [<-|Hin].
  - exists x. split; [now left|assumption].
  - destruct (IH Hin) as (a & Ha & Hr). exists a. split; [now right|assumption].
Qed.

Lemma poly_to_bbox_some poly b :
  poly_to_bbox poly = Some b ->
  exists x xs y ys,
    Forall2 (fun p c => nth_error p 0%nat = Some c) poly (x :: xs) /\
    Forall2 (fun p c => nth_error p 1%nat = Some c) poly (y :: ys) /\
    b = Box (py_min x xs) (py_min y ys) (py_max x xs) (py_max y ys).
Proof.
  unfold poly_to_bbox.
  destruct (column 0 poly) as [xs|] eqn:Ex; [|discriminate].
  destruct (column 1 poly) as [ys|] eqn:Ey; [|discriminate].
  destruct xs as [|x xs]; [discriminate|].
  destruct ys as [|y ys]; [discriminate|].
  intros [= <-]. exists x, xs, y, ys.
  split; [now apply column_some|]. split; [now apply column_some|reflexivity].
Qed.

End Polygons.

(** X1. When [poly_to_bbox] returns a box, every point of the polygon
    has two coordinates and lies in the box, each side of the box passes
    through a point of the polygon, and the corners are in order. *)
Theorem poly_to_bbox_encloses poly b :
  poly_to_bbox poly = Some b ->
  (forall p, In p poly ->
     exists x y rest, p = x :: y :: rest /\ inside b x y)
  /\ (exists p, In p poly /\ nth_error p 0 = Some (bx1 b))
  /\ (exists p, In p poly /\ nth_error p 1 = Some (by1 b))
  /\ (exists p, In p poly /\ nth_error p 0 = Some (bx2 b))
  /\ (exists p, In p poly /\ nth_error p 1 = Some (by2 b))
  /\ ordered b.
Proof.
  intros H. apply poly_to_bbox_some in H.
  destruct H as (x & xs & y & ys & Hx & Hy & ->). cbn [bx1 by1 bx2 by2].
  destruct (py_min_le xs x) as [Hx1 Hx2], (py_max_ge xs x) as [Hx3 Hx4].
  destruct (py_min_le ys y) as [Hy1 Hy2], (py_max_ge ys y) as [Hy3 Hy4].
  assert (Hxs : forall c, In c (x :: xs) -> (py_min x xs <= c <= py_max x xs)%Q).
  { intros c [<-|Hc]; [split; assumption|].
    rewrite Forall_forall in Hx2, Hx4. split; auto. }
  assert (Hys : forall c, In c (y :: ys) -> (py_min y ys <= c <= py_max y ys)%Q).
  { intros c [<-|Hc]; [split; assumption|].
    rewrite Forall_forall in Hy2, Hy4. split; auto. }
  split; [|repeat split].
  - intros p Hp.
    destruct (@Forall2_in_left _ _ _ _ _ _ Hx Hp) as (cx & Hcx & Ex).
    destruct (@Forall2_in_left _ _ _ _ _ _ Hy Hp) as (cy & Hcy & Ey).
    destruct p as [|px [|py rest]]; try discriminate.
    cbn in Ex, Ey. injection Ex as ->. injection Ey as ->.
    exists cx, cy, rest. split; [reflexivity|].
    unfold inside. cbn [bx1 by1 bx2 by2]. split; auto.
  - destruct (@Forall2_in_right _ _ _ _ _ _ Hx (py_min_in xs x)) as (p & Hp & E). eauto.
  - destruct (@Forall2_in_right _ _ _ _ _ _ Hy (py_min_in ys y)) as (p & Hp & E). eauto.
  - destruct (@Forall2_in_right _ _ _ _ _ _ Hx (py_max_in xs x)) as (p & Hp & E). eauto.
  - destruct (@Forall2_in_right _ _ _ _ _ _ Hy (py_max_in ys y)) as (p & Hp & E). eauto.
  - cbn. eapply Qle_trans; eassumption.
  - cbn. eapply Qle_trans; eassumption.
Qed.

Lemma poly_to_bbox_encloses_witness :
  (forall p, In p [[0; 5]; [10; 0]; [12; 7]; [1; 9]]%Q ->
     exists x y rest, p = x :: y :: rest /\ inside (Box 0 0 12 9) x y)
  /\ (exists p, In p [[0; 5]; [10; 0]; [12; 7]; [1; 9]]%Q
                /\ nth_error p 0 = Some (bx1 (Box 0 0 12 9)))
  /\ (exists p, In p [[0; 5]; [10; 0]; [12; 7]; [1; 9]]%Q
                /\ nth_error p 1 = Some (by1 (Box 0 0 12 9)))
  /\ (exists p, In p [[0; 5]; [10; 0]; [12; 7]; [1; 9]]%Q
                /\ nth_error p 0 = Some (bx2 (Box 0 0 12 9)))
  /\ (exists p, In p [[0; 5]; [10; 0]; [12; 7]; [1; 9]]%Q
                /\ nth_error p 1 = Some (by2 (Box 0 0 12 9)))
  /\ ordered (Box 0 0 12 9).
Proof.
  apply (@poly_to_bbox_encloses [[0; 5]; [10; 0]; [12; 7]; [1; 9]]%Q
           (Box 0 0 12 9)).
  vm_compute. reflexivity.
Defined.

(** X2. [poly_to_bbox] raises exactly on a polygon without points and on
    one with a point of less than two coordinates. *)
Theorem poly_to_bbox_raises poly :
  poly_to_bbox poly = None <->
  poly = [] \/ Exists (fun p => length p < 2) poly.
Proof.
  unfold poly_to_bbox.
  destruct (column 0 poly) as [xs|] eqn:Ex.
  - destruct (column 1 poly) as [ys|] eqn:Ey.
    + apply column_some in Ex, Ey.
      assert (N1 : ~ Exists (fun p => length p < 2) poly).
      { intros H. apply Exists_exists in H. destruct H as (p & Hp & Hl).
        destruct (@Forall2_in_left _ _ _ _ _ _ Ey Hp) as (c & _ & E).
        assert (1 < length p) by (apply nth_error_Some; congruence). lia. }
      destruct Ex as [|p x poly xs Hp Ex]; inversion Ey; subst.
      * split; [auto|reflexivity].
      * split; [discriminate|]. intros [E|E]; [discriminate|contradiction].
    + split; [|reflexivity]. intros _. right.
      apply column_none in Ey. eapply Exists_impl; [|exact Ey].
      cbn. intros; lia.
  - split; [|reflexivity]. intros _. right.
    apply column_none in Ex. eapply Exists_impl; [|exact Ex].
    cbn. intros; lia.
Qed.

Section OverlapExtremes.
Open Scope Q_scope.

Lemma vertical_overlap_ratio_apart a b :
  y_apart a b -> vertical_overlap_ratio a b == 0.
Proof.
  intros H. rewrite vertical_overlap_ratio_unfold.
  assert (E : y_inter a b == 0).
  { unfold y_inter. apply Q.max_l.
    destruct (Q.min_spec (by2 a) (by2 b)) as [[H0 ->]|[H0 ->]];
    destruct (Q.max_spec (by1 a) (by1 b)) as [[H1 ->]|[H1 ->]];
    destruct H; lra. }
  destruct (Qltb 0 (y_union a b)); [|reflexivity].
  rewrite E. unfold Qdiv. ring.
Qed.

Lemma vertical_overlap_ratio_nested a b :
  by1 b <= by1 a -> by1 a <= by2 a -> by2 a <= by2 b -> by1 b < by2 b ->
  vertical_overlap_ratio a b == (by2 a - by1 a) / (by2 b - by1 b).
Proof.
  intros H1 H2 H3 H4. rewrite vertical_overlap_ratio_unfold.
  assert (E : y_inter a b == by2 a - by1 a).
  { unfold y_inter. rewrite (Q.min_l _ _ H3), (Q.max_l _ _ H1).
    apply Q.max_r. lra. }
  assert (E' : y_union a b == by2 b - by1 b).
  { unfold y_union. rewrite E. ring. }
  destruct (Qltb 0 (y_union a b)) eqn:Hu.
  - rewrite E, E'. reflexivity.
  - apply Qltb_false in Hu. lra.
Qed.

End OverlapExtremes.

(** X3. The two ends of the scale of [vertical_overlap_ratio]: boxes
    whose y-intervals do not overlap have ratio 0, whatever their
    heights; a box whose y-interval lies within that of another has the
    quotient of the two heights as ratio, so a box of positive height has
    ratio 1 with itself. *)
Theorem vertical_overlap_ratio_extremes a b :
  (y_apart a b -> vertical_overlap_ratio a b == 0)%Q
  /\ ((by1 b <= by1 a)%Q -> (by1 a <= by2 a)%Q -> (by2 a <= by2 b)%Q ->
      (by1 b < by2 b)%Q ->
      vertical_overlap_ratio a b == (by2 a - by1 a) / (by2 b - by1 b))%Q
  /\ ((by1 a < by2 a)%Q -> vertical_overlap_ratio a a == 1)%Q.
Proof.
  split; [apply vertical_overlap_ratio_apart|].
  split; [apply vertical_overlap_ratio_nested|].
  intros H. rewrite vertical_overlap_ratio_nested; try lra.
  field. lra.
Qed.

Lemma vertical_overlap_ratio_extremes_witness :
  (vertical_overlap_ratio (Box 0 0 10 20) (Box 0 20 10 45) == 0)%Q
  /\ (vertical_overlap_ratio (Box 0 5 10 15) (Box 0 0 10 20)
      == (15 - 5) / (20 - 0))%Q
  /\ (vertical_overlap_ratio (Box 0 0 10 20) (Box 0 0 10 20) == 1)%Q.
Proof.
  split; [|split].
  - apply (proj1 (vertical_overlap_ratio_extremes
                    (Box 0 0 10 20) (Box 0 20 10 45))).
    left. vm_compute. discriminate.
  - apply (proj1 (proj2 (vertical_overlap_ratio_extremes
                           (Box 0 5 10 15) (Box 0 0 10 20))));
      vm_compute; try discriminate; reflexivity.
  - apply (proj2 (proj2 (vertical_overlap_ratio_extremes
                           (Box 0 0 10 20) (Box 0 0 10 20)))).
    vm_compute. reflexivity.
Defined.

(* ================================================================== *)
(** * Further properties: token extraction *)
(* ================================================================== *)

Section Extraction.

Lemma poly_to_bbox_ordered poly b : poly_to_bbox poly = Some b -> ordered b.
Proof.
  intros H. apply poly_to_bbox_some in H.
  destruct H as (x & xs & y & ys & _ & _ & ->). split; cbn.
  - eapply Qle_trans; [apply py_min_le|apply py_max_ge].
  - eapply Qle_trans; [apply py_min_le|apply py_max_ge].
Qed.

Lemma bind_returns (A B : Type) (o : outcome A) (f : A -> outcome B) b :
  bind o f = Returns b -> exists a, o = Returns a /\ f a = Returns b.
Proof. destruct o; cbn; [eauto|discriminate|discriminate]. Qed.

Lemma to_float_returns v q : to_float v = Returns q -> v = PNum q.
Proof. destruct v; cbn; try discriminate. now intros [= ->]. Qed.

Lemma bbox_of_points_ordered pts b :
  bbox_of_points pts = Returns b -> ordered b.
Proof.
  unfold bbox_of_points. intros H. apply bind_returns in H.
  destruct H as (qs & _ & H).
  destruct (poly_to_bbox qs) as [b'|] eqn:E; [|discriminate].
  injection H as <-. eapply poly_to_bbox_ordered; eauto.
Qed.

Lemma bbox_of_value_ordered v b : bbox_of_value v = Returns b -> ordered b.
Proof.
  destruct v; cbn [bbox_of_value]; try discriminate;
    apply bbox_of_points_ordered.
Qed.

(** The loop over the entries. *)
Lemma resjson_loop_returns entries : forall toks,
  resjson_loop entries = Returns toks ->
  Forall2 entry_token (filter four_points entries) toks.
Proof.
  induction entries as [|[[txt poly] sv] entries IH]; intros toks;
    cbn [resjson_loop filter].
  - intros [= <-]. constructor.
  - intros H. apply bind_returns in H. destruct H as (s & Hs & H).
    unfold four_points at 1. cbn [fst snd].
    destruct (tolist_if_array poly) as [| | |pts| | |] eqn:Ep; auto.
    destruct (Nat.ltb (length pts) 4) eqn:El.
    + apply Nat.ltb_lt in El.
      replace (Nat.leb 4 (length pts)) with false
        by (symmetry; apply Nat.leb_gt; lia).
      auto.
    + apply Nat.ltb_ge in El.
      replace (Nat.leb 4 (length pts)) with true
        by (symmetry; apply Nat.leb_le; lia).
      apply bind_returns in H. destruct H as (b & Hb & H).
      apply bind_returns in H. destruct H as (out & Hout & H).
      injection H as <-. constructor; [|auto].
      unfold entry_token. cbn [fst snd rtext rbox rscore].
      split; [reflexivity|]. split; [eauto|].
      destruct sv as [v|].
      * apply bind_returns in Hs. destruct Hs as (q & Hq & Hs).
        injection Hs as <-. apply to_float_returns in Hq. eauto.
      * now injection Hs as <-.
Qed.

Lemma resjson_entries_length texts polys scores :
  length (resjson_entries texts polys scores) <= length texts
  /\ length (resjson_entries texts polys scores) <= length polys.
Proof.
  unfold resjson_entries.
  destruct scores as [[|s sc]|];
    rewrite length_map, ?length_combine; lia.
Qed.

Lemma Forall2_filter_length (A B : Type) (R : A -> B -> Prop) f l m :
  Forall2 R (filter f l) m -> length m <= length l.
Proof.
  intros H. apply Forall2_length in H. rewrite <- H. apply filter_length_le.
Qed.

Lemma first_list_some keys d l :
  first_list keys d = Some l ->
  exists k, In k keys /\ dict_lookup k d = Some (PList l).
Proof.
  induction keys as [|k keys IH]; cbn [first_list]; [discriminate|].
  destruct (dict_lookup k d) as [v|] eqn:E.
  - destruct v; try (intros H; destruct (IH H) as (k0 & ? & ?);
                     exists k0; split; [now right|assumption]).
    intros [= ->]. exists k. split; [now left|assumption].
  - intros H. destruct (IH H) as (k0 & ? & ?).
    exists k0; split; [now right|assumption].
Qed.

Lemma first_list_none keys d :
  first_list keys d = None <->
  forall k l, In k keys -> dict_lookup k d <> Some (PList l).
Proof.
  induction keys as [|k keys IH]; cbn [first_list].
  - split; [intros _ k l []|reflexivity].
  - destruct (dict_lookup k d) as [v|] eqn:E.
    + destruct v;
        try (rewrite IH; split;
             [intros H k0 l0 [<-|Hk]; [congruence|now apply H]
             |intros H k0 l0 Hk; apply H; now right]).
      split; [discriminate|]. intros H. exfalso. eapply (H k); [now left|eauto].
    + rewrite IH. split.
      * intros H k0 l0 [<-|Hk]; [congruence|now apply H].
      * intros H k0 l0 Hk. apply H. now right.
Qed.

Lemma first_nested_some keys values l :
  first_nested keys values = Some l ->
  exists v k, In (PDict v) values /\ In k keys
              /\ dict_lookup k v = Some (PList l).
Proof.
  induction values as [|x values IH]; cbn [first_nested]; [discriminate|].
  assert (Hrest : first_nested keys values = Some l ->
                  exists v k, In (PDict v) (x :: values) /\ In k keys
                              /\ dict_lookup k v = Some (PList l)).
  { intros H. destruct (IH H) as (v & k & Hv & Hk & E).
    exists v, k. split; [now right|]. auto. }
  destruct x as [| | | | |v|]; auto.
  destruct (first_list keys v) as [l'|] eqn:E; auto.
  intros [= ->]. apply first_list_some in E. destruct E as (k & Hk & E).
  exists v, k. split; [now left|]. auto.
Qed.

Lemma first_nested_none keys values :
  first_nested keys values = None <->
  forall v k l, In (PDict v) values -> In k keys ->
                dict_lookup k v <> Some (PList l).
Proof.
  induction values as [|x values IH]; cbn [first_nested].
  - split; [intros _ v k l []|reflexivity].
  - assert (Hskip : (forall v, x <> PDict v) ->
                    (first_nested keys values = None <->
                     forall v k l, In (PDict v) (x :: values) -> In k keys ->
                                   dict_lookup k v <> Some (PList l))).
    { intros Hx. rewrite IH. split.
      - intros H v k l [E|Hv]; [now apply Hx in E|now apply H].
      - intros H v k l Hv. apply H. now right. }
    destruct x as [| | | | |v|]; try (apply Hskip; discriminate).
    destruct (first_list keys v) as [l'|] eqn:E.
    + split; [discriminate|]. intros H. exfalso.
      apply first_list_some in E. destruct E as (k & Hk & E).
      eapply (H v k); [now left|assumption|eassumption].
    + rewrite IH. split.
      * intros H v0 k l [[= <-]|Hv] Hk; [|now apply H].
        now apply (proj1 (first_list_none keys v) E).
      * intros H v0 k l Hv. apply H. now right.
Qed.

Lemma in_values (d : list (str * pyval)) v :
  In v (map snd d) <-> exists k, In (k, v) d.
Proof.
  rewrite in_map_iff. split.
  - intros ([k v'] & <- & H). eauto.
  - intros (k & H). exists (k, v). auto.
Qed.

End Extraction.

(** X4. When [extract_tokens_from_resjson] returns and the dict holds a
    list of texts and a list of polygons, the tokens are, one for one and
    in order, those of the indices whose polygon is a list (or an array)
    of at least four points: each has the text of its index as it is,
    the score of its index as a float ([None] without scores) and the box
    of its polygon; there are at most as many tokens as texts and as
    polygons.  When one of the two lists is missing there is no token. *)
Theorem extract_tokens_from_resjson_tokens d toks :
  extract_tokens_from_resjson d = Returns toks ->
  match find_first d text_keys, find_first d poly_keys with
  | Some texts, Some polys =>
      Forall2 entry_token
        (filter four_points
                (resjson_entries texts polys (find_first d score_keys)))
        toks
      /\ length toks <= length texts /\ length toks <= length polys
  | _, _ => toks = []
  end.
Proof.
  unfold extract_tokens_from_resjson.
  fold text_keys score_keys poly_keys.
  destruct (find_first d text_keys) as [texts|];
    [|now intros [= <-]].
  destruct (find_first d poly_keys) as [polys|];
    [|destruct texts; now intros [= <-]].
  intros H.
  assert (Hf : Forall2 entry_token
                 (filter four_points
                    (resjson_entries texts polys (find_first d score_keys)))
                 toks).
  { destruct texts as [|t texts].
    - injection H as <-.
      replace (resjson_entries [] polys (find_first d score_keys))
        with (@nil (pyval * pyval * option pyval)); [constructor|].
      unfold resjson_entries.
      destruct (find_first d score_keys) as [[|? ?]|]; reflexivity.
    - destruct polys as [|p polys].
      + injection H as <-.
        replace (resjson_entries (t :: texts) [] (find_first d score_keys))
          with (@nil (pyval * pyval * option pyval)); [constructor|].
        unfold resjson_entries.
        destruct (find_first d score_keys) as [[|? ?]|]; reflexivity.
      + now apply resjson_loop_returns. }
  split; [exact Hf|].
  apply Forall2_filter_length in Hf.
  destruct (resjson_entries_length texts polys (find_first d score_keys)).
  split; lia.
Qed.

Lemma extract_tokens_from_resjson_tokens_witness :
  match find_first milch_result text_keys,
        find_first milch_result poly_keys with
  | Some texts, Some polys =>
      Forall2 entry_token
        (filter four_points
                (resjson_entries texts polys
                                 (find_first milch_result score_keys)))
        milch_raws
      /\ length milch_raws <= length texts
      /\ length milch_raws <= length polys
  | _, _ => milch_raws = []
  end.
Proof.
  apply (@extract_tokens_from_resjson_tokens milch_result).
  vm_compute. reflexivity.
Defined.

(** X5. [find_first] returns a list that the dict holds under one of the
    keys, at the top or in a value that is a dict, and returns [None]
    only when no key holds a list at either place; without a list of
    texts or without a list of polygons there are no tokens. *)
Theorem find_first_spec d keys :
  (forall l, find_first d keys = Some l ->
             exists k, In k keys /\ holds_list d k l)
  /\ (find_first d keys = None <->
      forall k l, In k keys -> ~ holds_list d k l)
  /\ (find_first d text_keys = None \/ find_first d poly_keys = None ->
      extract_tokens_from_resjson d = Returns []).
Proof.
  unfold find_first, holds_list. split; [|split].
  - intros l. destruct (first_list keys d) as [l'|] eqn:E.
    + intros [= ->]. apply first_list_some in E.
      destruct E as (k & Hk & E). eauto.
    + intros H. apply first_nested_some in H.
      destruct H as (v & k & Hv & Hk & H).
      apply in_values in Hv. destruct Hv as (k' & Hv).
      exists k. split; [assumption|]. right. eauto.
  - destruct (first_list keys d) as [l'|] eqn:E.
    + split; [discriminate|]. intros H. exfalso.
      apply first_list_some in E. destruct E as (k & Hk & E).
      apply (H k l' Hk). now left.
    + rewrite first_nested_none. split.
      * intros H k l Hk [H1|(k' & v & Hv & H2)].
        -- now apply (proj1 (first_list_none keys d) E k l).
        -- apply (H v k l); auto. apply in_values. eauto.
      * intros H v k l Hv Hk E'. apply in_values in Hv.
        destruct Hv as (k' & Hv). apply (H k l Hk). right. eauto.
  - unfold extract_tokens_from_resjson. fold text_keys score_keys poly_keys.
    unfold find_first.
    intros [H|H]; rewrite H; [reflexivity|].
    destruct (match first_list text_keys d with
              | Some l => Some l
              | None => first_nested text_keys (map snd d)
              end) as [[|? ?]|]; reflexivity.
Qed.

Section ExtractionTotal.

Lemma points_of_numeric pts :
  forallb numeric_point pts = true ->
  exists qs, points_of pts = Returns qs /\ length qs = length pts
             /\ Forall (fun p => length p = 2) qs.
Proof.
  induction pts as [|p pts IH]; cbn [forallb points_of].
  - intros _. exists []. repeat split. constructor.
  - intros H. apply andb_true_iff in H. destruct H as [Hp H].
    destruct (IH H) as (qs & -> & Hl & Hq).
    assert (E : exists x y, point_of p = Returns [x; y]).
    { destruct p as [| | |[|[] [|[] ?]]|[|[] [|[] ?]]| |]; try discriminate;
        cbn; eauto. }
    destruct E as (x & y & ->). exists ([x; y] :: qs).
    split; [reflexivity|]. split; [cbn; lia|]. constructor; auto.
Qed.

Lemma poly_to_bbox_total qs :
  qs <> [] -> Forall (fun p => length p = 2) qs ->
  exists b, poly_to_bbox qs = Some b.
Proof.
  intros Hne Hq. unfold poly_to_bbox.
  assert (Hk : forall k, k < 2 -> exists cs, column k qs = Some cs
                                             /\ length cs = length qs).
  { intros k Hk. destruct (column k qs) as [cs|] eqn:E.
    - exists cs. split; [reflexivity|].
      apply column_some in E. symmetry. eapply Forall2_length; eauto.
    - apply column_none in E. apply Exists_exists in E.
      destruct E as (p & Hp & Hl). rewrite Forall_forall in Hq.
      apply Hq in Hp. lia. }
  destruct (Hk 0) as (xs & -> & Hx); [lia|].
  destruct (Hk 1) as (ys & -> & Hy); [lia|].
  destruct qs as [|q qs]; [contradiction|].
  destruct xs as [|x xs]; [discriminate|].
  destruct ys as [|y ys]; [discriminate|]. eauto.
Qed.

Lemma quad_box poly :
  quad poly = true ->
  exists pts b, tolist_if_array poly = PList pts /\ 4 <= length pts
                /\ bbox_of_points pts = Returns b.
Proof.
  unfold quad. destruct (tolist_if_array poly) as [| | |pts| | |];
    try discriminate.
  intros H. apply andb_true_iff in H. destruct H as [Hl Hn].
  apply Nat.leb_le in Hl.
  destruct (points_of_numeric pts Hn) as (qs & Hq & Hlen & Hall).
  destruct (@poly_to_bbox_total qs) as (b & Hb); [|assumption|].
  { intros ->. cbn in Hlen. lia. }
  exists pts, b. split; [reflexivity|]. split; [assumption|].
  unfold bbox_of_points. rewrite Hq. cbn. now rewrite Hb.
Qed.

Lemma resjson_loop_total entries :
  Forall clean_entry entries ->
  exists toks,
    resjson_loop entries = Returns toks
    /\ Forall2 entry_token entries toks
    /\ map rtext toks = map (fun e => fst (fst e)) entries.
Proof.
  induction 1 as [|[[txt poly] sv] entries [Hq Hs] _ IH]; cbn [resjson_loop].
  - exists []. repeat split. constructor.
  - destruct IH as (out & Hout & Hf & Hm). cbn [fst snd] in Hq, Hs.
    destruct (quad_box _ Hq) as (pts & b & Ep & Hl & Hb).
    assert (Es : exists s,
               match sv with
               | Some v => bind (to_float v) (fun q => Returns (Some q))
               | None => Returns None
               end = Returns s
               /\ match sv with
                  | Some v => exists q, v = PNum q /\ s = Some q
                  | None => s = None
                  end).
    { destruct sv as [v|]; [|eauto].
      destruct v; try discriminate. cbn. eauto. }
    destruct Es as (s & -> & Hsc). cbn [bind]. rewrite Ep.
    replace (Nat.ltb (length pts) 4) with false
      by (symmetry; apply Nat.ltb_ge; lia).
    rewrite Hb, Hout. cbn [bind].
    exists (RawToken txt s b :: out). split; [reflexivity|].
    split; [|cbn; now rewrite Hm].
    constructor; [|assumption].
    unfold entry_token. cbn [fst snd rtext rscore rbox].
    split; [reflexivity|]. split; [eauto|exact Hsc].
Qed.

Lemma map_fst_combine (A B : Type) (l : list A) : forall (m : list B),
  map fst (combine l m) = firstn (Nat.min (length l) (length m)) l.
Proof.
  induction l as [|a l IH]; intros [|b m]; cbn; try reflexivity.
  now rewrite IH.
Qed.

Lemma resjson_entries_texts texts polys scores :
  map (fun e => fst (fst e)) (resjson_entries texts polys scores)
  = firstn (length (resjson_entries texts polys scores)) texts.
Proof.
  unfold resjson_entries. destruct scores as [[|s sc]|].
  - rewrite map_map, length_map, length_combine. cbn [fst].
    apply map_fst_combine.
  - rewrite map_map, length_map, !length_combine. cbn [fst].
    rewrite <- (map_map fst fst), map_fst_combine, <- firstn_map.
    rewrite map_fst_combine, length_combine, firstn_firstn. f_equal. lia.
  - rewrite map_map, length_map, length_combine. cbn [fst].
    apply map_fst_combine.
Qed.

Lemma resjson_entries_clean texts polys scores :
  Forall (fun p => quad p = true) polys ->
  match scores with
  | Some sc => Forall (fun v => is_number v = true) sc
  | None => True
  end ->
  Forall clean_entry (resjson_entries texts polys scores).
Proof.
  intros Hp Hs. rewrite Forall_forall in Hp.
  unfold resjson_entries. apply Forall_forall. intros e He.
  destruct scores as [[|s sc]|].
  - apply in_map_iff in He. destruct He as ([t p] & <- & He).
    apply in_combine_r in He. split; cbn; auto.
  - apply in_map_iff in He. destruct He as ([[t p] v] & <- & He).
    rewrite Forall_forall in Hs.
    pose proof (in_combine_r _ _ _ _ He) as Hv.
    apply in_combine_l in He. apply in_combine_r in He.
    split; cbn; auto.
  - apply in_map_iff in He. destruct He as ([t p] & <- & He).
    apply in_combine_r in He. split; cbn; auto.
Qed.

End ExtractionTotal.

(** X6. On parallel lists in which every polygon is a list or an array of
    at least four points that start with two numbers, and every score is
    a number, [extract_tokens_from_resjson] returns one token for each
    index below the shortest length, in order, with the text of that
    index; without scores that is [min(len(texts), len(polys))]
    tokens. *)
Theorem extract_tokens_from_resjson_returns d texts polys :
  find_first d text_keys = Some texts ->
  find_first d poly_keys = Some polys ->
  Forall (fun p => quad p = true) polys ->
  match find_first d score_keys with
  | Some sc => Forall (fun v => is_number v = true) sc
  | None => True
  end ->
  exists toks,
    extract_tokens_from_resjson d = Returns toks
    /\ Forall2 entry_token
         (resjson_entries texts polys (find_first d score_keys)) toks
    /\ map rtext toks = firstn (length toks) texts
    /\ (find_first d score_keys = None ->
        length toks = Nat.min (length texts) (length polys)).
Proof.
  intros Ht Hp Hq Hs.
  destruct (resjson_loop_total
              (@resjson_entries_clean texts polys
                 (find_first d score_keys) Hq Hs))
    as (toks & Hr & Hf & Hm).
  assert (Hlen : length toks
                 = length (resjson_entries texts polys
                                           (find_first d score_keys))).
  { symmetry. eapply Forall2_length; eauto. }
  assert (Hmin : find_first d score_keys = None ->
                 length (resjson_entries texts polys (find_first d score_keys))
                 = Nat.min (length texts) (length polys)).
  { intros ->. unfold resjson_entries. now rewrite length_map, length_combine. }
  unfold extract_tokens_from_resjson.
  fold text_keys score_keys poly_keys. rewrite Ht, Hp.
  destruct texts as [|t texts].
  { exists []. cbn in Hlen.
    destruct (find_first d score_keys) as [[|? ?]|]; cbn in Hlen;
      destruct toks; try discriminate; repeat split; auto. }
  destruct polys as [|p polys].
  { exists [].
    assert (E : resjson_entries (t :: texts) [] (find_first d score_keys) = []).
    { unfold resjson_entries.
      destruct (find_first d score_keys) as [[|? ?]|]; reflexivity. }
    rewrite E in *. destruct toks; [|discriminate]. repeat split; auto. }
  exists toks. split; [exact Hr|]. split; [exact Hf|].
  split; [|intros E; rewrite Hlen; auto].
  rewrite Hm, Hlen. apply resjson_entries_texts.
Qed.

Lemma extract_tokens_from_resjson_returns_witness :
  exists toks,
    extract_tokens_from_resjson milch_result = Returns toks
    /\ Forall2 entry_token
         (resjson_entries
            [PStr (lit "Milch"); PStr (lit "2,49"); PStr (lit "A")]
            [square 0 0 80 20; PArray (square 200 0 240 20);
             square 245 0 255 20]
            (find_first milch_result score_keys)) toks
    /\ map rtext toks
       = firstn (length toks)
                [PStr (lit "Milch"); PStr (lit "2,49"); PStr (lit "A")]
    /\ (find_first milch_result score_keys = None ->
        length toks = Nat.min 3 3).
Proof.
  apply (@extract_tokens_from_resjson_returns milch_result
           [PStr (lit "Milch"); PStr (lit "2,49"); PStr (lit "A")]
           [square 0 0 80 20; PArray (square 200 0 240 20);
            square 245 0 255 20]).
  - vm_compute. reflexivity.
  - vm_compute. reflexivity.
  - repeat constructor.
  - vm_compute. repeat constructor.
Defined.

Section Generic.

Lemma resjson_boxes d toks :
  extract_tokens_from_resjson d = Returns toks ->
  Forall (fun t => ordered (rbox t)) toks.
Proof.
  unfold extract_tokens_from_resjson.
  destruct (find_first d [lit "rec_texts"; lit "texts"]) as [[|t texts]|];
    try (intros [= <-]; constructor).
  destruct (find_first d [lit "rec_polys"; lit "polys"; lit "dt_polys"])
    as [[|p polys]|]; try (intros [= <-]; constructor).
  intros H. apply resjson_loop_returns in H.
  induction H as [|e t' es ts He _ IH]; constructor; [|assumption].
  destruct He as (_ & (pts & _ & Hb) & _).
  eapply bbox_of_points_ordered; eauto.
Qed.

Lemma generic_loop_returns entries : forall toks,
  generic_loop entries = Returns toks ->
  Forall (fun t => ordered (rbox t)) toks /\ length toks <= length entries.
Proof.
  induction entries as [|entry entries IH]; intros toks; cbn [generic_loop].
  - intros [= <-]. split; [constructor|reflexivity].
  - assert (Hskip : generic_loop entries = Returns toks ->
                    Forall (fun t => ordered (rbox t)) toks
                    /\ length toks <= length (entry :: entries)).
    { intros H. destruct (IH _ H). split; [assumption|cbn; lia]. }
    destruct (sequence entry) as [[|poly [|ts [|? ?]]]|]; auto.
    destruct (sequence ts) as [[|txt more]|]; auto.
    intros H. apply bind_returns in H. destruct H as (s & _ & H).
    destruct (bbox_of_value (tolist_if_array poly)) as [b| |] eqn:Eb;
      [|auto|discriminate].
    apply bind_returns in H. destruct H as (out & Hout & H).
    injection H as <-. destruct (IH _ Hout) as [Hf Hl].
    split; [|cbn; lia]. constructor; [|assumption].
    cbn [rbox]. eapply bbox_of_value_ordered; eauto.
Qed.

Lemma generic_loop_total entries :
  (forall entry poly ts txt v more,
     In entry entries -> sequence entry = Some [poly; ts] ->
     sequence ts = Some (txt :: v :: more) -> is_number v = true) ->
  (forall entry poly ts,
     In entry entries -> sequence entry = Some [poly; ts] ->
     bbox_of_value (tolist_if_array poly) <> Outside) ->
  exists toks, generic_loop entries = Returns toks.
Proof.
  induction entries as [|entry entries IH]; intros Hs Hp; cbn [generic_loop];
    [eauto|].
  assert (IH' : exists toks, generic_loop entries = Returns toks).
  { apply IH.
    - intros e poly ts txt v more He. apply Hs. now right.
    - intros e poly ts He. apply Hp. now right. }
  destruct (sequence entry) as [[|poly [|ts [|? ?]]]|] eqn:Ee; auto.
  destruct (sequence ts) as [[|txt more]|] eqn:Et; auto.
  assert (Hv : exists s,
             match more with
             | v :: _ => bind (to_float v) (fun q => Returns (Some q))
             | [] => Returns None
             end = Returns s).
  { destruct more as [|v more]; [eauto|].
    specialize (Hs entry poly ts txt v more (or_introl eq_refl) Ee Et).
    destruct v; try discriminate. cbn. eauto. }
  destruct Hv as (s & ->). cbn [bind].
  specialize (Hp entry poly ts (or_introl eq_refl) Ee).
  destruct (bbox_of_value (tolist_if_array poly)) as [b| |];
    [|assumption|contradiction].
  destruct IH' as (out & ->). cbn [bind]. eauto.
Qed.

End Generic.

(** X7. Every token that [extract_tokens_from_generic] returns, from a
    dict or from a list of pairs, has a box with [x1 <= x2] and
    [y1 <= y2]; a list or tuple of entries gives at most one token per
    entry, and a result that is neither a dict nor a list nor a tuple
    gives none. *)
Theorem extract_tokens_from_generic_boxes result toks :
  extract_tokens_from_generic result = Returns toks ->
  Forall (fun t => ordered (rbox t)) toks
  /\ (forall entries, sequence result = Some entries ->
                      length toks <= length entries)
  /\ (sequence result = None -> (forall d, result <> PDict d) -> toks = []).
Proof.
  intros H. split; [|split].
  - destruct result; cbn [extract_tokens_from_generic] in H;
      try (injection H as <-; constructor).
    + now apply generic_loop_returns in H.
    + now apply generic_loop_returns in H.
    + eapply resjson_boxes; eauto.
  - intros entries E.
    destruct result; cbn [sequence] in E; try discriminate;
      injection E as ->; cbn [extract_tokens_from_generic] in H;
      now apply generic_loop_returns in H.
  - intros E Hd.
    destruct result; cbn [sequence] in E; try discriminate;
      cbn [extract_tokens_from_generic] in H; try (now injection H).
    exfalso. eapply Hd; eauto.
Qed.

Lemma extract_tokens_from_generic_boxes_witness :
  Forall (fun t => ordered (rbox t))
         [RawToken (PStr (lit "Milch")) (Some (9 # 10)%Q) (Box 0 0 80 20)]
  /\ (forall entries,
        sequence (PList [PTuple [square 0 0 80 20;
                                 PTuple [PStr (lit "Milch"); PNum (9 # 10)]];
                         PList [PNone; PList [PStr (lit "x")]]])
        = Some entries ->
        1 <= length entries)
  /\ (sequence (PList [PTuple [square 0 0 80 20;
                               PTuple [PStr (lit "Milch"); PNum (9 # 10)]];
                       PList [PNone; PList [PStr (lit "x")]]]) = None ->
      (forall d,
         PList [PTuple [square 0 0 80 20;
                        PTuple [PStr (lit "Milch"); PNum (9 # 10)]];
                PList [PNone; PList [PStr (lit "x")]]] <> PDict d) ->
      [RawToken (PStr (lit "Milch")) (Some (9 # 10)%Q) (Box 0 0 80 20)] = []).
Proof.
  apply (@extract_tokens_from_generic_boxes
           (PList [PTuple [square 0 0 80 20;
                           PTuple [PStr (lit "Milch"); PNum (9 # 10)]];
                   PList [PNone; PList [PStr (lit "x")]]])).
  vm_compute. reflexivity.
Defined.

(** X8. In a list of pairs a polygon that cannot be reduced to a box
    ([None], a number, a string, no point at all, a point with less than
    two coordinates) is skipped and does not make
    [extract_tokens_from_generic] fail: when the scores are numbers the
    function returns, whatever the polygons within the description are. *)
Theorem generic_loop_skips_bad_polygons entries :
  (forall entry poly ts txt v more,
     In entry entries -> sequence entry = Some [poly; ts] ->
     sequence ts = Some (txt :: v :: more) -> is_number v = true) ->
  (forall entry poly ts,
     In entry entries -> sequence entry = Some [poly; ts] ->
     bbox_of_value (tolist_if_array poly) <> Outside) ->
  exists toks,
    extract_tokens_from_generic (PList entries) = Returns toks
    /\ extract_tokens_from_generic (PTuple entries) = Returns toks.
Proof.
  intros Hs Hp. destruct (generic_loop_total entries Hs Hp) as (toks & H).
  exists toks. cbn [extract_tokens_from_generic]. split; exact H.
Qed.

Lemma generic_loop_skips_bad_polygons_witness :
  exists toks,
    extract_tokens_from_generic (PList bad_polygon_entries) = Returns toks
    /\ extract_tokens_from_generic (PTuple bad_polygon_entries)
       = Returns toks.
Proof.
  apply (@generic_loop_skips_bad_polygons bad_polygon_entries).
  - intros entry poly ts txt v more [<-|[<-|[<-|[<-|[]]]]] E1 E2;
      injection E1 as <- <-; injection E2 as <- <- <-; reflexivity.
  - intros entry poly ts [<-|[<-|[<-|[<-|[]]]]] E1;
      injection E1 as <- <-; vm_compute; discriminate.
Defined.

(* ================================================================== *)
(** * Further properties: deduplication and the confidence filter *)
(* ================================================================== *)

Section Subsequences.
Variable A : Type.

Lemma subseq_refl (l : list A) : subseq l l.
Proof. induction l; constructor; assumption. Qed.

Lemma subseq_snoc_keep (l m : list A) x :
  subseq l m -> subseq (l ++ [x]) (m ++ [x]).
Proof.
  induction 1; cbn.
  - repeat constructor.
  - now constructor.
  - now constructor.
Qed.

Lemma subseq_snoc_drop (l m : list A) x : subseq l m -> subseq l (m ++ [x]).
Proof.
  induction 1; cbn.
  - repeat constructor.
  - now constructor.
  - now constructor.
Qed.

Lemma subseq_filter (f : A -> bool) (l : list A) : subseq (filter f l) l.
Proof.
  induction l as [|x l IH]; cbn; [constructor|].
  destruct (f x); now constructor.
Qed.

Lemma subseq_length (l m : list A) : subseq l m -> length l <= length m.
Proof. induction 1; cbn; lia. Qed.

Lemma subseq_trans (l m n : list A) : subseq l m -> subseq m n -> subseq l n.
Proof.
  intros H1 H2. revert l H1.
  induction H2 as [|x m n H2 IH|x m n H2 IH]; intros l H1.
  - assumption.
  - inversion H1; subst.
    + constructor. auto.
    + constructor. auto.
  - constructor. auto.
Qed.

Lemma snoc_split (a : list A) x l1 t l2 :
  a ++ [x] = l1 ++ t :: l2 ->
  (l2 = [] /\ a = l1 /\ x = t)
  \/ exists l2', l2 = l2' ++ [x] /\ a = l1 ++ t :: l2'.
Proof.
  intros H. destruct (@exists_last _ (t :: l2)) as (init & y & E);
    [discriminate|].
  rewrite E, app_assoc in H. apply app_inj_tail in H. destruct H as [-> ->].
  destruct l2 as [|z l2].
  - left. destruct init as [|? [|? ?]]; try discriminate.
    injection E as ->. rewrite app_nil_r. auto.
  - right. destruct init as [|i init]; [destruct l2; discriminate|].
    injection E as <- E. exists init. rewrite E. auto.
Qed.

End Subsequences.

Section DedupeMore.
Context {U : UnicodeData}.

Lemma dedupe_subseq l : subseq (dedupe l) l.
Proof.
  induction l as [|t l IH] using rev_ind; [constructor|].
  rewrite dedupe_snoc. destruct (dedupe_skip t (dedupe l)).
  - now apply subseq_snoc_drop.
  - now apply subseq_snoc_keep.
Qed.

Lemma dedupe_loop_prefix l : forall acc,
  exists rest,
    fold_left (fun deduped t =>
                 if dedupe_skip t deduped then deduped else deduped ++ [t])
              l acc = acc ++ rest.
Proof.
  induction l as [|t l IH]; intros acc; cbn [fold_left].
  - exists []. now rewrite app_nil_r.
  - destruct (dedupe_skip t acc).
    + apply IH.
    + destruct (IH (acc ++ [t])) as (rest & ->). exists (t :: rest).
      now rewrite <- app_assoc.
Qed.

Lemma dedupe_head t l : exists rest, dedupe (t :: l) = t :: rest.
Proof.
  unfold dedupe. cbn [fold_left dedupe_skip app].
  destruct (dedupe_loop_prefix l [t]) as (rest & ->). now exists rest.
Qed.

(** No accepted token makes a later accepted token a duplicate. *)
Lemma dedupe_not_skipped l : forall l1 t l2,
  dedupe l = l1 ++ t :: l2 -> dedupe_skip t l1 = false.
Proof.
  induction l as [|x l IH] using rev_ind; intros l1 t l2.
  - destruct l1; discriminate.
  - rewrite dedupe_snoc. destruct (dedupe_skip x (dedupe l)) eqn:E.
    + apply IH.
    + intros H. apply snoc_split in H.
      destruct H as [(_ & <- & <-)|(l2' & _ & H)]; [exact E|eauto].
Qed.

Lemma dedupe_fixpoint m :
  (forall l1 t l2, m = l1 ++ t :: l2 -> dedupe_skip t l1 = false) ->
  dedupe m = m.
Proof.
  induction m as [|x m IH] using rev_ind; intros H; [reflexivity|].
  rewrite dedupe_snoc, IH.
  - rewrite (H m x []); [reflexivity|reflexivity].
  - intros l1 t l2 ->. apply (H l1 t (l2 ++ [x])).
    now rewrite <- app_assoc.
Qed.

End DedupeMore.

(** X9. Deduplication only leaves tokens out: the tokens it keeps are
    tokens of the input in the order of the input, and the first token of
    the input is always kept. *)
Theorem dedupe_keeps_order (U : UnicodeData) l :
  subseq (dedupe l) l
  /\ length (dedupe l) <= length l
  /\ (forall t rest, l = t :: rest -> exists kept, dedupe l = t :: kept).
Proof.
  split; [apply dedupe_subseq|]. split.
  - apply subseq_length, dedupe_subseq.
  - intros t rest ->. apply dedupe_head.
Qed.

(** X10. Among the tokens that deduplication keeps, no token has a
    vertical overlap above 0.6 with a token kept before it and either the
    same trimmed text, or a trimmed text that is a part of the text of
    the earlier token while that text is longer than its own text, the
    lengths being those of the texts as they are.  A kept token whose
    text has no blanks around it is therefore no duplicate, in the sense
    of the specification, of a token kept before it.  A second
    deduplication changes nothing. *)
Theorem dedupe_idempotent (U : UnicodeData) l :
  (forall l1 t l2 u,
     dedupe l = l1 ++ t :: l2 -> In u l1 ->
     (6 # 10 < vertical_overlap_ratio (tbox t) (tbox u))%Q ->
     strip (text t) <> strip (text u)
     /\ ((exists pre post, text u = pre ++ strip (text t) ++ post) ->
         length (text u) <= length (text t)))
  /\ (forall l1 t l2 u,
        dedupe l = l1 ++ t :: l2 -> In u l1 -> strip (text t) = text t ->
        ~ duplicate_of t u)
  /\ dedupe (dedupe l) = dedupe l.
Proof.
  assert (Hkept : forall l1 t l2 u,
            dedupe l = l1 ++ t :: l2 -> In u l1 -> ~ skipped_for t u).
  { intros l1 t l2 u H Hu Hd. apply dedupe_not_skipped in H.
    assert (E : dedupe_skip t l1 = true) by (apply dedupe_skip_iff; eauto).
    congruence. }
  split; [|split].
  - intros l1 t l2 u H Hu Hv. pose proof (Hkept l1 t l2 u H Hu) as Hn.
    split.
    + intros E. apply Hn. split; [assumption|now left].
    + intros Hsub. apply Nat.nlt_ge. intros Hlen. apply Hn.
      split; [assumption|]. right. split; assumption.
  - intros l1 t l2 u H Hu Ht Hd. apply (Hkept l1 t l2 u H Hu).
    now apply duplicate_is_skipped.
  - apply dedupe_fixpoint. apply dedupe_not_skipped.
Qed.

Section ConfidenceFilter.
Open Scope Q_scope.

Lemma confidence_filter_in m tokens t :
  In t (confidence_filter m tokens) <->
  In t tokens /\ (m <= 0 \/ match score t with
                            | None => True
                            | Some s => m <= s
                            end).
Proof.
  unfold confidence_filter. destruct (Qltb 0 m) eqn:E.
  - apply Qltb_true in E. rewrite filter_In. split.
    + intros [Ht Hs]. split; [assumption|]. right.
      destruct (score t); [now apply Qle_bool_iff|exact I].
    + intros [Ht [Hm|Hs]]; [lra|]. split; [assumption|].
      destruct (score t); [now apply Qle_bool_iff|reflexivity].
  - apply Qltb_false in E. split; [auto|]. now intros [Ht _].
Qed.

End ConfidenceFilter.

(** X11. The confidence filter never drops a token without a score; a
    threshold of 0 or below keeps every token; raising the threshold
    only removes tokens; and what is kept stays in the order of the
    input. *)
Theorem confidence_filter_spec m tokens :
  (forall t, In t tokens -> score t = None ->
             In t (confidence_filter m tokens))
  /\ ((m <= 0)%Q -> confidence_filter m tokens = tokens)
  /\ (forall m' t, (m' <= m)%Q -> In t (confidence_filter m tokens) ->
                   In t (confidence_filter m' tokens))
  /\ subseq (confidence_filter m tokens) tokens.
Proof.
  split; [|split; [|split]].
  - intros t Ht Hs. apply confidence_filter_in. split; [assumption|].
    right. now rewrite Hs.
  - intros H. unfold confidence_filter.
    now rewrite (proj2 (Qltb_false 0 m) H).
  - intros m' t Hm H. apply confidence_filter_in in H.
    apply confidence_filter_in. destruct H as [Ht [H|H]].
    + split; [assumption|]. left. eapply Qle_trans; eauto.
    + split; [assumption|]. right.
      destruct (score t); [eapply Qle_trans; eauto|exact I].
  - unfold confidence_filter. destruct (Qltb 0 m).
    + apply subseq_filter.
    + apply subseq_refl.
Qed.

(* ================================================================== *)
(** * Further properties: one image *)
(* ================================================================== *)

Section RowsMore.

Lemma group_rows_returns tokens :
  exists rows, group_rows tokens = Some rows
               /\ Permutation (concat rows) tokens
               /\ Forall (fun r => r <> []) rows.
Proof.
  unfold group_rows, group_rows_with.
  destruct (place_loop_total (45 # 100) (sorted key_yx_lt tokens) (rows := []))
    as (rows & -> & Hp & Hne); [constructor|].
  cbn [option_map]. eexists; split; [reflexivity|]. split.
  - rewrite concat_map_perm by apply sorted_perm.
    rewrite Hp. cbn [concat]. rewrite app_nil_r. apply sorted_perm.
  - rewrite Forall_map. eapply Forall_impl; [|exact Hne].
    intros r. apply sorted_nonempty.
Qed.

End RowsMore.

Section ItemCount.
Context {U : UnicodeData}.

Lemma row_candidates_length rows ridx row :
  length (row_candidates rows ridx row) <= length (filter is_price_text row).
Proof.
  unfold row_candidates.
  induction (filter is_price_text row) as [|pt pts IH]; cbn [flat_map];
    [reflexivity|].
  rewrite length_app.
  destruct (candidate_item rows ridx (_is_unit_price_context row) pt);
    cbn [option_list length]; lia.
Qed.

Lemma candidates_length rows todo : forall k,
  length (flat_map (fun p => row_candidates rows (fst p) (snd p))
                   (combine (seq k (length todo)) todo))
  <= length (filter is_price_text (concat todo)).
Proof.
  induction todo as [|row todo IH]; intros k;
    cbn [length seq combine flat_map concat]; [reflexivity|].
  rewrite filter_app, !length_app. cbn [fst snd].
  pose proof (row_candidates_length rows k row). specialize (IH (S k)). lia.
Qed.

Lemma build_items_length rows :
  length (build_items_from_rows rows)
  <= length (filter is_price_text (concat rows)).
Proof. rewrite build_items_spec. apply candidates_length. Qed.

Lemma tokens_from_returns raws : forall i toks,
  tokens_from i raws = Returns toks ->
  map tid toks = seq i (length raws)
  /\ map tbox toks = map rbox raws
  /\ map score toks = map rscore raws.
Proof.
  induction raws as [|r raws IH]; intros i toks; cbn [tokens_from].
  - intros [= <-]. auto.
  - intros H. apply bind_returns in H. destruct H as (s & _ & H).
    apply bind_returns in H. destruct H as (more & Hm & H).
    injection H as <-. destruct (IH _ _ Hm) as (H1 & H2 & H3).
    cbn. now rewrite H1, H2, H3.
Qed.

Lemma tokens_from_total raws : forall i,
  Forall (fun r => plain_text (rtext r) = true) raws ->
  exists toks, tokens_from i raws = Returns toks.
Proof.
  induction raws as [|r raws IH]; intros i H; cbn [tokens_from]; [eauto|].
  inversion H as [|? ? Hr Hrest]; subst.
  destruct (IH (S i) Hrest) as (more & ->).
  destruct (rtext r); try discriminate; cbn; eauto.
Qed.

End ItemCount.

(** X12. The payload of an image counts its own contents: [itemCount] is
    the number of items, there are at most as many items as tokens
    counted in [meta], and at most as many tokens counted as extraction
    gave; only the payload for no OCR result at all has no [meta], and
    it has no item. *)
Theorem process_image_counts (U : UnicodeData) source m results p :
  process_image source m results = Returns p ->
  itemCount p = length (items_of p)
  /\ match meta p with
     | Some (src, tokenCount) =>
         src = source /\ itemCount p <= tokenCount
         /\ exists raws, collect_tokens results = Returns raws
                         /\ tokenCount <= length raws
     | None => results = [] /\ items_of p = []
     end.
Proof.
  unfold process_image. destruct results as [|res results].
  { intros [= <-]. cbn. auto. }
  intros H. apply bind_returns in H. destruct H as (raws & Hraws & H).
  apply bind_returns in H. destruct H as (toks & Htoks & H).
  destruct (group_rows_returns (dedupe (confidence_filter m toks)))
    as (rows & Hrows & Hperm & Hne).
  rewrite Hrows in H. injection H as <-. cbn [itemCount items_of meta].
  split; [reflexivity|]. split; [reflexivity|]. split.
  - eapply Nat.le_trans; [apply build_items_length|].
    eapply Nat.le_trans; [apply filter_length_le|].
    now rewrite (Permutation_length Hperm).
  - exists raws. split; [exact Hraws|].
    eapply Nat.le_trans; [apply subseq_length, dedupe_subseq|].
    assert (Hl : length toks = length raws).
    { apply tokens_from_returns in Htoks. destruct Htoks as (_ & Hb & _).
      rewrite <- (length_map tbox), Hb. apply length_map. }
    rewrite <- Hl. unfold confidence_filter.
    destruct (Qltb 0 m); [apply filter_length_le|reflexivity].
Qed.

Lemma process_image_counts_witness :
  itemCount milch_payload
  = length (items_of milch_payload)
  /\ match meta milch_payload with
     | Some (src, tokenCount) =>
         src = lit "a.jpg"
         /\ itemCount milch_payload <= tokenCount
         /\ exists raws,
              collect_tokens [PDict milch_result] = Returns raws
              /\ tokenCount <= length raws
     | None =>
         [PDict milch_result] = []
         /\ items_of milch_payload = []
     end.
Proof.
  apply (@process_image_counts py_unicode (lit "a.jpg") 0
           [PDict milch_result]).
  vm_compute. reflexivity.
Defined.

(** X13. Once the tokens are extracted and their texts are strings or
    [None], the rest of [process_image] cannot fail: the confidence
    filter, the deduplication, the grouping into rows and the item
    assembly give a payload, for every threshold. *)
Theorem process_image_returns (U : UnicodeData) source m results raws :
  collect_tokens results = Returns raws ->
  Forall (fun r => plain_text (rtext r) = true) raws ->
  exists p, process_image source m results = Returns p.
Proof.
  intros Hc Hp. unfold process_image.
  destruct results as [|res results]; [eauto|].
  rewrite Hc. cbn [bind].
  destruct (tokens_from_total 0 Hp) as (toks & ->). cbn [bind].
  destruct (group_rows_returns (dedupe (confidence_filter m toks)))
    as (rows & -> & _). eauto.
Qed.

Lemma process_image_returns_witness :
  exists p, @process_image py_unicode (lit "a.jpg") 0 [PDict milch_result]
            = Returns p.
Proof.
  apply (@process_image_returns py_unicode (lit "a.jpg") 0
           [PDict milch_result] milch_raws).
  - vm_compute. reflexivity.
  - repeat constructor.
Defined.

(* ================================================================== *)
(** * Further properties: the item list *)
(* ================================================================== *)

Section ItemList.
Context {U : UnicodeData}.

Lemma candidate_item_unit rows ridx ctx pt it :
  candidate_item rows ridx ctx pt = Some it ->
  ctx = false /\ is_unit_text pt = false /\ rowIndex it = ridx.
Proof.
  intros H. pose proof (candidate_item_some _ _ _ _ H) as Hs.
  destruct Hs as (tag & nt & nts & m & v & _ & _ & _ & _ & _ & _ & _ & ->).
  unfold candidate_item in H.
  destruct (negb (truthy (resolve_vat pt rows ridx))); [discriminate|].
  unfold is_unit_text.
  destruct ctx; [discriminate|].
  destruct (found (search true UNIT_PRICE_RE (text pt))); [discriminate|].
  auto.
Qed.

Lemma row_candidates_index rows ridx row it :
  In it (row_candidates rows ridx row) -> rowIndex it = ridx.
Proof.
  unfold row_candidates. intros H. apply in_flat_map in H.
  destruct H as (pt & _ & H).
  destruct (candidate_item rows ridx (_is_unit_price_context row) pt)
    as [it'|] eqn:E; [|destruct H].
  destruct H as [<-|[]]. now apply candidate_item_unit in E.
Qed.

Lemma StronglySorted_app (A : Type) (R : A -> A -> Prop) l1 l2 :
  StronglySorted R l1 -> StronglySorted R l2 ->
  (forall a b, In a l1 -> In b l2 -> R a b) ->
  StronglySorted R (l1 ++ l2).
Proof.
  induction 1 as [|a l1 Hs IH Ha]; intros H2 H; cbn; [assumption|].
  constructor.
  - apply IH; [assumption|]. intros x y Hx. apply H. now right.
  - apply Forall_app. split; [assumption|].
    apply Forall_forall. intros y Hy. apply H; [now left|assumption].
Qed.

Lemma StronglySorted_const (A : Type) (R : A -> A -> Prop) (l : list A) :
  (forall a b, In a l -> In b l -> R a b) -> StronglySorted R l.
Proof.
  induction l as [|a l IH]; intros H; constructor.
  - apply IH. intros x y Hx Hy. apply H; now right.
  - apply Forall_forall. intros y Hy. apply H; [now left|now right].
Qed.

Lemma candidates_sorted rows todo : forall k,
  StronglySorted (fun a b => rowIndex a <= rowIndex b)
    (flat_map (fun p => row_candidates rows (fst p) (snd p))
              (combine (seq k (length todo)) todo))
  /\ Forall (fun it => k <= rowIndex it < k + length todo)
       (flat_map (fun p => row_candidates rows (fst p) (snd p))
                 (combine (seq k (length todo)) todo)).
Proof.
  induction todo as [|row todo IH]; intros k;
    cbn [length seq combine flat_map fst snd].
  - split; constructor.
  - destruct (IH (S k)) as [Hs Hf]. rewrite Forall_forall in Hf. split.
    + apply StronglySorted_app; [|assumption|].
      * apply StronglySorted_const. intros a b Ha Hb.
        apply row_candidates_index in Ha, Hb. lia.
      * intros a b Ha Hb. apply row_candidates_index in Ha.
        apply Hf in Hb. lia.
    + apply Forall_app. split; apply Forall_forall; intros it Hit.
      * apply row_candidates_index in Hit. lia.
      * apply Hf in Hit. lia.
Qed.

Lemma lit_match_self icase l : lit_match icase l l = true.
Proof.
  unfold lit_match. destruct icase; [|apply N.eqb_refl].
  cbn. now rewrite N.eqb_refl.
Qed.

Lemma run_word_self icase w : forall s tail,
  w <> [] -> after s = w ++ tail ->
  In (MState (rev w ++ before s) tail (caps s)) (run icase (Word w) s).
Proof.
  induction w as [|c w IH]; intros s tail Hne Ha; [contradiction|].
  destruct w as [|c' w].
  - cbn [Word run rev app]. apply step1_in; [exact Ha|apply lit_match_self].
  - change (Word (c :: c' :: w)) with (Cat (Lit c) (Word (c' :: w))).
    apply in_run_cat. exists (MState (c :: before s) ((c' :: w) ++ tail) (caps s)).
    split.
    + cbn [run]. apply step1_in; [exact Ha|apply lit_match_self].
    + specialize (IH (MState (c :: before s) ((c' :: w) ++ tail) (caps s)) tail).
      cbn [before after caps] in IH.
      replace (rev (c :: c' :: w) ++ before s)
        with (rev (c' :: w) ++ c :: before s)
        by (cbn [rev]; now rewrite <- !app_assoc).
      apply IH; [discriminate|reflexivity].
Qed.

Lemma in_run_alts icase a l s s' :
  In a l -> In s' (run icase a s) -> In s' (run icase (Alts l) s).
Proof.
  induction l as [|b l IH]; intros Hin Hr; [destruct Hin|].
  destruct l as [|b' l].
  - destruct Hin as [<-|[]]. exact Hr.
  - change (Alts (b :: b' :: l)) with (Alt b (Alts (b' :: l))).
    cbn [run]. apply in_or_app. destruct Hin as [<-|Hin]; [now left|].
    right. now apply IH.
Qed.

Lemma join_in (sp x : str) parts :
  In x parts -> exists P Q, join sp parts = P ++ x ++ Q.
Proof.
  induction parts as [|p parts IH]; intros Hin; [destruct Hin|].
  destruct parts as [|q parts].
  - destruct Hin as [<-|[]]. exists [], []. cbn. now rewrite app_nil_r.
  - change (join sp (p :: q :: parts)) with (p ++ sp ++ join sp (q :: parts)).
    destruct Hin as [<-|Hin].
    + exists [], (sp ++ join sp (q :: parts)). reflexivity.
    + destruct (IH Hin) as (P & Q & ->). exists (p ++ sp ++ P), Q.
      now rewrite <- !app_assoc.
Qed.

(** A slash followed by a unit is found wherever it stands. *)
Lemma unit_price_slash pre u post :
  In u (map lit ["kg"; "g"; "100g"; "l"; "ml"]%string) ->
  found (search true UNIT_PRICE_RE (pre ++ ch "/" :: u ++ post)) = true.
Proof.
  intros Hu. unfold search. apply search_from_found.
  exists pre, (ch "/" :: u ++ post). split; [reflexivity|].
  assert (Hne : u <> []).
  { cbn in Hu.
    repeat (destruct Hu as [<-|Hu]; [discriminate|]). destruct Hu. }
  set (s := MState (rev pre ++ []) (ch "/" :: u ++ post) []).
  set (s1 := MState (ch "/" :: before s) (u ++ post) (caps s)).
  assert (H1 : In (MState (rev u ++ before s1) post (caps s1))
                  (run true units_short s1)).
  { unfold units_short. subst s1 s. clear Hne.
    apply in_map_iff in Hu. destruct Hu as (w & <- & Hw).
    apply in_run_alts with (a := W w).
    - apply (in_map W) in Hw. exact Hw.
    - unfold W. apply run_word_self; [|reflexivity].
      cbn in Hw. repeat (destruct Hw as [<-|Hw]; [discriminate|]).
      destruct Hw. }
  assert (H : In (set_group 4 s1 (MState (rev u ++ before s1) post (caps s1)))
                 (run true UNIT_PRICE_RE s)).
  { unfold UNIT_PRICE_RE. cbn [Alts]. cbn [run].
    apply in_or_app. right. apply in_or_app. right.
    change (Seq [Lit (ch "/"); Group 4 units_short])
      with (Cat (Lit (ch "/")) (Group 4 units_short)).
    apply in_flat_map. exists s1. split.
    - apply step1_in; [reflexivity|apply lit_match_self].
    - cbn [run]. apply in_map. exact H1. }
  intros E. rewrite E in H. destruct H.
Qed.

End ItemList.

(** X14. The items come in the order of the rows: their row indices never
    decrease along the list and each is the index of a row; and there
    are at most as many items as there are tokens with a price. *)
Theorem build_items_in_row_order (U : UnicodeData) rows :
  StronglySorted (fun a b => rowIndex a <= rowIndex b)
                 (build_items_from_rows rows)
  /\ Forall (fun it => rowIndex it < length rows)
            (build_items_from_rows rows)
  /\ length (build_items_from_rows rows)
     <= length (filter is_price_text (concat rows)).
Proof.
  rewrite build_items_spec.
  destruct (candidates_sorted rows rows 0) as [Hs Hf].
  split; [exact Hs|]. split.
  - eapply Forall_impl; [|exact Hf]. cbn. intros it H. lia.
  - apply candidates_length.
Qed.

(** X15. No item comes from a row whose joined text has a unit price,
    nor from a price token whose own text has one: every item has a row,
    of its index, that is no unit-price context, and in it a price token
    that it was made from. *)
Theorem items_avoid_unit_prices (U : UnicodeData) rows it :
  In it (build_items_from_rows rows) ->
  exists row pt,
    nth_error rows (rowIndex it) = Some row /\ In pt row
    /\ is_price_text pt = true
    /\ _is_unit_price_context row = false
    /\ is_unit_text pt = false
    /\ candidate_item rows (rowIndex it) false pt = Some it.
Proof.
  intros H. apply build_items_in in H.
  destruct H as (ridx & row & pt & Hrow & Hpt & Hp & H).
  pose proof (candidate_item_unit _ _ _ _ H) as (Hc & Hu & Hi).
  exists row, pt. rewrite Hi. rewrite Hc in H. auto 10.
Qed.

Lemma items_avoid_unit_prices_witness :
  exists row pt,
    nth_error [milch_tokens] (rowIndex milch_item) = Some row /\ In pt row
    /\ @is_price_text py_unicode pt = true
    /\ @_is_unit_price_context py_unicode row = false
    /\ @is_unit_text py_unicode pt = false
    /\ @candidate_item py_unicode [milch_tokens] (rowIndex milch_item)
         false pt = Some milch_item.
Proof.
  apply (@items_avoid_unit_prices py_unicode [milch_tokens] milch_item).
  vm_compute. left. reflexivity.
Defined.

(** X16. A row in which some token text has a slash followed by one of
    the units kg, g, 100g, l, ml is a unit-price context, whatever else
    the row holds, and no item has the index of such a row. *)
Theorem unit_price_row_yields_nothing (U : UnicodeData) rows ridx row t
  pre u post :
  nth_error rows ridx = Some row ->
  In t row ->
  In u (map lit ["kg"; "g"; "100g"; "l"; "ml"]%string) ->
  text t = pre ++ ch "/" :: u ++ post ->
  _is_unit_price_context row = true
  /\ forall it, In it (build_items_from_rows rows) -> rowIndex it <> ridx.
Proof.
  intros Hrow Ht Hu Htxt.
  assert (Hctx : _is_unit_price_context row = true).
  { unfold _is_unit_price_context.
    destruct (@join_in (lit " ") (text t) (map text row)) as (P & Q & ->).
    { now apply in_map. }
    rewrite Htxt.
    replace (P ++ (pre ++ ch "/" :: u ++ post) ++ Q)
      with ((P ++ pre) ++ ch "/" :: u ++ (post ++ Q))
      by (rewrite <- !app_assoc; cbn [app]; now rewrite <- !app_assoc).
    now apply unit_price_slash. }
  split; [exact Hctx|].
  intros it Hit Hi. apply build_items_in in Hit.
  destruct Hit as (ridx' & row' & pt & Hrow' & _ & _ & H).
  apply candidate_item_unit in H. destruct H as (Hc & _ & Hi').
  assert (E : ridx' = ridx) by congruence.
  rewrite E, Hrow in Hrow'. injection Hrow' as <-. congruence.
Qed.

Lemma unit_price_row_yields_nothing_witness :
  @_is_unit_price_context py_unicode
     [tok 0 "Tomaten" (Box 0 0 80 20); tok 1 "2,49/kg A" (Box 200 0 290 20)]
  = true
  /\ forall it,
       In it (@build_items_from_rows py_unicode
                [[tok 0 "Tomaten" (Box 0 0 80 20);
                  tok 1 "2,49/kg A" (Box 200 0 290 20)]]) ->
       rowIndex it <> 0.
Proof.
  apply (@unit_price_row_yields_nothing py_unicode
           [[tok 0 "Tomaten" (Box 0 0 80 20);
             tok 1 "2,49/kg A" (Box 200 0 290 20)]] 0
           [tok 0 "Tomaten" (Box 0 0 80 20);
            tok 1 "2,49/kg A" (Box 200 0 290 20)]
           (tok 1 "2,49/kg A" (Box 200 0 290 20))
           (lit "2,49") (lit "kg") (lit " A")).
  - reflexivity.
  - right. left. reflexivity.
  - left. reflexivity.
  - reflexivity.
Defined.

(** X17. The price fields of an item are read off its price token: [raw]
    is the first match of [PRICE_RE] in the text of the token, so a part
    of that text, [value] is what [parse_price_value] makes of [raw],
    the currency is always EUR, the confidence is the score of the token
    and the price box its box. *)
Theorem item_price_fields (U : UnicodeData) rows it :
  In it (build_items_from_rows rows) ->
  exists row pt m,
    nth_error rows (rowIndex it) = Some row /\ In pt row
    /\ search true PRICE_RE (text pt) = Some m
    /\ raw (price_of it) = group0 m
    /\ (exists pre post, text pt = pre ++ raw (price_of it) ++ post)
    /\ fst (parse_price_value (raw (price_of it)))
       = Some (value (price_of it))
    /\ currency (price_of it) = lit "EUR"
    /\ confidence it = score pt
    /\ priceBox it = tbox pt.
Proof.
  intros H. apply build_items_in in H.
  destruct H as (ridx & row & pt & Hrow & Hpt & _ & H).
  apply candidate_item_some in H.
  destruct H as (tag & nt & nts & m & v & _ & _ & _ & _ & _ & Hm & Hv & ->).
  cbn [rowIndex price_of raw value currency confidence priceBox].
  exists row, pt, m. repeat split; auto.
  apply search_group0 in Hm. destruct Hm as (pre & post & E & _). eauto.
Qed.

Lemma item_price_fields_witness :
  exists row pt m,
    nth_error [milch_tokens] (rowIndex milch_item) = Some row /\ In pt row
    /\ @search py_unicode true PRICE_RE (text pt) = Some m
    /\ raw (price_of milch_item) = group0 m
    /\ (exists pre post, text pt = pre ++ raw (price_of milch_item) ++ post)
    /\ fst (@parse_price_value py_unicode (raw (price_of milch_item)))
       = Some (value (price_of milch_item))
    /\ currency (price_of milch_item) = lit "EUR"
    /\ confidence milch_item = score pt
    /\ priceBox milch_item = tbox pt.
Proof.
  apply (@item_price_fields py_unicode [milch_tokens] milch_item).
  vm_compute. left. reflexivity.
Defined.

(* ================================================================== *)
(** * Further properties: names *)
(* ================================================================== *)

Section Names.
Context {U : UnicodeData}.

Lemma strip_trimmed s : trimmed s -> strip s = s.
Proof.
  intros (a & rest & init & b & Ha & Hsa & Hb & Hsb). unfold strip.
  assert (E : lstrip s = s).
  { rewrite Ha. cbn [lstrip]. now rewrite Hsa. }
  rewrite E, Hb. rewrite <- (app_nil_r (init ++ [b])) at 1.
  rewrite rstrip_app_last by exact Hsb. cbn. apply app_nil_r.
Qed.

Lemma strip_cases s : strip s = [] \/ trimmed (strip s).
Proof.
  destruct (strip_ends s) as [H|H]; [now left|right; exact H].
Qed.

Lemma strip_strip s : strip (strip s) = strip s.
Proof.
  destruct (strip_cases s) as [->|H]; [reflexivity|now apply strip_trimmed].
Qed.

Lemma trimmed_app s sp t : trimmed s -> trimmed t -> trimmed (s ++ sp ++ t).
Proof.
  intros (a & rest & _ & _ & Ha & Hsa & _ & _)
         (_ & _ & init & b & _ & _ & Hb & Hsb).
  exists a, (rest ++ sp ++ t), (s ++ sp ++ init), b.
  split; [now rewrite Ha|]. split; [assumption|].
  split; [now rewrite Hb, <- !app_assoc|assumption].
Qed.

Lemma join_trimmed sp parts :
  parts <> [] -> Forall trimmed parts -> trimmed (join sp parts).
Proof.
  induction parts as [|p parts IH]; intros Hne Hf; [contradiction|].
  inversion Hf as [|? ? Hp Hrest]; subst.
  destruct parts as [|q parts]; [exact Hp|].
  change (join sp (p :: q :: parts)) with (p ++ sp ++ join sp (q :: parts)).
  apply trimmed_app; [assumption|]. apply IH; [discriminate|assumption].
Qed.

Lemma name_parts_spec tokens :
  Forall trimmed (name_parts tokens)
  /\ subseq (name_parts tokens) (map (fun t => strip (text t)) tokens)
  /\ Forall (fun p => found (fullmatch false IGNORE_NAME_TOKENS_RE p) = false)
            (name_parts tokens).
Proof.
  induction tokens as [|t tokens (IH1 & IH2 & IH3)]; cbn [name_parts map].
  - repeat split; constructor.
  - destruct (strip_cases (text t)) as [E|Ht].
    + rewrite E. split; [assumption|]. split; [|assumption].
      now constructor.
    + destruct (strip (text t)) as [|c s] eqn:E.
      * split; [assumption|]. split; [now constructor|assumption].
      * destruct (found (fullmatch false IGNORE_NAME_TOKENS_RE (c :: s)))
          eqn:Ei.
        -- split; [assumption|]. split; [now constructor|assumption].
        -- split; [now constructor|]. split; [now constructor|].
           now constructor.
Qed.

Lemma build_name_joined tokens :
  _build_name_from_left_tokens tokens = join (lit " ") (name_parts tokens).
Proof.
  unfold _build_name_from_left_tokens.
  destruct (name_parts tokens) as [|p parts] eqn:E; [reflexivity|].
  apply strip_trimmed. apply join_trimmed; [discriminate|].
  rewrite <- E. apply name_parts_spec.
Qed.

Lemma name_from_above_spec c rows ridx offsets :
  name_from_above c rows ridx offsets = [] \/
  exists i, In i offsets /\ i <= ridx
            /\ name_from_above c rows ridx offsets
               = filter (fun t => Qltb (center_x t) (c + 35))
                   (filter (fun t => negb (is_price_text t)
                                     && negb (is_unit_text t))
                           (nth (ridx - i) rows [])).
Proof.
  induction offsets as [|i offsets IH]; cbn [name_from_above]; [now left|].
  destruct (Nat.ltb ridx i) eqn:El; [now left|]. apply Nat.ltb_ge in El.
  match goal with
  | |- context [match ?x with [] => _ | _ :: _ => _ end] =>
      destruct x as [|t0 cand] eqn:Ec
  end.
  - destruct IH as [IH|(j & Hj & Hle & IH)]; [now left|].
    right. exists j. split; [now right|]. auto.
  - right. exists i. split; [now left|]. split; [assumption|]. now rewrite Ec.
Qed.

Lemma filter_forall (A : Type) (f : A -> bool) l :
  Forall (fun x => f x = true) (filter f l).
Proof. apply Forall_forall. intros x H. now apply filter_In in H. Qed.

End Names.

(** X18. The name tokens of a price all come from one row, the row of the
    price or one of the three rows above it, in the order of that row,
    and none of them has a price in its text.  Every token of the row of
    the price that ends at least 2px left of the price, is another token
    and has neither a price nor a unit price in its text is a name
    token, and then the name tokens are tokens of that row and all of
    this kind; when the row of the price has no such token, every token of the row just above that has neither
    a price nor a unit price in its text and whose centre is less than
    35px right of the centre of the price is a name token. *)
Theorem name_tokens_origin (U : UnicodeData) pt rows ridx :
  (exists k,
     k <= ridx <= k + 3
     /\ subseq (_find_name_tokens_for_price pt rows ridx) (nth k rows [])
     /\ Forall (fun t => is_price_text t = false)
               (_find_name_tokens_for_price pt rows ridx)
     /\ (k = ridx ->
         Forall (left_of_price pt) (_find_name_tokens_for_price pt rows ridx)))
  /\ (forall t, In t (nth ridx rows []) -> left_of_price pt t ->
                In t (_find_name_tokens_for_price pt rows ridx)
                /\ subseq (_find_name_tokens_for_price pt rows ridx)
                          (nth ridx rows [])
                /\ Forall (left_of_price pt)
                          (_find_name_tokens_for_price pt rows ridx))
  /\ ((forall t, In t (nth ridx rows []) -> ~ left_of_price pt t) ->
      1 <= ridx ->
      forall t, In t (nth (ridx - 1) rows []) -> above_price pt t ->
                In t (_find_name_tokens_for_price pt rows ridx)).
Proof.
  unfold _find_name_tokens_for_price.
  set (keep := fun t => negb (same_object t pt)
                        && Qle_bool (x2 t) (x1 pt - 2)
                        && negb (is_price_text t)
                        && negb (is_unit_text t)).
  assert (Hkeep : forall t, keep t = true <-> left_of_price pt t).
  { intros t. unfold keep, left_of_price, same_object.
    rewrite !andb_true_iff, !negb_true_iff, Nat.eqb_neq, Qle_bool_iff.
    tauto. }
  assert (Hleft : Forall (left_of_price pt) (filter keep (nth ridx rows []))).
  { eapply Forall_impl; [|apply filter_forall]. intros t. apply Hkeep. }
  destruct (filter keep (nth ridx rows [])) as [|t0 left'] eqn:El.
  - split; [|split].
    + destruct (name_from_above (center_x pt) rows ridx (seq 1 3))
        as [|t1 cand] eqn:Ea.
      * destruct (Nat.leb 1 ridx) eqn:Er.
        -- apply Nat.leb_le in Er. exists (ridx - 1). split; [lia|].
           split; [apply subseq_filter|]. split.
           ++ eapply Forall_impl; [|apply filter_forall]. cbn. intros t H.
              rewrite andb_true_iff, negb_true_iff in H. tauto.
           ++ intros Hk. lia.
        -- exists ridx. split; [lia|]. split; [|split; [constructor|]].
           ++ clear. induction (nth ridx rows []); constructor; assumption.
           ++ intros _. constructor.
      * destruct (name_from_above_spec (center_x pt) rows ridx (seq 1 3))
          as [E|(i & Hi & Hle & E)]; [congruence|].
        apply in_seq in Hi. rewrite <- Ea, E.
        exists (ridx - i). split; [lia|]. split; [|split].
        -- eapply subseq_trans; apply subseq_filter.
        -- apply Forall_forall. intros t Ht. apply filter_In in Ht.
           destruct Ht as [Ht _]. apply filter_In in Ht.
           destruct Ht as [_ Ht].
           rewrite andb_true_iff, negb_true_iff in Ht. tauto.
        -- intros Hk. lia.
    + intros t Ht Hl. exfalso.
      assert (Hin : In t (filter keep (nth ridx rows []))).
      { apply filter_In. split; [assumption|now apply Hkeep]. }
      rewrite El in Hin. destruct Hin.
    + intros _ Hr t Ht (Hp & Hu & Hc).
      assert (Hin : In t (filter (fun t => Qltb (center_x t) (center_x pt + 35))
                            (filter (fun t => negb (is_price_text t)
                                              && negb (is_unit_text t))
                                    (nth (ridx - 1) rows [])))).
      { apply filter_In. split; [|now apply Qltb_true].
        apply filter_In. split; [assumption|]. now rewrite Hp, Hu. }
      cbn [seq name_from_above].
      replace (Nat.ltb ridx 1) with false
        by (symmetry; apply Nat.ltb_ge; lia).
      destruct (filter _ (filter _ (nth (ridx - 1) rows []))) as [|t1 cand];
        [destruct Hin|exact Hin].
  - split; [|split].
    + exists ridx. split; [lia|]. split; [rewrite <- El; apply subseq_filter|].
      split.
      * eapply Forall_impl; [|exact Hleft]. unfold left_of_price. tauto.
      * intros _. exact Hleft.
    + intros t Ht Hl. split; [|split; [|exact Hleft]].
      * rewrite <- El. apply filter_In. split; [assumption|now apply Hkeep].
      * rewrite <- El. apply subseq_filter.
    + intros Hnone. exfalso. inversion Hleft as [|? ? H0 _]; subst.
      apply (Hnone t0); [|assumption].
      assert (Hin : In t0 (filter keep (nth ridx rows [])))
        by (rewrite El; now left).
      now apply filter_In in Hin.
Qed.

(** The name above the price: the price stands alone in its row. *)
Lemma name_from_row_above :
  @build_items_from_rows py_unicode name_above_rows
  = [Item 1 (lit "Milch") (Box 0 0 80 20)
          (Price (lit "1,99 A") (Fin (199 # 100)) (lit "EUR") (lit "A"))
          (Box 0 30 80 50) None].
Proof. vm_compute. reflexivity. Qed.


Section BadNames.
Context {U : UnicodeData}.

Lemma run_word_match icase w : forall x s tail,
  w <> [] ->
  Forall2 (fun l c => lit_match icase l c = true) w x ->
  after s = x ++ tail ->
  In (MState (rev x ++ before s) tail (caps s)) (run icase (Word w) s).
Proof.
  induction w as [|l w IH]; intros x s tail Hne Hf Ha; [contradiction|].
  inversion Hf as [|? c ? x' Hl Hrest]; subst.
  destruct w as [|l' w].
  - inversion Hrest; subst. cbn [Word run rev app].
    apply step1_in; [exact Ha|exact Hl].
  - change (Word (l :: l' :: w)) with (Cat (Lit l) (Word (l' :: w))).
    apply in_run_cat. exists (MState (c :: before s) (x' ++ tail) (caps s)).
    split.
    + cbn [run]. apply step1_in; [exact Ha|exact Hl].
    + specialize (IH x' (MState (c :: before s) (x' ++ tail) (caps s)) tail).
      cbn [before after caps] in IH.
      replace (rev (c :: x') ++ before s) with (rev x' ++ c :: before s)
        by (cbn [rev]; now rewrite <- !app_assoc).
      apply IH; [discriminate|assumption|reflexivity].
Qed.

(** A keyword between two word boundaries is found. *)
Lemma bad_keyword_found kw pre x post :
  In kw plain_keywords ->
  Forall2 (fun l c => lit_match true l c = true) kw x ->
  Forall (fun c => is_word c = true) x ->
  ends_word_free pre -> starts_word_free post ->
  found (search true BAD_NAME_KEYWORDS_RE (pre ++ x ++ post)) = true.
Proof.
  intros Hkw Hm Hw Hpre Hpost. unfold search. apply search_from_found.
  exists pre, (x ++ post). split; [reflexivity|].
  assert (Hne : kw <> []).
  { cbn in Hkw. repeat (destruct Hkw as [<-|Hkw]; [discriminate|]).
    destruct Hkw. }
  assert (Hx : x <> []).
  { intros ->. inversion Hm; subst. contradiction. }
  set (s := MState (rev pre ++ []) (x ++ post) []).
  set (s1 := MState (rev x ++ before s) post (caps s)).
  assert (H0 : xorb (word_before s) (word_after s) = true).
  { unfold word_before, word_after, s. cbn [before after].
    rewrite app_nil_r. unfold ends_word_free in Hpre.
    destruct x as [|c x']; [contradiction|]. cbn [app].
    inversion Hw; subst.
    replace (is_word c) with true by (symmetry; assumption).
    destruct (rev pre); [reflexivity|]. now rewrite Hpre. }
  assert (H2 : xorb (word_before (set_group 1 s s1))
                    (word_after (set_group 1 s s1)) = true).
  { unfold word_before, word_after, set_group, s1. cbn [before after].
    unfold starts_word_free in Hpost.
    destruct (@exists_last _ x Hx) as (init & b & E). rewrite E.
    rewrite rev_app_distr. cbn [rev app].
    rewrite Forall_forall in Hw.
    rewrite (Hw b) by (rewrite E; apply in_or_app; right; now left).
    destruct post; [reflexivity|]. now rewrite Hpost. }
  assert (H1 : In s1 (run true (Alts [
         W "summe"; W "zwischensumme"; W "gesamt"; W "total";
         Seq [W "zu"; Star Space; W "zahlen"];
         W "rundung"; W "rabatt"; W "pfand";
         Seq [W "ec"; Star (CSet [CChar (ch "-"); CSpace]); W "cash"];
         W "kundenbeleg"; W "kassenbon"; W "kassenbeleg"; W "uid";
         Seq [W "steuer"; Opt (Lit (ch "n"))];
         W "mwst"; W "ust";
         Seq [W "eur"; Eol]]) s)).
  { unfold plain_keywords in Hkw. apply in_map_iff in Hkw.
    destruct Hkw as (w & <- & Hin).
    assert (Hrun : In s1 (run true (W w) s)).
    { unfold W. apply run_word_match; [assumption|assumption|reflexivity]. }
    cbn in Hin.
    destruct Hin as [<-|Hin];
      [eapply in_run_alts; [|exact Hrun]; cbn; tauto|].
    destruct Hin as [<-|Hin];
      [eapply in_run_alts; [|exact Hrun]; cbn; tauto|].
    destruct Hin as [<-|Hin];
      [eapply in_run_alts; [|exact Hrun]; cbn; tauto|].
    destruct Hin as [<-|Hin];
      [eapply in_run_alts; [|exact Hrun]; cbn; tauto|].
    destruct Hin as [<-|Hin];
      [eapply in_run_alts; [|exact Hrun]; cbn; tauto|].
    destruct Hin as [<-|Hin];
      [eapply in_run_alts; [|exact Hrun]; cbn; tauto|].
    destruct Hin as [<-|Hin];
      [eapply in_run_alts; [|exact Hrun]; cbn; tauto|].
    destruct Hin as [<-|Hin];
      [eapply in_run_alts; [|exact Hrun]; cbn; tauto|].
    destruct Hin as [<-|Hin];
      [eapply in_run_alts; [|exact Hrun]; cbn; tauto|].
    destruct Hin as [<-|Hin];
      [eapply in_run_alts; [|exact Hrun]; cbn; tauto|].
    destruct Hin as [<-|Hin];
      [eapply in_run_alts; [|exact Hrun]; cbn; tauto|].
    destruct Hin as [<-|Hin].
    { (* steuer, with its optional n left out *)
      eapply in_run_alts with (a := Seq [W "steuer"; Opt (Lit (ch "n"))]);
        [cbn; tauto|].
      change (Seq [W "steuer"; Opt (Lit (ch "n"))])
        with (Cat (W "steuer") (Opt (Lit (ch "n")))).
      apply in_run_cat. exists s1. split; [exact Hrun|].
      unfold Opt. cbn [run]. apply in_or_app. right. now left. }
    destruct Hin as [<-|Hin];
      [eapply in_run_alts; [|exact Hrun]; cbn; tauto|].
    destruct Hin as [<-|Hin];
      [eapply in_run_alts; [|exact Hrun]; cbn; tauto|].
    destruct Hin. }
  assert (H : In (set_group 1 s s1) (run true BAD_NAME_KEYWORDS_RE s)).
  { unfold BAD_NAME_KEYWORDS_RE.
    match goal with
    | |- In _ (run true (Seq [WordB; Group 1 ?alts; WordB]) s) =>
        change (Seq [WordB; Group 1 alts; WordB])
          with (Cat WordB (Cat (Group 1 alts) WordB))
    end.
    apply in_run_cat. exists s. split.
    - cbn [run]. apply in_guard. auto.
    - apply in_run_cat. exists (set_group 1 s s1). split.
      + cbn [run]. apply in_map. exact H1.
      + cbn [run]. apply in_guard. auto. }
  intros E. rewrite E in H. destruct H.
Qed.

End BadNames.

(** X20. [_is_bad_name] looks at the trimmed name only, a blank name is
    bad, and so is every name in which one of the words summe,
    zwischensumme, gesamt, total, rundung, rabatt, pfand, kundenbeleg,
    kassenbon, kassenbeleg, uid, steuer, mwst, ust stands between two
    word boundaries, in whatever case the pattern accepts. *)
Theorem is_bad_name_spec (U : UnicodeData) name :
  _is_bad_name (strip name) = _is_bad_name name
  /\ (strip name = [] -> _is_bad_name name = true)
  /\ (forall kw pre x post,
        In kw plain_keywords ->
        Forall2 (fun l c => lit_match true l c = true) kw x ->
        Forall (fun c => is_word c = true) x ->
        ends_word_free pre -> starts_word_free post ->
        strip name = pre ++ x ++ post ->
        _is_bad_name name = true).
Proof.
  split; [|split].
  - unfold _is_bad_name. now rewrite strip_strip.
  - unfold _is_bad_name. now intros ->.
  - intros kw pre x post Hkw Hm Hw Hpre Hpost E. unfold _is_bad_name.
    destruct (strip name) as [|c n] eqn:En; [reflexivity|].
    destruct (mem_str (upper_str (c :: n)) [lit "EUR"; [euro]]);
      [reflexivity|].
    rewrite E. now rewrite (@bad_keyword_found U kw pre x post Hkw Hm Hw Hpre Hpost).
Qed.

Lemma is_bad_name_spec_witness :
  @_is_bad_name py_unicode (lit " Zwischensumme 12,40 ") = true.
Proof.
  apply (proj2 (proj2 (is_bad_name_spec py_unicode
                         (lit " Zwischensumme 12,40 ")))
           (lit "zwischensumme") [] (lit "Zwischensumme") (lit " 12,40")).
  - right. left. reflexivity.
  - vm_compute. repeat constructor.
  - vm_compute. repeat constructor.
  - exact I.
  - vm_compute. reflexivity.
  - vm_compute. reflexivity.
Defined.

(** X21. The name of an item is never empty, has no blank at either end,
    is not a bad name, and is what [_build_name_from_left_tokens] makes
    of the name tokens of the price token. *)
Theorem item_name_spec (U : UnicodeData) rows it :
  In it (build_items_from_rows rows) ->
  name it <> [] /\ trimmed (name it) /\ _is_bad_name (name it) = false
  /\ exists row pt,
       nth_error rows (rowIndex it) = Some row /\ In pt row
       /\ name it = join (lit " ")
                      (name_parts (_find_name_tokens_for_price
                                     pt rows (rowIndex it))).
Proof.
  intros H. apply build_items_in in H.
  destruct H as (ridx & row & pt & Hrow & Hpt & _ & H).
  apply candidate_item_some in H.
  destruct H as (tag & nt & nts & m & v & _ & _ & Hn & Hb & _ & _ & _ & ->).
  cbn [name rowIndex]. rewrite <- Hn in *.
  set (tokens := _find_name_tokens_for_price pt rows ridx) in *.
  assert (Hne : _build_name_from_left_tokens tokens <> []).
  { intros E. unfold _is_bad_name in Hb. rewrite E in Hb. discriminate. }
  split; [exact Hne|]. split; [|split; [exact Hb|]].
  - rewrite build_name_joined in *.
    apply join_trimmed; [|apply name_parts_spec].
    intros E. rewrite E in Hne. now apply Hne.
  - exists row, pt. split; [assumption|]. split; [assumption|].
    apply build_name_joined.
Qed.

Lemma item_name_spec_witness :
  name milch_item <> [] /\ @trimmed py_unicode (name milch_item)
  /\ @_is_bad_name py_unicode (name milch_item) = false
  /\ exists row pt,
       nth_error [milch_tokens] (rowIndex milch_item) = Some row
       /\ In pt row
       /\ name milch_item
          = join (lit " ")
              (@name_parts py_unicode
                 (@_find_name_tokens_for_price py_unicode pt [milch_tokens]
                    (rowIndex milch_item))).
Proof.
  apply (@item_name_spec py_unicode [milch_tokens] milch_item).
  vm_compute. left. reflexivity.
Defined.

(* ================================================================== *)
(** * Further properties: tax tags *)
(* ================================================================== *)

Section TagsMore.
Context {U : UnicodeData}.

Lemma normalize_vat_token_strip txt :
  _normalize_vat_token (strip txt) = _normalize_vat_token txt.
Proof.
  destruct txt as [|c txt]; [reflexivity|].
  destruct (strip (c :: txt)) as [|d s] eqn:E.
  - unfold _normalize_vat_token at 2. now rewrite E.
  - unfold _normalize_vat_token.
    assert (Es : strip (d :: s) = d :: s).
    { rewrite <- E. apply strip_strip. }
    now rewrite Es, E.
Qed.

Lemma below_rows_vat_some pt rows ridx ds vat :
  below_rows_vat pt rows ridx ds = Some vat ->
  exists d t, In d ds /\ In t (nth (ridx + d) rows [])
              /\ _normalize_vat_token (text t) = Some vat
              /\ below_accept pt t = true.
Proof.
  induction ds as [|d ds IH]; cbn [below_rows_vat]; [discriminate|].
  destruct (nth_error rows (ridx + d)) as [r|] eqn:En; [|discriminate].
  destruct (first_tag (below_accept pt) r) as [v|] eqn:E.
  - intros [= <-]. apply first_tag_some in E.
    destruct E as (t & Ht & Hn & Ha). exists d, t.
    split; [now left|]. split; [|auto].
    now rewrite (nth_error_nth _ _ _ En).
  - intros H. destruct (IH H) as (d' & t & Hd & Ht).
    exists d', t. split; [now right|assumption].
Qed.

Lemma above_rows_vat_some pt rows ridx us vat :
  above_rows_vat pt rows ridx us = Some vat ->
  exists u t, In u us /\ u <= ridx /\ In t (nth (ridx - u) rows [])
              /\ _normalize_vat_token (text t) = Some vat
              /\ above_accept pt u t = true.
Proof.
  induction us as [|u us IH]; cbn [above_rows_vat]; [discriminate|].
  destruct (Nat.ltb ridx u) eqn:El; [discriminate|]. apply Nat.ltb_ge in El.
  destruct (first_tag (above_accept pt u) (nth (ridx - u) rows []))
    as [v|] eqn:E.
  - intros [= <-]. apply first_tag_some in E.
    destruct E as (t & Ht & Hn & Ha). exists u, t.
    split; [now left|]. auto.
  - intros H. destruct (IH H) as (u' & t & Hu & Ht).
    exists u', t. split; [now right|assumption].
Qed.

End TagsMore.

Section CharMap.
Context {U : UnicodeData}.


End CharMap.


(** X22. [_normalize_vat_token] ignores blanks around the text, and a tag
    that it or [_has_inline_vat_tag] returns is one of A, B, C (for the
    second, on Unicode tables that agree with ASCII on A, B, C). *)
Theorem vat_tag_range (U : UnicodeData) (laws : UnicodeLaws U) txt :
  _normalize_vat_token (strip txt) = _normalize_vat_token txt
  /\ (forall v, _normalize_vat_token txt = Some v -> In v abc)
  /\ (forall v, _has_inline_vat_tag txt = Some v -> In v abc).
Proof.
  split; [apply normalize_vat_token_strip|]. split.
  - intros v. apply normalize_vat_token_abc.
  - intros v. now apply has_inline_vat_tag_abc.
Qed.

Lemma vat_tag_range_witness :
  @_normalize_vat_token py_unicode (@strip py_unicode (lit "  a "))
  = @_normalize_vat_token py_unicode (lit "  a ")
  /\ (forall v, @_normalize_vat_token py_unicode (lit "  a ") = Some v ->
                In v abc)
  /\ (forall v, @_has_inline_vat_tag py_unicode (lit "  a ") = Some v ->
                In v abc).
Proof.
  apply (@vat_tag_range py_unicode PyUnicodeFacts.py_unicode_laws
           (lit "  a ")).
Defined.

(** X23. A tag of the nearby search is the tag of a token that stands
    within reach of the price: in the row of the price, another token
    than the price token; or in the next row, with its top edge at or
    below the bottom edge of the price; or in one of the three rows
    above, with its bottom edge at or above the top edge of the price.
    No token further away is ever used. *)
Theorem nearby_vat_tag_origin (U : UnicodeData) pt rows ridx vat :
  _nearby_vat_tag_for_price_rows pt rows ridx = Some vat ->
  exists t,
    _normalize_vat_token (text t) = Some vat
    /\ ((In t (nth ridx rows []) /\ tid t <> tid pt
         /\ same_row_accept pt t = true)
        \/ (In t (nth (ridx + 1) rows []) /\ (y2 pt <= y1 t)%Q
            /\ below_accept pt t = true)
        \/ (exists u, 1 <= u <= 3 /\ u <= ridx
                      /\ In t (nth (ridx - u) rows [])
                      /\ (y2 t <= y1 pt)%Q
                      /\ above_accept pt u t = true)).
Proof.
  unfold _nearby_vat_tag_for_price_rows.
  destruct (same_row_vat pt (nth ridx rows [])) as [v|] eqn:E1.
  { intros [= <-]. apply first_tag_some in E1.
    destruct E1 as (t & Ht & Hn & Ha). apply same_row_neighbors_in in Ht.
    destruct Ht as [Ht Hid]. exists t. split; [assumption|]. left.
    split; [assumption|]. split; [|assumption].
    unfold same_object in Hid. now apply Nat.eqb_neq in Hid. }
  destruct (below_rows_vat pt rows ridx (seq 1 1)) as [v|] eqn:E2.
  { intros [= <-]. apply below_rows_vat_some in E2.
    destruct E2 as (d & t & Hd & Ht & Hn & Ha).
    destruct Hd as [<-|[]]. exists t. split; [assumption|]. right. left.
    split; [assumption|]. split; [|assumption].
    unfold below_accept in Ha. rewrite !andb_true_iff in Ha.
    destruct Ha as [[_ H0] _]. apply Qle_bool_iff in H0.
    unfold Qminus in H0. rewrite <- Qle_minus_iff in H0. exact H0. }
  intros H. apply above_rows_vat_some in H.
  destruct H as (u & t & Hu & Hle & Ht & Hn & Ha).
  apply in_seq in Hu. exists t. split; [assumption|]. right. right.
  exists u. split; [lia|]. split; [assumption|]. split; [assumption|].
  split; [|assumption].
  unfold above_accept in Ha. rewrite !andb_true_iff in Ha.
  destruct Ha as [[_ H0] _]. apply Qle_bool_iff in H0.
  unfold Qminus in H0. rewrite <- Qle_minus_iff in H0. exact H0.
Qed.

Lemma nearby_vat_tag_origin_witness :
  exists t,
    @_normalize_vat_token py_unicode (text t) = Some (lit "A")
    /\ ((In t (nth 0 [milch_tokens] [])
         /\ tid t <> tid (tokc 1 "2,49" (95 # 100) (Box 200 0 240 20))
         /\ same_row_accept (tokc 1 "2,49" (95 # 100) (Box 200 0 240 20)) t
            = true)
        \/ (In t (nth (0 + 1) [milch_tokens] [])
            /\ (y2 (tokc 1 "2,49" (95 # 100) (Box 200 0 240 20)) <= y1 t)%Q
            /\ below_accept (tokc 1 "2,49" (95 # 100) (Box 200 0 240 20)) t
               = true)
        \/ (exists u, 1 <= u <= 3 /\ u <= 0
                      /\ In t (nth (0 - u) [milch_tokens] [])
                      /\ (y2 t
                          <= y1 (tokc 1 "2,49" (95 # 100) (Box 200 0 240 20)))%Q
                      /\ above_accept
                           (tokc 1 "2,49" (95 # 100) (Box 200 0 240 20)) u t
                         = true)).
Proof.
  apply (@nearby_vat_tag_origin py_unicode
           (tokc 1 "2,49" (95 # 100) (Box 200 0 240 20)) [milch_tokens] 0).
  vm_compute. reflexivity.
Defined.

(* ================================================================== *)
(** * Further properties: price values *)
(* ================================================================== *)

Section PriceMore.
Context {U : UnicodeData}.

(** Where a digit is the next thing to match, a digit is in the text. *)
Lemma run_digit_in icase a b s s' :
  In s' (run icase (Cat a (Cat Digit b)) s) ->
  exists c, In c (after s) /\ isdecimal c = true.
Proof.
  intros H. apply in_run_cat in H. destruct H as (s1 & H1 & H).
  apply in_run_cat in H. destruct H as (s2 & H2 & _).
  cbn [run] in H2. apply in_step1 in H2.
  destruct H2 as (c & rest & Ha & Hc & _).
  apply run_sound in H1. destruct H1 as (w & [E _] & _).
  exists c. split; [|exact Hc]. rewrite E, Ha.
  apply in_or_app. right. now left.
Qed.

Lemma number_needs_digit s s' :
  In s' (run false NUMBER_RE s) ->
  exists c, In c (after s) /\ isdecimal c = true.
Proof.
  unfold NUMBER_RE. cbn [run]. intros H. apply in_app_or in H.
  destruct H as [H|H].
  - change (Seq [Opt (CSet [CChar (ch "-"); CChar (ch "+")]); Star Digit;
                 Opt (Lit (ch ".")); Plus Digit])
      with (Cat (Opt (CSet [CChar (ch "-"); CChar (ch "+")]))
                (Cat (Star Digit) (Cat (Opt (Lit (ch "."))) (Plus Digit))))
      in H.
    apply in_run_cat in H. destruct H as (s1 & H1 & H).
    apply in_run_cat in H. destruct H as (s2 & H2 & H).
    unfold Plus in H. apply run_digit_in in H. destruct H as (c & Hc & Hd).
    apply run_sound in H1. destruct H1 as (w1 & [E1 _] & _).
    apply run_sound in H2. destruct H2 as (w2 & [E2 _] & _).
    exists c. split; [|exact Hd]. rewrite E1, E2.
    apply in_or_app. right. apply in_or_app. now right.
  - unfold Plus in H. apply in_run_cat in H. destruct H as (s1 & H1 & _).
    cbn [run] in H1. apply in_step1 in H1.
    destruct H1 as (c & rest & Ha & Hc & _).
    exists c. split; [|exact Hc]. rewrite Ha. now left.
Qed.

Lemma findall_number_none s :
  (forall c, In c s -> isdecimal c = false) ->
  findall false NUMBER_RE s = [].
Proof.
  intros Hs. unfold findall. cbn [findall_from].
  destruct (search_from false NUMBER_RE [] s) as [m|] eqn:E; [|reflexivity].
  exfalso. apply search_from_some in E.
  destruct E as (pre & rest & s' & -> & Hin & _).
  apply number_needs_digit in Hin. destruct Hin as (c & Hc & Hd).
  cbn [after] in Hc. rewrite Hs in Hd; [discriminate|].
  apply in_or_app. now right.
Qed.

Lemma parse_price_value_strip raw :
  parse_price_value (strip raw) = parse_price_value raw.
Proof. unfold parse_price_value. now rewrite strip_strip. Qed.

Lemma parse_price_value_no_digit raw :
  isdecimal (ch ".") = false ->
  (forall c, In c raw -> isdecimal c = false) ->
  fst (parse_price_value raw) = None.
Proof.
  intros Hdot Hraw. unfold parse_price_value.
  assert (Hs : forall c, In c (strip raw) -> isdecimal c = false).
  { intros c Hc. apply Hraw. now apply strip_incl. }
  match goal with
  | |- context [findall false NUMBER_RE ?x] => set (s' := x)
  end.
  rewrite findall_number_none; [reflexivity|].
  intros c Hc. subst s'.
  assert (Hr : forall d t, (forall x, In x d -> isdecimal x = false) ->
                           (forall x, In x t -> isdecimal x = false) ->
                           forall x, In x (replace_char (ch ",") d t) ->
                                     isdecimal x = false).
  { intros d t Hd Ht x Hx. apply replace_char_incl in Hx.
    destruct Hx; auto. }
  assert (Hr' : forall t, (forall x, In x t -> isdecimal x = false) ->
                          forall x, In x (replace_char (ch ".") [] t) ->
                                    isdecimal x = false).
  { intros t Ht x Hx. apply replace_char_incl in Hx.
    destruct Hx as [Hx|[]]; auto. }
  assert (Hd : forall x, In x [ch "."] -> isdecimal x = false).
  { intros x [<-|[]]. exact Hdot. }
  destruct (Z.ltb _ _).
  - eapply Hr; [exact Hd| |exact Hc]. now apply Hr'.
  - destruct (_ && _).
    + eapply Hr; [|exact Hs|exact Hc]. intros x [].
    + eapply Hr; [exact Hd|exact Hs|exact Hc].
Qed.

End PriceMore.

(** X24. [parse_price_value] always names EUR as currency and ignores
    blanks around the text; a text without any decimal digit has no
    value; and a text without a minus sign has no negative value.  (The
    Unicode tables are assumed to agree with ASCII on the minus sign, and
    the full stop to be no digit.) *)
Theorem parse_price_value_edges (U : UnicodeData) (laws : UnicodeLaws U) raw :
  isdecimal (ch ".") = false ->
  snd (parse_price_value raw) = lit "EUR"
  /\ parse_price_value (strip raw) = parse_price_value raw
  /\ ((forall c, In c raw -> isdecimal c = false) ->
      fst (parse_price_value raw) = None)
  /\ (~ In (ch "-") raw ->
      forall v, fst (parse_price_value raw) = Some v -> pyfloat_nonneg v).
Proof.
  intros Hdot. split; [|split; [|split]].
  - unfold parse_price_value.
    match goal with
    | |- context [findall false NUMBER_RE ?x] =>
        destruct (findall false NUMBER_RE x)
    end; reflexivity.
  - apply parse_price_value_strip.
  - now apply parse_price_value_no_digit.
  - intros Hm v Hv. eapply parse_price_value_nonneg; eauto.
Qed.

Lemma parse_price_value_edges_witness :
  snd (@parse_price_value py_unicode (lit " n/a ")) = lit "EUR"
  /\ @parse_price_value py_unicode (@strip py_unicode (lit " n/a "))
     = @parse_price_value py_unicode (lit " n/a ")
  /\ ((forall c, In c (lit " n/a ") -> @isdecimal py_unicode c = false) ->
      fst (@parse_price_value py_unicode (lit " n/a ")) = None)
  /\ (~ In (ch "-") (lit " n/a ") ->
      forall v, fst (@parse_price_value py_unicode (lit " n/a ")) = Some v ->
                pyfloat_nonneg v).
Proof.
  apply (@parse_price_value_edges py_unicode PyUnicodeFacts.py_unicode_laws
           (lit " n/a ")).
  vm_compute. reflexivity.
Defined.

(* ================================================================== *)
(** * Further properties: rows *)
(* ================================================================== *)

Section RowShapes.
Open Scope Q_scope.







Lemma fold_min_band ya xs : forall x,
  x == ya -> Forall (fun y => y == ya) xs -> py_min x xs == ya.
Proof.
  intros x Hx Hxs. destruct (py_min_in xs x) as [<-|H]; [assumption|].
  rewrite Forall_forall in Hxs. auto.
Qed.

Lemma fold_max_band ya xs : forall x,
  x == ya -> Forall (fun y => y == ya) xs -> py_max x xs == ya.
Proof.
  intros x Hx Hxs. destruct (py_max_in xs x) as [<-|H]; [assumption|].
  rewrite Forall_forall in Hxs. auto.
Qed.

Lemma place_band ya yb tok row :
  ya < yb -> row <> [] -> Forall (in_band ya yb) row -> in_band ya yb tok ->
  place (45 # 100) tok [row] = Some [row ++ [tok]].
Proof.
  intros Hy Hne Hrow [Ht1 Ht2]. destruct row as [|t ts]; [contradiction|].
  cbn [place row_bbox].
  inversion Hrow as [|? ? [Hb1 Hb2] Hts]; subst.
  assert (E1 : py_min (y1 t) (map y1 ts) == ya).
  { apply fold_min_band; [assumption|]. apply Forall_map.
    eapply Forall_impl; [|exact Hts]. now intros u [H _]. }
  assert (E2 : py_max (y2 t) (map y2 ts) == yb).
  { apply fold_max_band; [assumption|]. apply Forall_map.
    eapply Forall_impl; [|exact Hts]. now intros u [_ H]. }
  match goal with
  | |- context [Qle_bool _ ?v] =>
      assert (Hv : v == 1)
  end.
  { rewrite vertical_overlap_ratio_nested; cbn [by1 by2];
      unfold y1, y2 in *; try lra.
    rewrite E1, E2, Ht1, Ht2. field. lra. }
  match goal with
  | |- context [Qle_bool ?a ?v] =>
      replace (Qle_bool a v) with true; [reflexivity|]
  end.
  symmetry. apply Qle_bool_iff. rewrite Hv. lra.
Qed.

Lemma place_loop_band ya yb toks : forall row,
  ya < yb -> row <> [] -> Forall (in_band ya yb) (row ++ toks) ->
  fold_left (fun rows tok =>
               match rows with
               | Some rs => place (45 # 100) tok rs
               | None => None
               end) toks (Some [row])
  = Some [row ++ toks].
Proof.
  induction toks as [|tok toks IH]; intros row Hy Hne H; cbn [fold_left].
  - now rewrite app_nil_r.
  - rewrite (@place_band ya yb); auto.
    + rewrite IH; auto.
      * now rewrite <- app_assoc.
      * destruct row; discriminate.
      * now rewrite <- app_assoc.
    + apply Forall_app in H. tauto.
    + apply Forall_app in H. destruct H as [_ H]. now inversion H.
Qed.

End RowShapes.



(** X26. Tokens that all have the same y-interval, of positive height,
    form a single row, in ascending order of [x1]. *)
Theorem group_rows_of_one_line tokens ya yb :
  (ya < yb)%Q -> tokens <> [] ->
  Forall (fun t => (y1 t == ya)%Q /\ (y2 t == yb)%Q) tokens ->
  group_rows tokens = Some [sorted key_x_lt (sorted key_yx_lt tokens)].
Proof.
  intros Hy Hne H. unfold group_rows, group_rows_with.
  assert (Hs : Forall (in_band ya yb) (sorted key_yx_lt tokens)).
  { eapply Permutation_Forall; [symmetry; apply sorted_perm|exact H]. }
  destruct (sorted key_yx_lt tokens) as [|t ts] eqn:E.
  { exfalso. eapply sorted_nonempty; eauto. }
  cbn [fold_left place].
  rewrite (@place_loop_band ya yb ts [t]); auto.
  discriminate.
Qed.

Lemma group_rows_of_one_line_witness :
  group_rows milch_tokens
  = Some [sorted key_x_lt (sorted key_yx_lt milch_tokens)].
Proof.
  apply (@group_rows_of_one_line milch_tokens 0 20).
  - vm_compute. reflexivity.
  - discriminate.
  - repeat constructor.
Defined.
